(** * solve.js: threshold-secret reconstruction, verified against its code

    A shallow embedding of [src/solve.js].

    - JS [BigInt] values are [Z]; [/] and [%] on BigInt truncate towards
      zero, hence [Z.quot] and [Z.rem].
    - JS Numbers that only ever hold array indices or counters are [nat];
      the one place where such a Number can go negative ([last] and the
      position bound in [combinations]) is computed in [Z].
    - A JS string is a [string]: a sequence of code units below 256, so a
      character is an [ascii] read as a Latin-1 code point, and
      [toLowerCase] is modelled on that range only.
    - The digit decoder is modelled a second time on every string
      ([CodePoints]): a string is the list of code points its iterator
      produces and the platform's lower-casing table is a parameter, of
      which only what the decoder can observe is assumed.
    - [throw] is the [Throw] constructor of [result]; [try/catch] is a match.
    - A generator is its state together with the function that advances it;
      loops that the code cannot bound are run with fuel and the theorems
      say whether fuel is ever enough. *)

From Equations Require Import Equations.
From Stdlib Require Import ZArith Lia Bool Ascii String List Permutation Sorted.
From Stdlib Require Import QArith Qcanon Field.
Import ListNotations.
Open Scope Z_scope.

(** ** Exceptions *)

Inductive Error : Type :=
| InvalidDigit (ch : ascii)            (* `Invalid digit: ${ch}` *)
| DigitGeBase (ch : ascii) (base : Z)  (* `Digit '${ch}' >= base ${base}` *)
| ZeroDenominator                      (* "Zero denominator in fraction" *)
| NonInteger (num den : Z)             (* "Interpolation didn't yield an integer at 0" *)
| TypeError                            (* property read on [undefined] *)
| InvalidParams                        (* `Invalid n/k values` *)
| NoValidSubset.                       (* "Could not compute any c from subsets." *)

Inductive result (A : Type) : Type :=
| Ok (a : A)
| Throw (e : Error).
Arguments Ok {A} a.
Arguments Throw {A} e.

Definition bind {A B} (r : result A) (f : A -> result B) : result B :=
  match r with
  | Ok a => f a
  | Throw e => Throw e
  end.

Notation "x <- r ;; k" := (bind r (fun x => k))
  (at level 61, r at next level, right associativity).
Notation "' p <- r ;; k" := (bind r (fun p => k))
  (at level 61, p pattern, r at next level, right associativity).

(** The spec's taxonomy files both decoder exceptions under "invalid-digit". *)
Definition invalid_digit_error (e : Error) : Prop :=
  match e with
  | InvalidDigit _ | DigitGeBase _ _ => True
  | _ => False
  end.

(** ** Digit decoder (solve.js 3-19) *)

Module Decoder.

Definition code (ch : ascii) : Z := Z.of_N (N_of_ascii ch).

Definition ascii_of_code (n : Z) : ascii := ascii_of_N (Z.to_N n).

(** [String.prototype.toLowerCase] on one Latin-1 character: A-Z and the
    accented capitals U+00C0..U+00DE (U+00D7, the multiplication sign,
    apart) move up by 32; every other character is its own lower case. *)
Definition toLowerCase (ch : ascii) : ascii :=
  let n := code ch in
  if ((65 <=? n) && (n <=? 90))
     || ((192 <=? n) && (n <=? 222) && negb (n =? 215))
  then ascii_of_code (n + 32)
  else ch.

(** Comparing one-character strings compares their code units. *)
Definition charToVal (ch : ascii) : result Z :=
  let c := toLowerCase ch in
  if (code "0" <=? code c) && (code c <=? code "9") then
    Ok (code c - code "0")
  else if (code "a" <=? code c) && (code c <=? code "z") then
    Ok (10 + (code c - code "a"))
  else Throw (InvalidDigit ch).

(** The [for (const ch of str)] loop, [acc] threaded through. *)
Fixpoint decode_loop (base : Z) (str : string) (acc : Z) : result Z :=
  match str with
  | EmptyString => Ok acc
  | String ch rest =>
      v <- charToVal ch ;;
      if v >=? base then Throw (DigitGeBase ch base)
      else decode_loop base rest (acc * base + v)
  end.

(** [base] is an integer-valued Number, so [BigInt(base)] is that integer. *)
Definition decodeBaseToBigInt (str : string) (base : Z) : result Z :=
  decode_loop base str 0.

(** *** What the spec says a digit is *)

(** '0'..'9' are 0-9 and the letters, in either case, are 10-35. *)
Definition digitValue (ch : ascii) : option Z :=
  let n := code ch in
  if (48 <=? n) && (n <=? 57) then Some (n - 48)
  else if (97 <=? n) && (n <=? 122) then Some (n - 97 + 10)
  else if (65 <=? n) && (n <=? 90) then Some (n - 65 + 10)
  else None.

(** One of '0'..'9', 'a'..'z', 'A'..'Z'. *)
Definition alphanumeric (ch : ascii) : Prop :=
  48 <= code ch <= 57 \/ 97 <= code ch <= 122 \/ 65 <= code ch <= 90.

(** A character that makes the decoder fail, in the spec's words: not an
    alphanumeric, or a digit whose value is [>= base]. *)
Definition bad_digit (base : Z) (ch : ascii) : Prop :=
  ~ alphanumeric ch \/ exists v, digitValue ch = Some v /\ v >= base.

Fixpoint chars (s : string) : list ascii :=
  match s with
  | EmptyString => []
  | String c r => c :: chars r
  end.

(** [ds] are the digit values of the characters of [str], all below [base]. *)
Definition digits_of (base : Z) (str : string) (ds : list Z) : Prop :=
  Forall2 (fun ch d => digitValue ch = Some d /\ d < base) (chars str) ds.

(** Positional decoding, left to right: [acc = acc*base + digitValue]. *)
Definition positional (base : Z) (ds : list Z) : Z :=
  fold_left (fun acc d => acc * base + d) ds 0.

(** Two characters that differ at most in the case of an ASCII letter. *)
Definition same_letter (a b : ascii) : Prop :=
  a = b \/
  (65 <= code a <= 90 /\ code b = code a + 32) \/
  (65 <= code b <= 90 /\ code a = code b + 32).

Definition eq_ignoring_case (s t : string) : Prop :=
  Forall2 same_letter (chars s) (chars t).

End Decoder.

(** ** Exact fractions (solve.js 22-49) *)

Module Fraction.

Definition absBig (n : Z) : Z := if n <? 0 then - n else n.

(** The Euclid loop [while (b !== 0n) { t = a % b; a = b; b = t }]. *)
Equations? gcd_loop (a b : Z) : Z by wf (Z.abs_nat b) lt :=
  gcd_loop a b with Z.eq_dec b 0 => {
    | left _ := a;
    | right _ := gcd_loop b (Z.rem a b) }.
Proof.
  pose proof (Z.rem_bound_abs a b n). lia.
Qed.

Definition gcdBig (a b : Z) : Z := gcd_loop (absBig a) (absBig b).

(** A fraction is the two-element array [[num, den]]. *)
Definition Frac : Type := (Z * Z)%type.

Definition normalizeFrac (num den : Z) : result Frac :=
  if den =? 0 then Throw ZeroDenominator
  else if num =? 0 then Ok (0, 1)
  else
    let '(num, den) := if den <? 0 then (- num, - den) else (num, den) in
    let g := gcdBig (absBig num) den in
    Ok (Z.quot num g, Z.quot den g).

Definition addFrac (a b : Frac) : result Frac :=
  let '(an, ad) := a in
  let '(bn, bd) := b in
  normalizeFrac (an * bd + bn * ad) (ad * bd).

Definition mulFrac (a b : Frac) : result Frac :=
  let '(an, ad) := a in
  let '(bn, bd) := b in
  normalizeFrac (an * bn) (ad * bd).

(** The invariant of the data model: positive denominator, lowest terms. *)
Definition lowest_terms (f : Frac) : Prop :=
  0 < snd f /\ Z.gcd (Z.abs (fst f)) (snd f) = 1.

End Fraction.

(** ** Interpolator (solve.js 52-81) *)

Module Interpolator.
Import Fraction.

Record Point : Type := mkPoint { x : Z; y : Z; label : string }.

(** The array handed to [interpolateAtZero] is [combo.map(i => points[i])]:
    an entry is [undefined] when its index was out of range, and reading
    [.x] of it raises a TypeError. Inside the function every index is below
    [points.length], so the [None] of [nth_error] is the same exception. *)
Definition at_index (points : list (option Point)) (i : nat) : result Point :=
  match nth_error points i with
  | Some (Some p) => Ok p
  | _ => Throw TypeError
  end.

(** The inner loop over [j], with [li] the running product. *)
Fixpoint basis_loop (points : list (option Point)) (i : nat) (xi : Z)
    (js : list nat) (li : Frac) : result Frac :=
  match js with
  | [] => Ok li
  | j :: js' =>
      if Nat.eqb i j then basis_loop points i xi js' li
      else
        pj <- at_index points j ;;
        let num := - x pj in
        let den := xi - x pj in
        f <- normalizeFrac num den ;;
        li' <- mulFrac li f ;;
        basis_loop points i xi js' li'
  end.

(** The outer loop over [i], with [sum] the fraction accumulator. *)
Fixpoint sum_loop (points : list (option Point)) (k : nat)
    (ixs : list nat) (sum : Frac) : result Frac :=
  match ixs with
  | [] => Ok sum
  | i :: ixs' =>
      pi <- at_index points i ;;
      li <- basis_loop points i (x pi) (seq 0 k) (1, 1) ;;
      term <- mulFrac (y pi, 1) li ;;
      sum' <- addFrac sum term ;;
      sum_loop points k ixs' sum'
  end.

Definition interpolateAtZero (points : list (option Point)) : result Z :=
  let k := length points in
  sum <- sum_loop points k (seq 0 k) (0, 1) ;;
  '(num, den) <- normalizeFrac (fst sum) (snd sum) ;;
  if negb (Z.rem num den =? 0) then Throw (NonInteger num den)
  else Ok (Z.quot num den).

(** *** Polynomials, for stating what is interpolated *)

(** An integer polynomial is the list of its coefficients, constant term
    first; [peval] is Horner's rule. *)
Definition peval (coeffs : list Z) (t : Z) : Z :=
  fold_right (fun c acc => c + t * acc) 0 coeffs.

Definition on_poly (coeffs : list Z) (p : Point) : Prop :=
  y p = peval coeffs (x p).

(** *** The same objects over the rationals *)

Definition inj (z : Z) : Qc := Q2Qc (inject_Z z).

(** The rational a fraction stands for. *)
Definition qv (f : Frac) : Qc := (inj (fst f) / inj (snd f))%Qc.

Definition qeval (p : list Qc) (t : Qc) : Qc :=
  fold_right (fun c acc => (c + t * acc)%Qc) 0%Qc p.

(** [f] is a polynomial function with at most [n] coefficients. *)
Definition polyfun (n : nat) (f : Qc -> Qc) : Prop :=
  exists p, (length p <= n)%nat /\ forall t, f t = qeval p t.

Definition padd (p q : list Qc) : list Qc :=
  (fix go p q :=
     match p, q with
     | [], _ => q
     | _, [] => p
     | a :: p', b :: q' => (a + b)%Qc :: go p' q'
     end) p q.

Definition pscale (c : Qc) (p : list Qc) : list Qc := map (Qcmult c) p.

(** Quotient of [p] by [X - r] (synthetic division). *)
Fixpoint pdiv (r : Qc) (p : list Qc) : list Qc :=
  match p with
  | [] => []
  | _ :: p' => padd p' (pscale r (pdiv r p'))
  end.

(** The default for [nth]; every lookup below is in range. *)
Definition pt0 : Point := mkPoint 0 0 "".

Definition xq (pts : list Point) (i : nat) : Qc := inj (x (nth i pts pt0)).

Definition yq (pts : list Point) (i : nat) : Qc := inj (y (nth i pts pt0)).

(** The Lagrange basis polynomial of point [i] at [t], as the product over
    the positions [js] other than [i]. *)
Definition basisQ (pts : list Point) (i : nat) (t : Qc) (js : list nat) : Qc :=
  fold_right
    (fun j acc =>
       if Nat.eqb i j then acc
       else ((t - xq pts j) / (xq pts i - xq pts j) * acc)%Qc)
    1%Qc js.

(** The Lagrange interpolant of [pts] at [t], summed over the positions [ixs]. *)
Definition lagrangeQ (pts : list Point) (t : Qc) (ixs : list nat) : Qc :=
  fold_right
    (fun i acc => (yq pts i * basisQ pts i t (seq 0 (length pts)) + acc)%Qc)
    0%Qc ixs.

Definition interpolant (pts : list Point) (t : Qc) : Qc :=
  lagrangeQ pts t (seq 0 (length pts)).

End Interpolator.

(** ** Subset enumerator (solve.js 84-97) *)

Module Enumerator.

(** [idx[i] = v]. Every assignment in [combinations] is to a position
    below [k = idx.length] ([i <= k-1] and [i+1 <= j < k]), so the array is
    never extended. *)
Fixpoint assign (idx : list nat) (i v : nat) : list nat :=
  match idx, i with
  | [], _ => []
  | _ :: t, O => v :: t
  | h :: t, S i' => h :: assign t i' v
  end.

(** [while (i >= 0 && idx[i] === last - (k - 1 - i)) i--], started with
    [i = c - 1]: [Some i] is where it stops, [None] is [i < 0]. [last] is
    [n - 1] and negative when [n = 0], so the bound is an integer. *)
Fixpoint scan (idx : list nat) (last : Z) (k c : nat) : option nat :=
  match c with
  | O => None
  | S i =>
      if Z.of_nat (nth i idx O) =? last - (Z.of_nat k - 1 - Z.of_nat i)
      then scan idx last k i
      else Some i
  end.

(** [for (j = i + 1; j < k; j++) idx[j] = idx[j - 1] + 1], over the [js]. *)
Fixpoint refill (idx : list nat) (js : list nat) : list nat :=
  match js with
  | [] => idx
  | j :: js' => refill (assign idx j (nth (j - 1) idx O + 1)%nat) js'
  end.

(** One turn of the [while (true)] body: [None] is [return], [Some idx']
    is the array at the next [yield]. *)
Definition advance (n k : nat) (idx : list nat) : option (list nat) :=
  let last := Z.of_nat n - 1 in
  match scan idx last k k with
  | None => None
  | Some i =>
      let idx1 := assign idx i (nth i idx O + 1)%nat in
      Some (refill idx1 (seq (S i) (k - S i)))
  end.

(** The generator resumed [fuel] times after a [yield] with array [idx]:
    what it yields from there on, and whether it has returned. *)
Fixpoint resume (fuel n k : nat) (idx : list nat) : list (list nat) * bool :=
  match fuel with
  | O => ([], false)
  | S fuel' =>
      match advance n k idx with
      | None => ([], true)
      | Some idx' =>
          let '(ys, returned) := resume fuel' n k idx' in
          (idx' :: ys, returned)
      end
  end.

(** [combinations(n, k)] driven [fuel] times past its first [yield]. Each
    [yield idx.slice()] hands out a copy, so the yielded arrays are values. *)
Definition combinations (fuel n k : nat) : list (list nat) * bool :=
  let idx := seq 0 k in
  let '(ys, returned) := resume fuel n k idx in
  (idx :: ys, returned).

(** *** What the spec says is enumerated *)

(** The binomial coefficient, by Pascal's rule. *)
Fixpoint choose (n k : nat) : nat :=
  match n, k with
  | _, O => 1
  | O, S _ => 0
  | S n', S k' => choose n' k' + choose n' (S k')
  end%nat.

(** All strictly increasing [k]-element sequences over [lo .. lo+n-1], those
    starting with [lo] first. *)
Fixpoint subseqs (lo n k : nat) : list (list nat) :=
  match k, n with
  | O, _ => [[]]
  | S _, O => []
  | S k', S n' =>
      map (cons lo) (subseqs (S lo) n' k') ++ subseqs (S lo) n' k
  end.

Definition increasing (l : list nat) : Prop := StronglySorted lt l.

Inductive lex_lt : list nat -> list nat -> Prop :=
| lex_lt_nil b l : lex_lt [] (b :: l)
| lex_lt_head a b l l' : (a < b)%nat -> lex_lt (a :: l) (b :: l')
| lex_lt_tail a l l' : lex_lt l l' -> lex_lt (a :: l) (a :: l').

(** A [k]-element index sequence over [0 .. m-1]. *)
Definition is_combo (m k : nat) (c : list nat) : Prop :=
  length c = k /\ increasing c /\ forall i, In i c -> (i < m)%nat.

(** The successor on index sequences, written by recursion on the array:
    advance inside the tail when that is possible, otherwise bump the head
    unless it sits at its last allowed value [hi - length tail]. *)
Fixpoint successor (hi : Z) (l : list nat) : option (list nat) :=
  match l with
  | [] => None
  | a :: r =>
      match successor hi r with
      | Some r' => Some (a :: r')
      | None =>
          if Z.of_nat a =? hi - Z.of_nat (length r) then None
          else Some (seq (S a) (S (length r)))
      end
  end.

(** Consecutive members are linked by [successor] and the last has none. *)
Fixpoint chain (hi : Z) (ls : list (list nat)) : Prop :=
  match ls with
  | [] => True
  | c :: rest =>
      match rest with
      | [] => successor hi c = None
      | c' :: _ => successor hi c = Some c' /\ chain hi rest
      end
  end.

End Enumerator.

(** ** Robust reconstructor (solve.js 111-171) *)

Module Reconstructor.
Import Interpolator Enumerator.

(** A [Map] keeps its keys in insertion order, which the winner scan
    observes, so it is an association list. The keys are [c.toString()]:
    decimal strings of BigInts, equal exactly when the BigInts are, and read
    back by [BigInt(bestC)] as the same integer; they are kept as [Z]. *)
Definition JsMap (V : Type) : Type := list (Z * V).

Fixpoint map_get {V} (m : JsMap V) (key : Z) : option V :=
  match m with
  | [] => None
  | (k', v) :: r => if key =? k' then Some v else map_get r key
  end.

(** [Map.prototype.set]: an existing key keeps its place. *)
Fixpoint map_set {V} (m : JsMap V) (key : Z) (v : V) : JsMap V :=
  match m with
  | [] => [(key, v)]
  | (k', v') :: r =>
      if key =? k' then (key, v) :: r else (k', v') :: map_set r key v
  end.

(** A [Set] of indices. *)
Definition set_has (s : list nat) (i : nat) : bool := existsb (Nat.eqb i) s.

Definition set_add (s : list nat) (i : nat) : list nat :=
  if set_has s i then s else s ++ [i].

Record Tally : Type := mkTally {
  cFreq : JsMap nat;            (* BigInt -> count *)
  cMembers : JsMap (list nat)   (* BigInt -> Set of point indices *)
}.

Definition empty_tally : Tally := mkTally [] [].

(** [(cFreq.get(key) || 0)]. *)
Definition count_in (f : JsMap nat) (v : Z) : nat :=
  match map_get f v with Some n => n | None => O end.

(** [cFreq.set(key, (cFreq.get(key) || 0) + 1)]. *)
Definition bump (f : JsMap nat) (v : Z) : JsMap nat :=
  map_set f v (count_in f v + 1)%nat.

(** The indices on record for the secret [v] ([[]] when there is no entry). *)
Definition members_of (mem : JsMap (list nat)) (v : Z) : list nat :=
  match map_get mem v with Some s => s | None => [] end.

(** Lines 148-153, for a subset that interpolated to [c]. The [Set] stored
    under the key is mutated in place, so the map entry changes with it. *)
Definition record (combo : list nat) (c : Z) (t : Tally) : Tally :=
  let members :=
    match map_get (cMembers t) c with
    | Some _ => cMembers t
    | None => map_set (cMembers t) c []
    end in
  let set := members_of members c in
  mkTally (bump (cFreq t) c)
          (map_set members c (fold_left set_add combo set)).

(** [combo.map(i => points[i])]: [undefined] where [i] is out of range. *)
Definition subset_of (points : list Point) (combo : list nat)
  : list (option Point) :=
  map (nth_error points) combo.

(** The body of the [for (const combo of ...)] loop; the [catch] skips. *)
Definition visit (points : list Point) (combo : list nat) (t : Tally) : Tally :=
  match interpolateAtZero (subset_of points combo) with
  | Ok c => record combo c t
  | Throw _ => t
  end.

(** The loop over the generator, at most [fuel] subsets: [None] when the
    generator has not returned by then. *)
Fixpoint tally_loop (fuel : nat) (points : list Point) (m k : nat)
    (idx : list nat) (t : Tally) : option Tally :=
  match fuel with
  | O => None
  | S fuel' =>
      let t' := visit points idx t in
      match advance m k idx with
      | None => Some t'
      | Some idx' => tally_loop fuel' points m k idx' t'
      end
  end.

(** Line 162, for one entry of [cFreq.entries()]; [best] is the pair
    [bestC], [bestCount]. *)
Definition scan_step (best : option Z * Z) (entry : Z * nat) : option Z * Z :=
  let '(key, count) := entry in
  if Z.of_nat count >? snd best then (Some key, Z.of_nat count) else best.

(** Lines 159-163: [bestC], [bestCount] after the scan. *)
Definition pick_best (freq : JsMap nat) : option Z * Z :=
  fold_left scan_step freq (None, -1).

(** Lines 169-171: the points of [0..m-1] whose index is not in [okSet]. *)
Definition outliers_of (points : list Point) (m : nat) (okSet : list nat)
  : list Point :=
  map snd
    (filter (fun ip => negb (set_has okSet (fst ip)))
            (combine (seq 0 m) points)).

(** [main] from the parameter check on, given the decoded points; [n] and
    [k] are integer-valued Numbers. [None]: still looping after [fuel]
    subsets. *)
Definition reconstruct (fuel : nat) (n k : Z) (points : list Point)
  : option (result (Z * list Point)) :=
  if (k <? 2) || (n <? k) then Some (Throw InvalidParams)
  else
    let m := Nat.min (length points) (Z.to_nat n) in
    let k := Z.to_nat k in
    match tally_loop fuel points m k (seq 0 k) empty_tally with
    | None => None
    | Some t =>
        if Nat.eqb (length (cFreq t)) 0 then Some (Throw NoValidSubset)
        else
          match fst (pick_best (cFreq t)) with
          | None => Some (Throw TypeError)   (* BigInt(null) *)
          | Some bestC =>
              let okSet := members_of (cMembers t) bestC in
              Some (Ok (bestC, outliers_of points m okSet))
          end
    end.

(** *** Vocabulary for the claims *)

(** The tally after the subsets [combos] were visited in that order. *)
Definition visit_all (points : list Point) (combos : list (list nat))
    (t : Tally) : Tally :=
  fold_left (fun t combo => visit points combo t) combos t.

Definition tally_of (points : list Point) (combos : list (list nat)) : Tally :=
  visit_all points combos empty_tally.

Definition yields (points : list Point) (combo : list nat) (v : Z) : Prop :=
  interpolateAtZero (subset_of points combo) = Ok v.

(** The secrets of the subsets that interpolated, in enumeration order. *)
Definition secrets (points : list Point) (combos : list (list nat)) : list Z :=
  flat_map
    (fun combo =>
       match interpolateAtZero (subset_of points combo) with
       | Ok c => [c]
       | Throw _ => []
       end)
    combos.

Definition fails (points : list Point) (combo : list nat) : Prop :=
  exists e, interpolateAtZero (subset_of points combo) = Throw e.

Definition count (v : Z) (vs : list Z) : nat := count_occ Z.eq_dec vs v.

(** [w] is recorded in [vs] before [v] ever is. *)
Definition first_before (w v : Z) (vs : list Z) : Prop :=
  exists pre post, vs = pre ++ w :: post /\ ~ In w pre /\ ~ In v pre.

End Reconstructor.

(** ** Robustness: the vocabulary of the claim *)

Module Robust.
Import Interpolator Enumerator Reconstructor.

(** The points a subset selects. *)
Definition sel (points : list Point) (c : list nat) : list Point :=
  map (fun i => nth i points pt0) c.

(** The members of [l] below [m], in increasing order. *)
Definition sorted_of (m : nat) (l : list nat) : list nat :=
  filter (set_has l) (seq 0 m).

(** [c] without the index [b]. *)
Definition others (b : nat) (c : list nat) : list nat :=
  filter (fun i => negb (Nat.eqb i b)) c.

(** The [j]-th smallest index below [m] that is not in [c]. *)
Definition spare (m : nat) (c : list nat) (j : nat) : nat :=
  nth j (filter (fun i => negb (set_has c i)) (seq 0 m)) O.

(** [c] with [b] traded for its [j]-th spare index. *)
Definition trade (m b : nat) (c : list nat) (j : nat) : list nat :=
  sorted_of m (spare m c j :: others b c).

Definition yieldsb (points : list Point) (v : Z) (c : list nat) : bool :=
  match interpolateAtZero (subset_of points c) with
  | Ok v' => v' =? v
  | Throw _ => false
  end.

(** [k >= 2]; the points have pairwise distinct abscissas; all of them but
    the one at index [b] lie on the polynomial [coeffs] of degree at most
    [k - 1], and that one does not. *)
Definition one_perturbed (points : list Point) (k : nat) (coeffs : list Z)
    (b : nat) : Prop :=
  (2 <= k)%nat /\
  NoDup (map x points) /\
  (length coeffs <= k)%nat /\
  (b < length points)%nat /\
  ~ on_poly coeffs (nth b points pt0) /\
  forall i, (i < length points)%nat -> i <> b -> on_poly coeffs (nth i points pt0).

(** The run ends with the polynomial's value at 0 as the secret and the
    perturbed point as the only outlier. *)
Definition recovers (points : list Point) (k : nat) (coeffs : list Z)
    (b : nat) : Prop :=
  forall fuel n,
    (choose (length points) k <= fuel)%nat ->
    Z.of_nat (length points) <= n ->
    reconstruct fuel n (Z.of_nat k) points =
    Some (Ok (peval coeffs 0, [nth b points pt0])).

(** The robustness claim, for [m >= k + spare_points] points that also
    satisfy [side]. *)
Definition robust_claim (spare_points : nat) (side : list Point -> Prop) : Prop :=
  forall points k coeffs b,
    one_perturbed points k coeffs b ->
    side points ->
    (k + spare_points <= length points)%nat ->
    recovers points k coeffs b.

Definition nonzero_xs (points : list Point) : Prop :=
  Forall (fun p => x p <> 0) points.

End Robust.

(** ** The digit decoder on any string (solve.js 3-19) *)

Module CodePoints.

(** [for (const ch of str)] walks a string by code points, a lone surrogate
    being one of them: here a string is the list of code points its
    iterator produces, and [ch] is one of them. *)
Definition code_point (ch : Z) : Prop := 0 <= ch <= 1114111.

(** What is thrown, with the character as the message prints it. *)
Inductive Thrown : Type :=
| InvalidDigitAt (ch : Z)              (* `Invalid digit: ${ch}` *)
| DigitGeBaseAt (ch : Z) (base : Z).   (* `Digit '${ch}' >= base ${base}` *)

(** [<] on strings compares them code unit by code unit, a proper prefix
    being the smaller one. *)
Fixpoint compare_units (a b : list Z) : comparison :=
  match a, b with
  | [], [] => Eq
  | [], _ :: _ => Lt
  | _ :: _, [] => Gt
  | u :: a', w :: b' =>
      match u ?= w with
      | Eq => compare_units a' b'
      | r => r
      end
  end.

(** [a >= b] and [a <= b] on strings. *)
Definition str_ge (a b : list Z) : bool :=
  match compare_units a b with Lt => false | _ => true end.

Definition str_le (a b : list Z) : bool :=
  match compare_units a b with Gt => false | _ => true end.

Section Casing.

(** [ch.toLowerCase()] for a one-character string [ch], as the UTF-16 code
    units of the result. The table behind it is the platform's and no code
    of this repository, so it is a parameter. *)
Variable lower : Z -> list Z.

Definition charToVal (ch : Z) : Z + Thrown :=
  let c := lower ch in
  if str_ge c [48] && str_le c [57] then inl (nth 0 c 0 - 48)
  else if str_ge c [97] && str_le c [122] then inl (10 + (nth 0 c 0 - 97))
  else inr (InvalidDigitAt ch).

Fixpoint decode_loop (base : Z) (str : list Z) (acc : Z) : Z + Thrown :=
  match str with
  | [] => inl acc
  | ch :: rest =>
      match charToVal ch with
      | inr e => inr e
      | inl v =>
          if v >=? base then inr (DigitGeBaseAt ch base)
          else decode_loop base rest (acc * base + v)
      end
  end.

Definition decodeBaseToBigInt (str : list Z) (base : Z) : Z + Thrown :=
  decode_loop base str 0.

End Casing.

(** *** What is assumed of the table *)

(** U+212A, the Kelvin sign, and U+0130, the capital I with a dot above. *)
Definition KELVIN_SIGN : Z := 8490.
Definition CAPITAL_I_DOT : Z := 304.

(** The Unicode facts about lower-casing that the decoder can observe: in
    ASCII only A-Z change, by 32; the Kelvin sign becomes [k]; the dotted
    capital I becomes [i] followed by U+0307; and the lower case of every
    other character begins outside ASCII. *)
Definition unicode_casing (lower : Z -> list Z) : Prop :=
  (forall ch, 0 <= ch < 128 ->
     lower ch = [if (65 <=? ch) && (ch <=? 90) then ch + 32 else ch]) /\
  lower KELVIN_SIGN = [107] /\
  lower CAPITAL_I_DOT = [105; 775] /\
  (forall ch, 128 <= ch <= 1114111 ->
     ch <> KELVIN_SIGN -> ch <> CAPITAL_I_DOT ->
     exists u rest, lower ch = u :: rest /\ 128 <= u).

(** A table with these properties: the two entries, ASCII, and every other
    character left as it is. The platform's table differs from it only in
    the lower case of other letters, which is outside ASCII too. *)
Definition basic_casing (ch : Z) : list Z :=
  if ch =? KELVIN_SIGN then [107]
  else if ch =? CAPITAL_I_DOT then [105; 775]
  else if (65 <=? ch) && (ch <=? 90) then [ch + 32]
  else [ch].

(** *** What the spec says a digit is *)

(** One of '0'..'9', 'a'..'z', 'A'..'Z'. *)
Definition alphanumeric (ch : Z) : Prop :=
  48 <= ch <= 57 \/ 97 <= ch <= 122 \/ 65 <= ch <= 90.

(** '0'..'9' are 0-9 and the letters, in either case, are 10-35. *)
Definition digitValue (ch : Z) : option Z :=
  if (48 <=? ch) && (ch <=? 57) then Some (ch - 48)
  else if (97 <=? ch) && (ch <=? 122) then Some (ch - 97 + 10)
  else if (65 <=? ch) && (ch <=? 90) then Some (ch - 65 + 10)
  else None.

(** A character that makes the decoder fail, in the spec's words. *)
Definition bad_digit (base : Z) (ch : Z) : Prop :=
  ~ alphanumeric ch \/ exists v, digitValue ch = Some v /\ v >= base.

(** *** What the code takes for a digit *)

(** The letter the decoder reads a character as: case is dropped, the
    Kelvin sign is [k] and the dotted capital I is [i]. *)
Definition fold (ch : Z) : Z :=
  if (65 <=? ch) && (ch <=? 90) then ch + 32
  else if ch =? KELVIN_SIGN then 107
  else if ch =? CAPITAL_I_DOT then 105
  else ch.

Definition accepted (ch : Z) : Prop :=
  alphanumeric ch \/ ch = KELVIN_SIGN \/ ch = CAPITAL_I_DOT.

(** A character on which the code fails. *)
Definition rejected (base : Z) (ch : Z) : Prop :=
  ~ accepted ch \/ exists v, digitValue (fold ch) = Some v /\ v >= base.

End CodePoints.

(** * Proofs *)

(** ** Digit decoder *)

Module DecoderFacts.
Import Decoder.

Lemma code_range ch : 0 <= code ch < 256.
Proof.
  unfold code. pose proof (N_ascii_bounded ch). lia.
Qed.

Lemma code_ascii_of_code n : 0 <= n < 256 -> code (ascii_of_code n) = n.
Proof.
  intros H. unfold code, ascii_of_code.
  rewrite N_ascii_embedding by lia. lia.
Qed.

Lemma code_toLowerCase ch :
  code (toLowerCase ch) =
  if ((65 <=? code ch) && (code ch <=? 90))
     || ((192 <=? code ch) && (code ch <=? 222) && negb (code ch =? 215))
  then code ch + 32 else code ch.
Proof.
  unfold toLowerCase.
  destruct (_ || _) eqn:E; [|reflexivity].
  apply code_ascii_of_code. pose proof (code_range ch). lia.
Qed.

(** The code's digit function is the spec's: a value exactly for the
    alphanumerics, and the same value. *)
Lemma charToVal_digitValue ch :
  charToVal ch =
  match digitValue ch with
  | Some v => Ok v
  | None => Throw (InvalidDigit ch)
  end.
Proof.
  unfold charToVal, digitValue.
  rewrite code_toLowerCase.
  change (code "0") with 48. change (code "9") with 57.
  change (code "a") with 97. change (code "z") with 122.
  pose proof (code_range ch) as R.
  destruct ((65 <=? code ch) && (code ch <=? 90)) eqn:U.
  - simpl orb. cbv iota.
    replace ((48 <=? code ch + 32) && (code ch + 32 <=? 57)) with false by lia.
    replace ((97 <=? code ch + 32) && (code ch + 32 <=? 122)) with true by lia.
    replace ((48 <=? code ch) && (code ch <=? 57)) with false by lia.
    replace ((97 <=? code ch) && (code ch <=? 122)) with false by lia.
    f_equal. lia.
  - simpl orb.
    destruct ((192 <=? code ch) && (code ch <=? 222) && negb (code ch =? 215)) eqn:L.
    + replace ((48 <=? code ch + 32) && (code ch + 32 <=? 57)) with false by lia.
      replace ((97 <=? code ch + 32) && (code ch + 32 <=? 122)) with false by lia.
      replace ((48 <=? code ch) && (code ch <=? 57)) with false by lia.
      replace ((97 <=? code ch) && (code ch <=? 122)) with false by lia.
      reflexivity.
    + destruct ((48 <=? code ch) && (code ch <=? 57)); [reflexivity|].
      destruct ((97 <=? code ch) && (code ch <=? 122)); [f_equal; lia|].
      reflexivity.
Qed.

Lemma same_letter_digitValue a b :
  same_letter a b -> digitValue a = digitValue b.
Proof.
  intros [->|H]; [reflexivity|].
  unfold digitValue.
  destruct ((48 <=? code a) && (code a <=? 57)) eqn:A1;
  destruct ((97 <=? code a) && (code a <=? 122)) eqn:A2;
  destruct ((65 <=? code a) && (code a <=? 90)) eqn:A3;
  destruct ((48 <=? code b) && (code b <=? 57)) eqn:B1;
  destruct ((97 <=? code b) && (code b <=? 122)) eqn:B2;
  destruct ((65 <=? code b) && (code b <=? 90)) eqn:B3;
  try (f_equal; lia); exfalso; lia.
Qed.

Lemma decode_loop_valid base str : forall ds acc,
  digits_of base str ds ->
  decode_loop base str acc = Ok (fold_left (fun a d => a * base + d) ds acc).
Proof.
  unfold digits_of.
  induction str as [|ch rest IH]; intros ds acc H; simpl in *.
  - inversion H. reflexivity.
  - inversion H as [|? v ? ds' [Hv Hlt] Hrest]; subst.
    rewrite charToVal_digitValue, Hv. unfold bind.
    rewrite Z.geb_leb. replace (base <=? v) with false by lia.
    apply (IH _ _ Hrest).
Qed.

Lemma digits_of_ignoring_case base str str' ds :
  digits_of base str ds -> eq_ignoring_case str str' -> digits_of base str' ds.
Proof.
  unfold digits_of, eq_ignoring_case.
  generalize (chars str) (chars str'). intros l l' H. revert l'.
  induction H as [|c d l ds' [Hv Hlt] _ IH]; intros l' E; inversion E; subst.
  - constructor.
  - constructor; [|now apply IH].
    split; [|assumption].
    erewrite <- same_letter_digitValue; eassumption.
Qed.

Lemma alphanumeric_digitValue ch : alphanumeric ch <-> digitValue ch <> None.
Proof.
  unfold alphanumeric, digitValue.
  destruct ((48 <=? code ch) && (code ch <=? 57)) eqn:A;
    [split; [discriminate|intros _; lia]|].
  destruct ((97 <=? code ch) && (code ch <=? 122)) eqn:B;
    [split; [discriminate|intros _; lia]|].
  destruct ((65 <=? code ch) && (code ch <=? 90)) eqn:C;
    [split; [discriminate|intros _; lia]|].
  split; [lia|congruence].
Qed.

Lemma decode_loop_throws base str : forall acc,
  (exists e, decode_loop base str acc = Throw e) <->
  Exists (bad_digit base) (chars str).
Proof.
  induction str as [|ch rest IH]; intros acc; simpl.
  - split; [intros [e He]; discriminate|intros H; inversion H].
  - rewrite charToVal_digitValue.
    destruct (digitValue ch) as [v|] eqn:Hv; simpl.
    + rewrite Z.geb_leb. destruct (base <=? v) eqn:Hge.
      * split; [|intros _; eauto].
        intros _. left. right. exists v. split; [assumption|lia].
      * rewrite IH. split; [intros H; now right|].
        intros H. inversion H as [? ? Hb|]; subst; [|assumption].
        destruct Hb as [Hb|(w & Hw & Hwb)].
        -- exfalso. apply Hb, alphanumeric_digitValue. congruence.
        -- assert (w = v) by congruence. subst. lia.
    + split; [|intros _; eauto].
      intros _. left. left. intros Ha.
      now apply alphanumeric_digitValue in Ha.
Qed.

Lemma decode_loop_error_kind base str : forall acc e,
  decode_loop base str acc = Throw e -> invalid_digit_error e.
Proof.
  induction str as [|ch rest IH]; intros acc e; simpl.
  - discriminate.
  - rewrite charToVal_digitValue.
    destruct (digitValue ch) as [v|]; simpl.
    + destruct (v >=? base).
      * intros [= <-]. exact I.
      * apply IH.
    + intros [= <-]. exact I.
Qed.

(** C7. A string whose characters are all digits of [base], for a base in
    [2,36], decodes to the positional value of its digit values, taken left
    to right as [acc = acc*base + digit] over unbounded integers, with
    '0'..'9' worth 0-9 and letters of either case worth 10-35. Changing the
    case of letters does not change the result, and [decode "ff" 16] and
    [decode "FF" 16] are both 255. *)
Theorem decode_positional :
  (forall base str ds,
      2 <= base <= 36 ->
      digits_of base str ds ->
      decodeBaseToBigInt str base = Ok (positional base ds) /\
      forall str', eq_ignoring_case str str' ->
                   decodeBaseToBigInt str' base = decodeBaseToBigInt str base) /\
  decodeBaseToBigInt "ff" 16 = Ok 255 /\
  decodeBaseToBigInt "FF" 16 = Ok 255.
Proof.
  split; [|split; reflexivity].
  intros base str ds _ H. unfold decodeBaseToBigInt, positional.
  rewrite (decode_loop_valid _ _ _ 0 H). split; [reflexivity|].
  intros str' E. apply decode_loop_valid.
  eapply digits_of_ignoring_case; eassumption.
Qed.

Lemma decode_positional_witness :
  decodeBaseToBigInt "7f" 16 = Ok (positional 16 [7; 15]) /\
  decodeBaseToBigInt "7F" 16 = decodeBaseToBigInt "7f" 16.
Proof.
  assert (D : digits_of 16 "7f" [7; 15]).
  { repeat constructor. }
  assert (E : eq_ignoring_case "7f" "7F").
  { constructor; [now left|]. constructor; [|constructor].
    right. right. vm_compute. repeat split; congruence. }
  destruct (proj1 decode_positional 16 "7f"%string [7; 15]) as [H1 H2];
    [lia|exact D|].
  split; [exact H1|exact (H2 _ E)].
Defined.

(** On strings of code units below 256, decoding fails exactly when some
    character is not an alphanumeric digit or has a digit value [>= base],
    and the failure is then one of the two invalid-digit exceptions; ["g"]
    in base 16 is such a failure. [CodePointsFacts] has the other strings. *)
Theorem decode_fails_iff_bad_digit :
  (forall str base,
      (exists e, decodeBaseToBigInt str base = Throw e /\ invalid_digit_error e)
      <-> Exists (bad_digit base) (chars str)) /\
  decodeBaseToBigInt "g" 16 = Throw (DigitGeBase "g" 16).
Proof.
  split; [|reflexivity].
  intros str base. unfold decodeBaseToBigInt.
  rewrite <- (decode_loop_throws base str 0). split.
  - intros (e & He & _). eauto.
  - intros (e & He). exists e. split; [assumption|].
    eapply decode_loop_error_kind; eassumption.
Qed.

(** C10. For every base in [2,36] the empty string decodes to 0; no
    exception is raised. *)
Theorem decode_empty (base : Z) :
  2 <= base <= 36 -> decodeBaseToBigInt "" base = Ok 0.
Proof.
  intros _. reflexivity.
Qed.

Lemma decode_empty_witness : decodeBaseToBigInt "" 10 = Ok 0.
Proof.
  apply (decode_empty 10). lia.
Defined.

End DecoderFacts.

(** ** Exact fractions *)

Module FractionFacts.
Import Fraction.

Lemma absBig_abs n : absBig n = Z.abs n.
Proof.
  unfold absBig. destruct (Z.ltb_spec n 0); lia.
Qed.

(** The loop computes the greatest common divisor of non-negative inputs. *)
Lemma gcd_loop_gcd a b : 0 <= a -> 0 <= b -> gcd_loop a b = Z.gcd a b.
Proof.
  funelim (gcd_loop a b); intros Ha Hb.
  - subst. rewrite Z.gcd_0_r. lia.
  - match goal with IH : _ -> _ -> gcd_loop _ _ = Z.gcd _ _ |- _ =>
      rewrite IH end.
    + rewrite Z.rem_mod_nonneg by lia.
      rewrite Z.gcd_comm, Z.gcd_mod by assumption. apply Z.gcd_comm.
    + lia.
    + apply Z.rem_nonneg; lia.
Qed.

Lemma gcdBig_gcd a b : gcdBig a b = Z.gcd a b.
Proof.
  unfold gcdBig. rewrite !absBig_abs.
  rewrite gcd_loop_gcd by lia.
  now rewrite Z.gcd_abs_l, Z.gcd_abs_r.
Qed.

Lemma quot_exact a g : 0 < g -> (g | a) -> a = g * Z.quot a g.
Proof.
  intros Hg [q ->]. rewrite Z.quot_mul by lia. lia.
Qed.

(** What [normalizeFrac] returns: the same rational, in lowest terms. *)
Lemma normalizeFrac_spec n d :
  d <> 0 ->
  exists n' d',
    normalizeFrac n d = Ok (n', d') /\
    0 < d' /\ Z.gcd n' d' = 1 /\ n' * d = n * d'.
Proof.
  intros Hd. unfold normalizeFrac.
  destruct (Z.eqb_spec d 0) as [|_]; [contradiction|].
  destruct (Z.eqb_spec n 0) as [->|Hn].
  - exists 0, 1. repeat split; lia.
  - set (p := if d <? 0 then (- n, - d) else (n, d)).
    assert (Hp : 0 < snd p /\ fst p <> 0 /\ fst p * d = n * snd p).
    { unfold p. destruct (Z.ltb_spec d 0); simpl; lia. }
    destruct p as [n1 d1]. simpl in Hp. destruct Hp as (Hd1 & Hn1 & Hx).
    rewrite gcdBig_gcd, absBig_abs, Z.gcd_abs_l.
    set (g := Z.gcd n1 d1).
    assert (Hg : 0 < g).
    { pose proof (Z.gcd_nonneg n1 d1).
      assert (g <> 0) by (unfold g; intros E; apply Z.gcd_eq_0_l in E; lia).
      fold g in H. lia. }
    pose proof (quot_exact n1 g Hg (Z.gcd_divide_l n1 d1)) as En.
    pose proof (quot_exact d1 g Hg (Z.gcd_divide_r n1 d1)) as Ed.
    exists (Z.quot n1 g), (Z.quot d1 g). split; [reflexivity|].
    split; [nia|]. split.
    + assert (E : Z.gcd (g * Z.quot n1 g) (g * Z.quot d1 g) = g)
        by (rewrite <- En, <- Ed; reflexivity).
      rewrite Z.gcd_mul_mono_l_nonneg in E by lia.
      pose proof (Z.gcd_nonneg (Z.quot n1 g) (Z.quot d1 g)). nia.
    + apply (Z.mul_reg_l _ _ g); [lia|].
      rewrite !Z.mul_assoc, <- En.
      replace (g * n * Z.quot d1 g) with (n * (g * Z.quot d1 g)) by ring.
      rewrite <- Ed. exact Hx.
Qed.

(** A fraction already in lowest terms is returned unchanged. *)
Lemma normalizeFrac_fixed n d :
  0 < d -> Z.gcd n d = 1 -> normalizeFrac n d = Ok (n, d).
Proof.
  intros Hd Hg. unfold normalizeFrac.
  destruct (Z.eqb_spec d 0) as [|_]; [lia|].
  destruct (Z.eqb_spec n 0) as [->|Hn].
  - rewrite Z.gcd_0_l in Hg. do 2 f_equal. lia.
  - destruct (Z.ltb_spec d 0); [lia|].
    rewrite gcdBig_gcd, absBig_abs, Z.gcd_abs_l, Hg.
    now rewrite !Z.quot_1_r.
Qed.

Lemma normalizeFrac_lowest n d :
  d <> 0 ->
  exists f, normalizeFrac n d = Ok f /\ lowest_terms f /\
            (fst f = 0 -> f = (0, 1)) /\
            normalizeFrac (fst f) (snd f) = Ok f.
Proof.
  intros Hd. destruct (normalizeFrac_spec n d Hd) as (n' & d' & E & Hpos & Hg & _).
  exists (n', d'). split; [assumption|]. unfold lowest_terms. simpl.
  repeat split.
  - assumption.
  - now rewrite Z.gcd_abs_l.
  - intros ->. rewrite Z.gcd_0_l in Hg. f_equal. lia.
  - now apply normalizeFrac_fixed.
Qed.

(** C6. Whenever the denominator handed to [normalizeFrac] is non-zero
    (for [addFrac] and [mulFrac]: whenever both operands have a non-zero
    denominator) the operation returns a fraction with a strictly positive
    denominator and [gcd(|numerator|, denominator) = 1], which is [(0,1)]
    when its numerator is 0; and normalizing the result of [normalizeFrac]
    again returns it unchanged. *)
Theorem fractions_in_lowest_terms :
  (forall n d, d <> 0 ->
     exists f, normalizeFrac n d = Ok f /\ lowest_terms f /\
               (fst f = 0 -> f = (0, 1)) /\
               normalizeFrac (fst f) (snd f) = Ok f) /\
  (forall a b, snd a <> 0 -> snd b <> 0 ->
     exists f, addFrac a b = Ok f /\ lowest_terms f /\
               (fst f = 0 -> f = (0, 1))) /\
  (forall a b, snd a <> 0 -> snd b <> 0 ->
     exists f, mulFrac a b = Ok f /\ lowest_terms f /\
               (fst f = 0 -> f = (0, 1))).
Proof.
  split; [exact normalizeFrac_lowest|].
  split; intros [an ad] [bn bd] Ha Hb; simpl in Ha, Hb;
    unfold addFrac, mulFrac.
  - destruct (normalizeFrac_lowest (an * bd + bn * ad) (ad * bd))
      as (f & E & L & Z0 & _); [nia|]. eauto.
  - destruct (normalizeFrac_lowest (an * bn) (ad * bd))
      as (f & E & L & Z0 & _); [nia|]. eauto.
Qed.

Lemma fractions_in_lowest_terms_witness :
  (exists f, normalizeFrac 6 (-4) = Ok f /\ lowest_terms f /\
             (fst f = 0 -> f = (0, 1)) /\
             normalizeFrac (fst f) (snd f) = Ok f) /\
  (exists f, addFrac (1, 2) (1, -6) = Ok f /\ lowest_terms f /\
             (fst f = 0 -> f = (0, 1))) /\
  (exists f, mulFrac (2, 3) (3, 4) = Ok f /\ lowest_terms f /\
             (fst f = 0 -> f = (0, 1))).
Proof.
  destruct fractions_in_lowest_terms as (N & A & M).
  split; [apply N; lia|].
  split; [apply A; simpl; lia|apply M; simpl; lia].
Defined.

Example normalizeFrac_6_m4 : normalizeFrac 6 (-4) = Ok (-3, 2).
Proof. reflexivity. Qed.

End FractionFacts.

(** ** Interpolator *)

Module InterpolatorFacts.
Import Fraction Interpolator FractionFacts.

(** *** Integers inside the rationals *)

Lemma inj_add a b : inj (a + b) = (inj a + inj b)%Qc.
Proof.
  apply Qc_is_canon. unfold inj, Qcplus. cbn [this Q2Qc].
  rewrite !Qred_correct, inject_Z_plus. reflexivity.
Qed.

Lemma inj_mul a b : inj (a * b) = (inj a * inj b)%Qc.
Proof.
  apply Qc_is_canon. unfold inj, Qcmult. cbn [this Q2Qc].
  rewrite !Qred_correct, inject_Z_mult. reflexivity.
Qed.

Lemma inj_opp a : inj (- a) = (- inj a)%Qc.
Proof.
  apply Qc_is_canon. unfold inj, Qcopp. cbn [this Q2Qc].
  rewrite !Qred_correct, inject_Z_opp. reflexivity.
Qed.

Lemma inj_sub a b : inj (a - b) = (inj a - inj b)%Qc.
Proof.
  unfold Z.sub, Qcminus. now rewrite inj_add, inj_opp.
Qed.

Lemma inj_0 : inj 0 = 0%Qc.
Proof. reflexivity. Qed.

Lemma inj_1 : inj 1 = 1%Qc.
Proof. apply Qc_is_canon. reflexivity. Qed.

Lemma inj_inj a b : inj a = inj b -> a = b.
Proof.
  unfold inj. intros H.
  apply (f_equal this) in H. cbn [this Q2Qc] in H.
  assert (E : (inject_Z a == inject_Z b)%Q).
  { rewrite <- (Qred_correct (inject_Z a)), <- (Qred_correct (inject_Z b)).
    now rewrite H. }
  unfold Qeq in E. simpl in E. lia.
Qed.

Lemma inj_nonzero a : a <> 0 -> inj a <> 0%Qc.
Proof.
  intros H E. apply H. apply inj_inj. now rewrite inj_0.
Qed.

Lemma qv_cross n d n' d' :
  d <> 0 -> d' <> 0 -> n' * d = n * d' -> qv (n', d') = (inj n / inj d)%Qc.
Proof.
  intros Hd Hd' E. unfold qv. simpl.
  assert (E' : (inj n' * inj d = inj n * inj d')%Qc)
    by (rewrite <- !inj_mul; now f_equal).
  pose proof (inj_nonzero d Hd). pose proof (inj_nonzero d' Hd').
  field_simplify_eq; auto. rewrite E'. ring.
Qed.

Lemma qv_int z : qv (z, 1) = inj z.
Proof.
  unfold qv. cbn [fst snd]. rewrite inj_1. field. discriminate.
Qed.

Lemma normalizeFrac_qv n d :
  d <> 0 ->
  exists f, normalizeFrac n d = Ok f /\ 0 < snd f /\ qv f = (inj n / inj d)%Qc.
Proof.
  intros Hd. destruct (normalizeFrac_spec n d Hd) as (n' & d' & E & Hp & _ & Hx).
  exists (n', d'). repeat split; [assumption|assumption|].
  apply qv_cross; [assumption|lia|assumption].
Qed.

Lemma mulFrac_qv a b :
  snd a <> 0 -> snd b <> 0 ->
  exists f, mulFrac a b = Ok f /\ 0 < snd f /\ qv f = (qv a * qv b)%Qc.
Proof.
  destruct a as [an ad], b as [bn bd]. simpl. intros Ha Hb.
  destruct (normalizeFrac_qv (an * bn) (ad * bd)) as (f & E & Hp & Hv); [nia|].
  exists f. repeat split; [assumption|assumption|].
  rewrite Hv. unfold qv. simpl. rewrite !inj_mul.
  pose proof (inj_nonzero ad Ha). pose proof (inj_nonzero bd Hb).
  field; auto.
Qed.

Lemma addFrac_qv a b :
  snd a <> 0 -> snd b <> 0 ->
  exists f, addFrac a b = Ok f /\ 0 < snd f /\ qv f = (qv a + qv b)%Qc.
Proof.
  destruct a as [an ad], b as [bn bd]. simpl. intros Ha Hb.
  destruct (normalizeFrac_qv (an * bd + bn * ad) (ad * bd))
    as (f & E & Hp & Hv); [nia|].
  exists f. repeat split; [assumption|assumption|].
  rewrite Hv. unfold qv. simpl. rewrite inj_add, !inj_mul.
  pose proof (inj_nonzero ad Ha). pose proof (inj_nonzero bd Hb).
  field; auto.
Qed.

#[local] Arguments normalizeFrac : simpl never.
#[local] Arguments mulFrac : simpl never.
#[local] Arguments addFrac : simpl never.

Lemma at_index_some pts j :
  (j < length pts)%nat -> at_index (map Some pts) j = Ok (nth j pts pt0).
Proof.
  intros H. unfold at_index.
  rewrite nth_error_map, (nth_error_nth' pts pt0 H). reflexivity.
Qed.

Lemma distinct_x pts i j :
  NoDup (map x pts) -> (i < length pts)%nat -> (j < length pts)%nat ->
  i <> j -> x (nth i pts pt0) <> x (nth j pts pt0).
Proof.
  intros N Hi Hj Hne E. apply Hne.
  rewrite <- (length_map x) in Hi, Hj.
  apply (proj1 (NoDup_nth (map x pts) 0) N i j Hi Hj).
  change 0 with (x pt0). now rewrite !map_nth.
Qed.

Lemma basis_loop_value pts i js :
  NoDup (map x pts) -> (i < length pts)%nat ->
  (forall j, In j js -> (j < length pts)%nat) ->
  forall li, snd li <> 0 ->
  exists li',
    basis_loop (map Some pts) i (x (nth i pts pt0)) js li = Ok li' /\
    snd li' <> 0 /\ qv li' = (qv li * basisQ pts i 0 js)%Qc.
Proof.
  intros N Hi. induction js as [|j js IH]; intros Hjs li Hli; simpl.
  - exists li. repeat split; [assumption|ring].
  - destruct (Nat.eqb_spec i j) as [->|Hne].
    + apply IH; [|assumption]. intros; apply Hjs; now right.
    + assert (Hj : (j < length pts)%nat) by (apply Hjs; now left).
      rewrite (at_index_some pts j Hj). simpl.
      pose proof (distinct_x pts i j N Hi Hj Hne) as Hx.
      destruct (normalizeFrac_qv (- x (nth j pts pt0))
                  (x (nth i pts pt0) - x (nth j pts pt0)))
        as (f & Ef & Hf & Vf); [lia|].
      rewrite Ef. simpl.
      destruct (mulFrac_qv li f) as (li1 & E1 & H1 & V1); [assumption|lia|].
      rewrite E1. simpl.
      destruct (IH (fun j' H => Hjs j' (or_intror H)) li1) as (li' & E' & H' & V');
        [lia|].
      exists li'. repeat split; [assumption|assumption|].
      rewrite V', V1, Vf. unfold xq. rewrite inj_sub, inj_opp.
      unfold Qcdiv. ring.
Qed.

Lemma sum_loop_value pts ixs :
  NoDup (map x pts) ->
  (forall i, In i ixs -> (i < length pts)%nat) ->
  forall sum, snd sum <> 0 ->
  exists s',
    sum_loop (map Some pts) (length pts) ixs sum = Ok s' /\
    snd s' <> 0 /\ qv s' = (qv sum + lagrangeQ pts 0 ixs)%Qc.
Proof.
  intros N. induction ixs as [|i ixs IH]; intros Hix sum Hs; simpl.
  - exists sum. repeat split; [assumption|ring].
  - assert (Hi : (i < length pts)%nat) by (apply Hix; now left).
    rewrite (at_index_some pts i Hi). simpl.
    destruct (basis_loop_value pts i (seq 0 (length pts)) N Hi) with (li := (1, 1))
      as (li & El & Hl & Vl).
    { intros j Hj. apply in_seq in Hj. lia. }
    { simpl. lia. }
    rewrite El. simpl.
    destruct (mulFrac_qv (y (nth i pts pt0), 1) li) as (term & Et & Ht & Vt);
      [simpl; lia|assumption|].
    rewrite Et. simpl.
    destruct (addFrac_qv sum term) as (s1 & E1 & H1 & V1); [assumption|lia|].
    rewrite E1. simpl.
    destruct (IH (fun i' H => Hix i' (or_intror H)) s1) as (s' & E' & H' & V');
      [lia|].
    exists s'. repeat split; [assumption|assumption|].
    rewrite V', V1, Vt, Vl, !qv_int, inj_1. unfold yq.
    cbn [lagrangeQ fold_right]. ring.
Qed.

(** What [interpolateAtZero] does on points with distinct abscissas: it
    holds the interpolant's value at 0 as a fraction [num/den] and returns
    it when the division is exact. *)
Lemma interpolate_value pts :
  NoDup (map x pts) ->
  exists num den,
    0 < den /\ (inj num / inj den)%Qc = interpolant pts 0 /\
    interpolateAtZero (map Some pts) =
    if Z.rem num den =? 0 then Ok (Z.quot num den)
    else Throw (NonInteger num den).
Proof.
  intros N. unfold interpolateAtZero. rewrite length_map.
  destruct (sum_loop_value pts (seq 0 (length pts)) N) with (sum := (0, 1))
    as (s & Es & Hs & Vs).
  { intros i Hi. apply in_seq in Hi. lia. }
  { simpl. lia. }
  rewrite Es. simpl.
  destruct (normalizeFrac_qv (fst s) (snd s) Hs) as ([num den] & En & Hd & Vn).
  rewrite En. simpl. exists num, den. simpl in Hd.
  split; [assumption|]. split.
  - change ((inj num / inj den)%Qc) with (qv (num, den)).
    rewrite Vn. change (qv s = interpolant pts 0). rewrite Vs, qv_int, inj_0.
    unfold interpolant. ring.
  - destruct (Z.rem num den =? 0); reflexivity.
Qed.

Lemma interpolate_iff pts v :
  NoDup (map x pts) ->
  interpolateAtZero (map Some pts) = Ok v <-> interpolant pts 0 = inj v.
Proof.
  intros N. destruct (interpolate_value pts N) as (num & den & Hd & V & E).
  rewrite E, <- V. pose proof (inj_nonzero den ltac:(lia)) as Hq.
  split.
  - destruct (Z.eqb_spec (Z.rem num den) 0) as [R|R]; [|discriminate].
    intros [= <-].
    assert (En : num = den * Z.quot num den).
    { pose proof (Z.quot_rem' num den). lia. }
    rewrite En at 1. rewrite inj_mul. field. assumption.
  - intros H.
    assert (En : num = v * den).
    { apply inj_inj. rewrite inj_mul, <- H. field. assumption. }
    subst num. rewrite Z.rem_mul by lia. simpl.
    rewrite Z.quot_mul by lia. reflexivity.
Qed.

(** *** Polynomials over the rationals *)

Lemma qeval_padd p : forall q t, qeval (padd p q) t = (qeval p t + qeval q t)%Qc.
Proof.
  induction p as [|a p IH]; intros [|b q] t; cbn [padd qeval fold_right];
    try ring.
  change (fold_right (fun c acc => (c + t * acc)%Qc) 0%Qc ?l) with (qeval l t).
  fold (padd p q). rewrite IH. ring.
Qed.

Lemma length_padd p : forall q, length (padd p q) = Nat.max (length p) (length q).
Proof.
  induction p as [|a p IH]; intros [|b q]; cbn [padd length]; try lia.
  fold (padd p q). rewrite IH. lia.
Qed.

Lemma qeval_pscale c p t : qeval (pscale c p) t = (c * qeval p t)%Qc.
Proof.
  induction p as [|a p IH]; cbn [pscale map qeval fold_right]; [ring|].
  change (fold_right (fun c acc => (c + t * acc)%Qc) 0%Qc ?l) with (qeval l t).
  fold (pscale c p). rewrite IH. ring.
Qed.

Lemma length_pscale c p : length (pscale c p) = length p.
Proof. apply length_map. Qed.

Lemma qeval_cons a p t : qeval (a :: p) t = (a + t * qeval p t)%Qc.
Proof. reflexivity. Qed.

Lemma length_pdiv r p : length (pdiv r p) = Nat.pred (length p).
Proof.
  induction p as [|a p IH]; [reflexivity|].
  cbn [pdiv]. rewrite length_padd, length_pscale, IH. simpl. lia.
Qed.

(** Remainder theorem: [p(t) = p(r) + (t - r) * (p / (X - r))(t)]. *)
Lemma pdiv_spec r p t :
  qeval p t = (qeval p r + (t - r) * qeval (pdiv r p) t)%Qc.
Proof.
  induction p as [|a p IH]; [cbn; ring|].
  cbn [pdiv]. rewrite !qeval_cons, qeval_padd, qeval_pscale.
  rewrite IH. ring.
Qed.

(** A polynomial with as many distinct roots as coefficients is zero. *)
Lemma qeval_roots rs :
  NoDup rs ->
  forall p, (length p <= length rs)%nat ->
  (forall r, In r rs -> qeval p r = 0%Qc) ->
  forall t, qeval p t = 0%Qc.
Proof.
  induction 1 as [|r rs Hr N IH]; intros p Hlen Hroot t.
  - destruct p; [reflexivity|simpl in Hlen; lia].
  - rewrite (pdiv_spec r p t), (Hroot r (or_introl eq_refl)).
    rewrite IH; [ring| |].
    + rewrite length_pdiv. simpl in Hlen. lia.
    + intros r' Hr'.
      pose proof (Hroot r' (or_intror Hr')) as E.
      rewrite (pdiv_spec r p r'), (Hroot r (or_introl eq_refl)) in E.
      assert (Hd : (r' - r)%Qc <> 0%Qc).
      { intros Z0. apply Hr. replace r with r'; [assumption|].
        transitivity ((r' - r) + r)%Qc; [ring|rewrite Z0; ring]. }
      rewrite Qcplus_0_l in E.
      destruct (Qcmult_integral _ _ E); [contradiction|assumption].
Qed.

Lemma polyfun_roots n f rs :
  polyfun n f -> NoDup rs -> (n <= length rs)%nat ->
  (forall r, In r rs -> f r = 0%Qc) -> forall t, f t = 0%Qc.
Proof.
  intros (p & Hp & E) N Hn Hroot t. rewrite E.
  apply (qeval_roots rs N); [lia|].
  intros r Hr. rewrite <- E. now apply Hroot.
Qed.

Lemma polyfun_ext n f g : (forall t, f t = g t) -> polyfun n f -> polyfun n g.
Proof.
  intros H (p & Hp & E). exists p. split; [assumption|].
  intros t. now rewrite <- H.
Qed.

Lemma polyfun_mono n m f : (n <= m)%nat -> polyfun n f -> polyfun m f.
Proof.
  intros H (p & Hp & E). exists p. split; [lia|assumption].
Qed.

Lemma polyfun_zero n : polyfun n (fun _ => 0%Qc).
Proof.
  exists []. split; [simpl; lia|reflexivity].
Qed.

Lemma polyfun_const c : polyfun 1 (fun _ => c).
Proof.
  exists [c]. split; [simpl; lia|]. intros t. cbn. ring.
Qed.

Lemma polyfun_add n f g :
  polyfun n f -> polyfun n g -> polyfun n (fun t => (f t + g t)%Qc).
Proof.
  intros (p & Hp & Ep) (q & Hq & Eq). exists (padd p q). split.
  - rewrite length_padd. lia.
  - intros t. now rewrite qeval_padd, Ep, Eq.
Qed.

Lemma polyfun_scale n c f : polyfun n f -> polyfun n (fun t => (c * f t)%Qc).
Proof.
  intros (p & Hp & Ep). exists (pscale c p). split.
  - now rewrite length_pscale.
  - intros t. now rewrite qeval_pscale, Ep.
Qed.

Lemma polyfun_linear n a c f :
  polyfun n f -> polyfun (S n) (fun t => ((t - a) * c * f t)%Qc).
Proof.
  intros (p & Hp & Ep).
  exists (pscale c (padd (0%Qc :: p) (pscale (- a)%Qc p))). split.
  - rewrite length_pscale, length_padd, length_pscale. cbn [length]. lia.
  - intros t. rewrite qeval_pscale, qeval_padd, qeval_pscale, qeval_cons, Ep.
    ring.
Qed.

(** *** The Lagrange interpolant *)

Lemma count_others i k : forall a,
  length (filter (fun j => negb (Nat.eqb i j)) (seq a k)) =
  (if le_lt_dec a i then if le_lt_dec (a + k) i then k else k - 1 else k)%nat.
Proof.
  induction k as [|k IH]; intros a.
  - simpl. destruct (le_lt_dec a i); [destruct (le_lt_dec (a + 0) i)|]; reflexivity.
  - cbn [seq filter]. specialize (IH (S a)).
    destruct (Nat.eqb_spec i a) as [->|Hne]; cbn [negb length]; rewrite IH;
      repeat destruct (le_lt_dec _ _); lia.
Qed.

Lemma basisQ_cons pts i t j js :
  basisQ pts i t (j :: js) =
  if Nat.eqb i j then basisQ pts i t js
  else ((t - xq pts j) / (xq pts i - xq pts j) * basisQ pts i t js)%Qc.
Proof. reflexivity. Qed.

Lemma lagrangeQ_cons pts t i ixs :
  lagrangeQ pts t (i :: ixs) =
  (yq pts i * basisQ pts i t (seq 0 (length pts)) + lagrangeQ pts t ixs)%Qc.
Proof. reflexivity. Qed.

Lemma polyfun_basis pts i js :
  polyfun (S (length (filter (fun j => negb (Nat.eqb i j)) js)))
          (fun t => basisQ pts i t js).
Proof.
  induction js as [|j js IH].
  - exact (polyfun_const 1%Qc).
  - cbn [filter]. apply polyfun_ext with
      (f := fun t => if Nat.eqb i j then basisQ pts i t js
                     else ((t - xq pts j) / (xq pts i - xq pts j)
                           * basisQ pts i t js)%Qc);
      [intros t; now rewrite basisQ_cons|].
    destruct (Nat.eqb i j); cbn [negb length].
    + exact IH.
    + apply (polyfun_ext _
               (fun t => ((t - xq pts j) * / (xq pts i - xq pts j)
                          * basisQ pts i t js)%Qc)).
      * intros t. unfold Qcdiv. ring.
      * apply polyfun_linear. exact IH.
Qed.

Lemma polyfun_lagrange pts ixs :
  (forall i, In i ixs -> (i < length pts)%nat) ->
  polyfun (length pts) (fun t => lagrangeQ pts t ixs).
Proof.
  induction ixs as [|i ixs IH]; intros Hix.
  - apply polyfun_zero.
  - apply polyfun_ext with
      (f := fun t => (yq pts i * basisQ pts i t (seq 0 (length pts))
                      + lagrangeQ pts t ixs)%Qc);
      [intros t; now rewrite lagrangeQ_cons|].
    apply polyfun_add.
    + apply polyfun_scale.
      pose proof (polyfun_basis pts i (seq 0 (length pts))) as B.
      rewrite count_others in B.
      assert (Hi : (i < length pts)%nat) by (apply Hix; now left).
      eapply polyfun_mono; [|exact B].
      repeat destruct (le_lt_dec _ _); lia.
    + apply IH. intros; apply Hix; now right.
Qed.

Lemma xq_distinct pts i j :
  NoDup (map x pts) -> (i < length pts)%nat -> (j < length pts)%nat ->
  i <> j -> (xq pts i - xq pts j)%Qc <> 0%Qc.
Proof.
  intros N Hi Hj Hne. unfold xq. rewrite <- inj_sub.
  apply inj_nonzero. pose proof (distinct_x pts i j N Hi Hj Hne). lia.
Qed.

(** At its own node a basis polynomial is 1 ... *)
Lemma basis_at_own_node pts i js :
  NoDup (map x pts) -> (i < length pts)%nat ->
  (forall j, In j js -> (j < length pts)%nat) ->
  basisQ pts i (xq pts i) js = 1%Qc.
Proof.
  intros N Hi. induction js as [|j js IH]; intros Hjs.
  - reflexivity.
  - rewrite basisQ_cons.
    rewrite IH by (intros; apply Hjs; now right).
    destruct (Nat.eqb_spec i j) as [|Hne]; [reflexivity|].
    field. apply xq_distinct; auto. apply Hjs. now left.
Qed.

(** ... and at any other node that occurs in the product it is 0. *)
Lemma basis_at_other_node pts i m js :
  i <> m -> In m js -> basisQ pts i (xq pts m) js = 0%Qc.
Proof.
  intros Hne. induction js as [|j js IH]; intros Hin.
  - destruct Hin.
  - rewrite basisQ_cons.
    destruct (Nat.eqb_spec i j) as [->|Hij].
    + destruct Hin as [->|Hin]; [contradiction|now apply IH].
    + destruct Hin as [->|Hin].
      * unfold Qcdiv. ring.
      * rewrite IH by assumption. ring.
Qed.

Lemma lagrange_at_node pts m ixs :
  NoDup (map x pts) -> (m < length pts)%nat ->
  (forall i, In i ixs -> (i < length pts)%nat) ->
  NoDup ixs ->
  lagrangeQ pts (xq pts m) ixs = if in_dec Nat.eq_dec m ixs then yq pts m else 0%Qc.
Proof.
  intros N Hm. induction ixs as [|i ixs IH]; intros Hix Nix.
  - reflexivity.
  - rewrite lagrangeQ_cons.
    inversion Nix as [|? ? Hni Nix']; subst.
    rewrite IH by (auto; intros; apply Hix; now right).
    destruct (Nat.eq_dec i m) as [->|Hne].
    + rewrite basis_at_own_node; auto.
      2:{ intros j Hj. apply in_seq in Hj. lia. }
      destruct (in_dec Nat.eq_dec m (m :: ixs)) as [_|C];
        [|exfalso; apply C; now left].
      destruct (in_dec Nat.eq_dec m ixs); [contradiction|ring].
    + rewrite basis_at_other_node; auto.
      2:{ apply in_seq. lia. }
      destruct (in_dec Nat.eq_dec m (i :: ixs)) as [[E|H]|C];
        destruct (in_dec Nat.eq_dec m ixs) as [H'|H'];
        try contradiction; try ring.
      exfalso. apply C. now right.
Qed.

(** The interpolant passes through every point. *)
Lemma interpolant_at_node pts m :
  NoDup (map x pts) -> (m < length pts)%nat ->
  interpolant pts (xq pts m) = yq pts m.
Proof.
  intros N Hm. unfold interpolant.
  rewrite lagrange_at_node; auto.
  - destruct (in_dec Nat.eq_dec m (seq 0 (length pts))) as [|C]; [reflexivity|].
    exfalso. apply C. apply in_seq. lia.
  - intros i Hi. apply in_seq in Hi. lia.
  - apply seq_NoDup.
Qed.

Lemma polyfun_interpolant pts : polyfun (length pts) (interpolant pts).
Proof.
  apply polyfun_lagrange. intros i Hi. apply in_seq in Hi. lia.
Qed.

Lemma polyfun_agree n f g rs :
  polyfun n f -> polyfun n g -> NoDup rs -> (n <= length rs)%nat ->
  (forall r, In r rs -> f r = g r) -> forall t, f t = g t.
Proof.
  intros Pf Pg N Hn H t.
  assert (D : polyfun n (fun t => (f t + (- (1)) * g t)%Qc)).
  { apply polyfun_add; [assumption|]. now apply polyfun_scale. }
  pose proof (polyfun_roots n _ rs D N Hn) as Z0. cbn beta in Z0.
  transitivity ((f t + - (1) * g t) + g t)%Qc; [ring|].
  rewrite Z0; [ring|]. intros r Hr. rewrite (H r Hr). ring.
Qed.

Lemma nodes_NoDup pts : NoDup (map x pts) -> NoDup (map inj (map x pts)).
Proof.
  induction 1 as [|a l Ha N IH]; cbn [map]; constructor; [|assumption].
  intros H. apply in_map_iff in H as (b & E & Hb).
  apply inj_inj in E. now subst.
Qed.

Lemma in_nodes pts r :
  In r (map inj (map x pts)) ->
  exists m, (m < length pts)%nat /\ r = xq pts m.
Proof.
  rewrite map_map. intros H. apply in_map_iff in H as (p & <- & Hp).
  destruct (In_nth pts p pt0 Hp) as (m & Hm & E).
  exists m. split; [assumption|]. unfold xq. now rewrite E.
Qed.

(** Uniqueness: a polynomial with at most as many coefficients as there are
    points, through all the points, is the interpolant. *)
Lemma interpolant_unique pts f :
  NoDup (map x pts) -> polyfun (length pts) f ->
  (forall m, (m < length pts)%nat -> f (xq pts m) = yq pts m) ->
  forall t, f t = interpolant pts t.
Proof.
  intros N Pf H.
  apply (polyfun_agree (length pts) f (interpolant pts) (map inj (map x pts)));
    auto using polyfun_interpolant, nodes_NoDup.
  - now rewrite !length_map.
  - intros r Hr. apply in_nodes in Hr as (m & Hm & ->).
    rewrite interpolant_at_node by assumption. now apply H.
Qed.

Lemma qeval_inj coeffs z : qeval (map inj coeffs) (inj z) = inj (peval coeffs z).
Proof.
  induction coeffs as [|c cs IH]; [reflexivity|].
  cbn [map peval fold_right]. rewrite qeval_cons, IH.
  change (fold_right (fun c acc => c + z * acc) 0 cs) with (peval cs z).
  now rewrite inj_add, inj_mul.
Qed.

Lemma polyfun_int coeffs n :
  (length coeffs <= n)%nat -> polyfun n (qeval (map inj coeffs)).
Proof.
  intros H. exists (map inj coeffs). split; [now rewrite length_map|reflexivity].
Qed.

(** Points on an integer polynomial with no more coefficients than there
    are points: the interpolant is that polynomial. *)
Lemma interpolant_of_poly coeffs pts :
  NoDup (map x pts) -> (length coeffs <= length pts)%nat ->
  Forall (on_poly coeffs) pts ->
  forall t, interpolant pts t = qeval (map inj coeffs) t.
Proof.
  intros N Hlen Hon t. symmetry.
  apply interpolant_unique; auto using polyfun_int.
  intros m Hm. unfold xq, yq. rewrite qeval_inj. f_equal. symmetry.
  rewrite Forall_forall in Hon. apply Hon. now apply nth_In.
Qed.

(** C1. Take [k >= 1] points with pairwise distinct abscissas, all on one
    integer polynomial with at most [k] coefficients (degree at most [k-1]).
    Handed to [interpolateAtZero] in any order, they make it return, without
    an exception, the polynomial's value at 0: its constant term. *)
Theorem interpolate_exact coeffs pts :
  (1 <= length pts)%nat ->
  (length coeffs <= length pts)%nat ->
  NoDup (map x pts) ->
  Forall (on_poly coeffs) pts ->
  forall pts', Permutation pts pts' ->
    interpolateAtZero (map Some pts') = Ok (peval coeffs 0).
Proof.
  intros _ Hlen N Hon pts' P.
  assert (N' : NoDup (map x pts')).
  { eapply Permutation_NoDup; [|exact N]. now apply Permutation_map. }
  apply interpolate_iff; [assumption|].
  rewrite (interpolant_of_poly coeffs pts' N').
  - rewrite <- inj_0 at 1. apply qeval_inj.
  - now rewrite <- (Permutation_length P).
  - eapply Permutation_Forall; eassumption.
Qed.

Lemma interpolate_exact_witness :
  interpolateAtZero
    (map Some [mkPoint 3 12 "c"; mkPoint 1 4 "a"; mkPoint 2 7 "b"]) = Ok 3.
Proof.
  apply (interpolate_exact [3; 0; 1]
           [mkPoint 1 4 "a"; mkPoint 2 7 "b"; mkPoint 3 12 "c"]).
  - simpl. lia.
  - simpl. lia.
  - simpl. repeat constructor; simpl; intuition lia.
  - repeat constructor.
  - apply Permutation_sym, (Permutation_cons_app [_; _] []).
    apply Permutation_refl.
Defined.

End InterpolatorFacts.

(** ** Subset enumerator *)

Module EnumeratorFacts.
Import Enumerator.
Local Open Scope nat_scope.

(** *** The array operations *)

Lemma assign_middle pre a suf v :
  assign (pre ++ a :: suf) (length pre) v = pre ++ v :: suf.
Proof.
  induction pre as [|b pre IH]; simpl; [reflexivity|]. now rewrite IH.
Qed.

Lemma split_at (idx : list nat) i :
  i < length idx ->
  idx = firstn i idx ++ nth i idx 0 :: skipn (S i) idx /\
  length (firstn i idx) = i.
Proof.
  revert i. induction idx as [|a idx IH]; intros i H; simpl in H; [lia|].
  destruct i as [|i]; [now split|].
  destruct (IH i ltac:(lia)) as [E L].
  split; [change (a :: idx = a :: (firstn i idx ++ nth i idx 0 :: skipn (S i) idx));
          f_equal; exact E|].
  change (S (length (firstn i idx)) = S i). f_equal. exact L.
Qed.

(** After [idx[i]] is set, the [for] loop rewrites everything to its right
    with consecutive values. *)
Lemma refill_consecutive suf : forall pre a,
  refill (pre ++ a :: suf) (seq (S (length pre)) (length suf)) =
  pre ++ seq a (S (length suf)).
Proof.
  induction suf as [|b suf IH]; intros pre a; [reflexivity|].
  cbn [length seq refill].
  replace (S (length pre) - 1) with (length pre) by lia.
  rewrite nth_middle.
  replace (pre ++ a :: b :: suf) with ((pre ++ [a]) ++ b :: suf)
    by now rewrite <- app_assoc.
  replace (S (length pre)) with (length (pre ++ [a]))
    by (rewrite length_app; simpl; lia).
  rewrite assign_middle, IH, <- app_assoc. cbn [app seq].
  now rewrite Nat.add_1_r.
Qed.

(** Where the backwards scan stops. *)
Lemma scan_none idx last k c :
  scan idx last k c = None <->
  forall j, j < c ->
    Z.of_nat (nth j idx 0) = (last - (Z.of_nat k - 1 - Z.of_nat j))%Z.
Proof.
  induction c as [|c IH]; simpl.
  - split; [intros _ j Hj; lia|reflexivity].
  - destruct (Z.eqb_spec (Z.of_nat (nth c idx 0))
                (last - (Z.of_nat k - 1 - Z.of_nat c))%Z) as [E|E].
    + rewrite IH. split; intros H j Hj.
      * destruct (Nat.eq_dec j c) as [->|]; [assumption|apply H; lia].
      * apply H. lia.
    + split; [discriminate|]. intros H. exfalso. apply E, H. lia.
Qed.

Lemma scan_some idx last k c i :
  scan idx last k c = Some i ->
  i < c /\
  Z.of_nat (nth i idx 0) <> (last - (Z.of_nat k - 1 - Z.of_nat i))%Z /\
  forall j, i < j < c ->
    Z.of_nat (nth j idx 0) = (last - (Z.of_nat k - 1 - Z.of_nat j))%Z.
Proof.
  induction c as [|c IH]; simpl; [discriminate|].
  destruct (Z.eqb_spec (Z.of_nat (nth c idx 0))
              (last - (Z.of_nat k - 1 - Z.of_nat c))%Z) as [E|E].
  - intros H. destruct (IH H) as (Hi & Hne & Hall).
    repeat split; [lia|assumption|].
    intros j Hj. destruct (Nat.eq_dec j c) as [->|]; [assumption|].
    apply Hall. lia.
  - intros [= <-]. repeat split; [lia|assumption|]. intros j Hj. lia.
Qed.

(** *** The successor function *)

Lemma successor_none hi l :
  successor hi l = None <->
  forall j, j < length l ->
    Z.of_nat (nth j l 0) = (hi - (Z.of_nat (length l) - 1 - Z.of_nat j))%Z.
Proof.
  induction l as [|a r IH]; cbn [successor length].
  - split; [intros _ j Hj; lia|reflexivity].
  - destruct (successor hi r) as [r'|] eqn:Sr.
    + split; [discriminate|]. intros H.
      exfalso. cut (Some r' = None); [discriminate|].
      apply IH. intros j Hj. specialize (H (S j) ltac:(lia)).
      cbn [nth] in H. lia.
    + destruct (Z.eqb_spec (Z.of_nat a) (hi - Z.of_nat (length r))%Z) as [E|E].
      * split; [|reflexivity]. intros _ [|j] Hj; cbn [nth]; [lia|].
        rewrite (proj1 IH eq_refl j ltac:(lia)). lia.
      * split; [discriminate|]. intros H. exfalso. apply E.
        specialize (H 0 ltac:(lia)). cbn [nth] in H. lia.
Qed.

Lemma successor_pivot hi pre a suf :
  successor hi suf = None ->
  Z.of_nat a <> (hi - Z.of_nat (length suf))%Z ->
  successor hi (pre ++ a :: suf) = Some (pre ++ seq (S a) (S (length suf))).
Proof.
  intros Hs Ha. induction pre as [|b pre IH]; cbn [app successor].
  - rewrite Hs. destruct (Z.eqb_spec (Z.of_nat a) (hi - Z.of_nat (length suf))%Z);
      [contradiction|reflexivity].
  - now rewrite IH.
Qed.

(** The loop body computes the successor. *)
Lemma advance_successor n k idx :
  length idx = k -> advance n k idx = successor (Z.of_nat n - 1) idx.
Proof.
  intros L. unfold advance.
  destruct (scan idx (Z.of_nat n - 1) k k) as [i|] eqn:Sc.
  - apply scan_some in Sc as (Hi & Hne & Hall).
    destruct (split_at idx i ltac:(lia)) as [E Lp].
    set (pre := firstn i idx) in *. set (a := nth i idx 0) in *.
    set (suf := skipn (S i) idx) in *.
    assert (Ls : length suf = k - S i).
    { unfold suf. rewrite length_skipn. lia. }
    symmetry. rewrite E at 1.
    rewrite successor_pivot.
    + f_equal. rewrite E, <- Lp, assign_middle.
      replace (k - S (length pre)) with (length suf) by lia.
      rewrite refill_consecutive. f_equal.
      now rewrite Nat.add_1_r.
    + apply successor_none. intros j Hj.
      specialize (Hall (S i + j) ltac:(lia)).
      replace (nth (S i + j) idx 0) with (nth j suf 0) in Hall; [lia|].
      rewrite E at 1. rewrite app_nth2 by lia. rewrite Lp.
      replace (S i + j - i) with (S j) by lia. reflexivity.
    + lia.
  - symmetry. apply successor_none. rewrite L.
    intros j Hj. now apply (proj1 (scan_none idx _ k k) Sc).
Qed.

(** *** The enumeration the spec describes *)

Lemma subseqs_succ lo n k :
  subseqs lo (S n) (S k) =
  map (cons lo) (subseqs (S lo) n k) ++ subseqs (S lo) n (S k).
Proof. reflexivity. Qed.

Lemma subseqs_length n : forall lo k c, In c (subseqs lo n k) -> length c = k.
Proof.
  induction n as [|n IH]; intros lo [|k] c H.
  - destruct H as [<-|[]]. reflexivity.
  - destruct H.
  - destruct H as [<-|[]]. reflexivity.
  - rewrite subseqs_succ in H. apply in_app_or in H as [H|H].
    + apply in_map_iff in H as (c' & <- & H). simpl. f_equal. eauto.
    + eauto.
Qed.

Lemma subseqs_nil n : forall lo k, n < k -> subseqs lo n k = [].
Proof.
  induction n as [|n IH]; intros lo [|k] H; try lia; [reflexivity|].
  rewrite subseqs_succ, !IH by lia. reflexivity.
Qed.

Lemma subseqs_head n : forall lo k,
  k <= n -> exists rest, subseqs lo n k = seq lo k :: rest.
Proof.
  induction n as [|n IH]; intros lo [|k] H; try lia.
  - now exists [].
  - now exists [].
  - rewrite subseqs_succ. destruct (IH (S lo) k ltac:(lia)) as (rest & ->).
    eexists. reflexivity.
Qed.

Lemma subseqs_count n : forall lo k, length (subseqs lo n k) = choose n k.
Proof.
  induction n as [|n IH]; intros lo [|k]; try reflexivity.
  rewrite subseqs_succ, length_app, length_map, !IH. reflexivity.
Qed.

Lemma choose_small n : forall k, n < k -> choose n k = 0.
Proof.
  induction n as [|n IH]; intros [|k] H; try lia; [reflexivity|].
  cbn [choose]. rewrite !IH by lia. reflexivity.
Qed.

Lemma choose_pos n : forall k, k <= n -> 1 <= choose n k.
Proof.
  induction n as [|n IH]; intros [|k] H; cbn [choose]; try lia.
  specialize (IH k ltac:(lia)). lia.
Qed.

(** [choose] is the usual quotient of factorials. *)
Lemma choose_fact n : forall k,
  k <= n -> choose n k * (fact k * fact (n - k)) = fact n.
Proof.
  induction n as [|n IH]; intros [|k] H; try lia.
  - reflexivity.
  - cbn [choose]. rewrite Nat.sub_0_r. simpl fact at 1. lia.
  - cbn [choose]. destruct (Nat.eq_dec k n) as [->|Hne].
    + rewrite (choose_small n (S n)) by lia.
      specialize (IH n ltac:(lia)).
      replace (S n - S n) with 0 by lia. rewrite Nat.sub_diag in IH.
      change (fact (S n)) with (S n * fact n).
      change (fact 0) with 1 in *. nia.
    + pose proof (IH k ltac:(lia)) as H1.
      pose proof (IH (S k) ltac:(lia)) as H2.
      replace (S n - S k) with (S (n - S k)) by lia.
      replace (n - k) with (S (n - S k)) in H1 by lia.
      assert (E : S n = S k + S (n - S k)) by lia.
      assert (Fn : fact (S n) = S n * fact n) by reflexivity.
      assert (Fk : fact (S k) = S k * fact k) by reflexivity.
      assert (Fa : fact (S (n - S k)) = S (n - S k) * fact (n - S k))
        by reflexivity.
      rewrite Fn, Fk, Fa. rewrite Fk in H2. rewrite Fa in H1. clear IH Fn Fk Fa.
      remember (fact n) as fn. remember (fact k) as fk.
      remember (fact (n - S k)) as fa. remember (n - S k) as a.
      rewrite E.
      transitivity (S k * (choose n k * (fk * (S a * fa)))
                    + S a * (choose n (S k) * (S k * fk * fa))); [lia|].
      rewrite H1, H2. lia.
Qed.

Lemma subseqs_sound n : forall lo k c,
  In c (subseqs lo n k) ->
  increasing c /\ forall i, In i c -> lo <= i < lo + n.
Proof.
  unfold increasing.
  induction n as [|n IH]; intros lo [|k] c H.
  - destruct H as [<-|[]]. split; [constructor|intros i []].
  - destruct H.
  - destruct H as [<-|[]]. split; [constructor|intros i []].
  - rewrite subseqs_succ in H. apply in_app_or in H as [H|H].
    + apply in_map_iff in H as (c' & <- & H).
      destruct (IH _ _ _ H) as [Hs Hr]. split.
      * constructor; [assumption|]. apply Forall_forall.
        intros i Hi. specialize (Hr i Hi). lia.
      * intros i [<-|Hi]; [lia|]. specialize (Hr i Hi). lia.
    + destruct (IH _ _ _ H) as [Hs Hr]. split; [assumption|].
      intros i Hi. specialize (Hr i Hi). lia.
Qed.

Lemma subseqs_complete n : forall lo k c,
  length c = k -> increasing c ->
  (forall i, In i c -> lo <= i < lo + n) ->
  In c (subseqs lo n k).
Proof.
  unfold increasing.
  induction n as [|n IH]; intros lo [|k] [|a r] L Hs Hr; try discriminate.
  - now left.
  - specialize (Hr a (or_introl eq_refl)). lia.
  - now left.
  - rewrite subseqs_succ. apply in_or_app.
    inversion Hs as [|? ? Hs' Hall]; subst.
    rewrite Forall_forall in Hall.
    destruct (Nat.eq_dec a lo) as [->|Hne].
    + left. apply in_map. apply IH; [simpl in L; lia|assumption|].
      intros i Hi. specialize (Hall i Hi). specialize (Hr i (or_intror Hi)). lia.
    + right. apply IH; [assumption|assumption|].
      pose proof (Hr a (or_introl eq_refl)).
      intros i [<-|Hi]; [lia|].
      specialize (Hall i Hi). specialize (Hr i (or_intror Hi)). lia.
Qed.

Lemma sorted_app {A} (R : A -> A -> Prop) l1 l2 :
  StronglySorted R l1 -> StronglySorted R l2 ->
  (forall a b, In a l1 -> In b l2 -> R a b) ->
  StronglySorted R (l1 ++ l2).
Proof.
  intros H1 H2 H. induction H1 as [|a l1 S1 IH F]; [assumption|].
  cbn [app]. constructor.
  - apply IH. intros; apply H; [now right|assumption].
  - apply Forall_app. split; [assumption|].
    apply Forall_forall. intros b Hb. apply H; [now left|assumption].
Qed.

Lemma sorted_map_cons a ls :
  StronglySorted lex_lt ls -> StronglySorted lex_lt (map (cons a) ls).
Proof.
  induction 1 as [|c ls S1 IH F]; cbn [map]; constructor; [assumption|].
  apply Forall_forall. intros c' Hc'.
  apply in_map_iff in Hc' as (d & <- & Hd).
  rewrite Forall_forall in F. apply lex_lt_tail. now apply F.
Qed.

(** The enumeration is in lexicographic order. *)
Lemma subseqs_sorted n : forall lo k, StronglySorted lex_lt (subseqs lo n k).
Proof.
  induction n as [|n IH]; intros lo [|k]; try (repeat constructor).
  rewrite subseqs_succ. apply sorted_app; [apply sorted_map_cons, IH|apply IH|].
  intros a b Ha Hb. apply in_map_iff in Ha as (a' & <- & _).
  pose proof (subseqs_length _ _ _ _ Hb) as Lb.
  destruct b as [|b0 b]; [discriminate|].
  apply subseqs_sound in Hb as [_ Hr].
  apply lex_lt_head. specialize (Hr b0 (or_introl eq_refl)). lia.
Qed.

Lemma lex_lt_irrefl l : ~ lex_lt l l.
Proof.
  induction l as [|a l IH]; intros H; inversion H; subst; [lia|contradiction].
Qed.

Lemma sorted_NoDup {A} (R : A -> A -> Prop) l :
  (forall a, ~ R a a) -> StronglySorted R l -> NoDup l.
Proof.
  intros Irr. induction 1 as [|a l S1 IH F]; constructor; [|assumption].
  intros Hin. rewrite Forall_forall in F. exact (Irr a (F a Hin)).
Qed.

Lemma subseqs_NoDup lo n k : NoDup (subseqs lo n k).
Proof.
  apply (sorted_NoDup lex_lt); [apply lex_lt_irrefl|apply subseqs_sorted].
Qed.

(** *** The generator yields that enumeration *)

Lemma chain_app hi lo k A : forall B,
  chain hi A -> chain hi B ->
  (forall c, In c A -> length c = k) ->
  (B = [] -> A <> [] -> Z.of_nat lo = (hi - Z.of_nat k)%Z) ->
  (forall b rest, B = b :: rest ->
     b = seq (S lo) (S k) /\ Z.of_nat lo <> (hi - Z.of_nat k)%Z) ->
  chain hi (map (cons lo) A ++ B).
Proof.
  induction A as [|a A IH]; intros B HA HB L H0 H1; [assumption|].
  cbn [map app]. pose proof (L a (or_introl eq_refl)) as La.
  destruct A as [|a' A].
  - cbn [map app chain successor] in *. rewrite HA, La.
    destruct B as [|b rest].
    + destruct (Z.eqb_spec (Z.of_nat lo) (hi - Z.of_nat k)%Z) as [|E];
        [reflexivity|].
      exfalso. apply E, H0; [reflexivity|discriminate].
    + destruct (H1 b rest eq_refl) as [-> E].
      destruct (Z.eqb_spec (Z.of_nat lo) (hi - Z.of_nat k)%Z);
        [contradiction|]. split; [reflexivity|assumption].
  - change (chain hi ((lo :: a) :: map (cons lo) (a' :: A) ++ B)).
    cbn [chain] in HA. destruct HA as [Sa HA].
    cbn [map app chain]. split.
    + cbn [successor]. now rewrite Sa.
    + apply IH; auto.
      * intros c Hc. apply L. now right.
      * intros E _. apply H0; [assumption|discriminate].
Qed.

Lemma subseqs_chain n : forall lo k,
  chain (Z.of_nat lo + Z.of_nat n - 1) (subseqs lo n k).
Proof.
  induction n as [|n IH]; intros lo [|k]; try exact I; try reflexivity.
  rewrite subseqs_succ.
  replace (Z.of_nat lo + Z.of_nat (S n) - 1)%Z
    with (Z.of_nat (S lo) + Z.of_nat n - 1)%Z by lia.
  apply chain_app with (k := k); try apply IH.
  - intros c. apply subseqs_length.
  - intros EB EA.
    destruct (le_lt_dec (S k) n) as [H|H].
    + destruct (subseqs_head n (S lo) (S k) H) as (rest & E). congruence.
    + destruct (le_lt_dec k n) as [H'|H']; [lia|].
      exfalso. apply EA. now apply subseqs_nil.
  - intros b rest EB.
    destruct (le_lt_dec (S k) n) as [H|H].
    + destruct (subseqs_head n (S lo) (S k) H) as (rest' & E).
      rewrite E in EB. injection EB as <- _. split; [reflexivity|lia].
    + rewrite subseqs_nil in EB by lia. discriminate.
Qed.

Lemma resume_chain n k rest : forall c fuel,
  chain (Z.of_nat n - 1) (c :: rest) ->
  (forall c', In c' (c :: rest) -> length c' = k) ->
  length rest < fuel ->
  resume fuel n k c = (rest, true).
Proof.
  induction rest as [|c' rest IH]; intros c fuel Hc L Hf;
    (destruct fuel as [|fuel]; [simpl in Hf; lia|]); cbn [resume];
    rewrite advance_successor by (apply L; now left).
  - cbn [chain] in Hc. now rewrite Hc.
  - cbn [chain] in Hc. destruct Hc as [-> Hc].
    rewrite (IH c' fuel); [reflexivity|assumption| |simpl in Hf; lia].
    intros d Hd. apply L. now right.
Qed.

(** With [k <= n] the generator returns after [C(n,k)] yields, and what it
    yielded is the enumeration. *)
Lemma combinations_subseqs n k fuel :
  k <= n -> choose n k <= fuel ->
  combinations fuel n k = (subseqs 0 n k, true).
Proof.
  intros H Hf. unfold combinations.
  destruct (subseqs_head n 0 k H) as (rest & E).
  pose proof (subseqs_chain n 0 k) as C. rewrite E in C.
  rewrite (resume_chain n k rest (seq 0 k) fuel).
  - now rewrite E.
  - replace (Z.of_nat n - 1)%Z with (Z.of_nat 0 + Z.of_nat n - 1)%Z by lia.
    exact C.
  - intros c Hc. rewrite <- E in Hc. eapply subseqs_length; eassumption.
  - pose proof (subseqs_count n 0 k) as Cn. rewrite E in Cn. simpl in Cn. lia.
Qed.

(** *** Fewer points than the subset size *)

(** Once the last slot holds something other than [n - 1], that slot is
    the pivot: it is bumped and nothing else changes. *)
Lemma advance_last_slot n k pre t :
  length pre + 1 = k -> Z.of_nat t <> (Z.of_nat n - 1)%Z ->
  advance n k (pre ++ [t]) = Some (pre ++ [S t]).
Proof.
  intros L Ht. rewrite advance_successor
    by (rewrite length_app; simpl; lia).
  rewrite successor_pivot; [reflexivity|reflexivity|simpl; lia].
Qed.

Lemma resume_starved n k pre fuel : forall t,
  length pre + 1 = k -> n <= t ->
  resume fuel n k (pre ++ [t]) =
  (map (fun j => pre ++ [t + j]) (seq 1 fuel), false).
Proof.
  induction fuel as [|fuel IH]; intros t L Ht; [reflexivity|].
  cbn [resume]. rewrite (advance_last_slot n k pre t L) by lia.
  rewrite (IH (S t) L) by lia.
  cbn [seq map]. rewrite <- (seq_shift fuel 1), map_map.
  do 2 f_equal; [f_equal; f_equal; lia|].
  apply map_ext. intros j. do 2 f_equal. lia.
Qed.

(** With [n < k] the generator never returns: resumed [fuel] times it has
    yielded [fuel + 1] arrays, the [j]-th being [0 .. k-2] followed by
    [k - 1 + j]. *)
Lemma combinations_starved n k fuel :
  n < k ->
  combinations fuel n k =
  (map (fun j => seq 0 (k - 1) ++ [k - 1 + j]) (seq 0 (S fuel)), false).
Proof.
  intros H. unfold combinations.
  assert (E : seq 0 k = seq 0 (k - 1) ++ [k - 1]).
  { replace k with (S (k - 1)) at 1 by lia. now rewrite seq_S. }
  rewrite E at 1.
  rewrite (resume_starved n k (seq 0 (k - 1)) fuel (k - 1))
    by (rewrite ?length_seq; lia).
  cbn [seq map]. rewrite Nat.add_0_r, <- E. reflexivity.
Qed.

Lemma in_subseqs n k c : In c (subseqs 0 n k) <-> is_combo n k c.
Proof.
  unfold is_combo. split.
  - intros Hc. split; [eapply subseqs_length; eassumption|].
    apply subseqs_sound in Hc as [Hs Hr]. split; [assumption|].
    intros i Hi. specialize (Hr i Hi). lia.
  - intros (L & Hs & Hr). apply subseqs_complete; auto.
    intros i Hi. specialize (Hr i Hi). lia.
Qed.

(** For [k <= n]: the generator returns, having yielded each [k]-element
    index sequence over [0..n-1] exactly once, [C(n,k)] in all, in
    lexicographic order. *)
Lemma combinations_enumerates n k :
  k <= n ->
  exists ys,
    (forall fuel, choose n k <= fuel -> combinations fuel n k = (ys, true)) /\
    length ys = choose n k /\
    (forall c, In c ys <-> is_combo n k c) /\
    NoDup ys /\ StronglySorted lex_lt ys.
Proof.
  intros H. exists (subseqs 0 n k). split; [|split; [|split; [|split]]].
  - intros fuel Hf. now apply combinations_subseqs.
  - apply subseqs_count.
  - intros c. apply in_subseqs.
  - apply subseqs_NoDup.
  - apply subseqs_sorted.
Qed.

(** C3. The claim covers [m < k], and there the code does something else:
    although [C(m,k) = 0], the generator first yields [0 .. k-1], which is
    not an index sequence over [0..m-1], and then never returns; resumed
    [fuel] times it has yielded [fuel + 1] arrays. *)
Theorem combinations_below_k_never_returns n k :
  n < k ->
  choose n k = 0 /\
  ~ is_combo n k (seq 0 k) /\
  forall fuel, exists ys,
    combinations fuel n k = (seq 0 k :: ys, false) /\ length ys = fuel.
Proof.
  intros H. split; [now apply choose_small|]. split.
  - intros (_ & _ & Hr). specialize (Hr (k - 1)).
    assert (In (k - 1) (seq 0 k)) by (apply in_seq; lia).
    specialize (Hr H0). lia.
  - intros fuel. rewrite combinations_starved by assumption.
    cbn [seq map]. rewrite Nat.add_0_r.
    replace (seq 0 (k - 1) ++ [k - 1]) with (seq 0 k).
    + eexists. split; [reflexivity|]. now rewrite length_map, length_seq.
    + replace k with (S (k - 1)) at 1 by lia. now rewrite seq_S.
Qed.

Lemma combinations_below_k_never_returns_witness :
  choose 2 3 = 0 /\
  ~ is_combo 2 3 (seq 0 3) /\
  forall fuel, exists ys,
    combinations fuel 2 3 = (seq 0 3 :: ys, false) /\ length ys = fuel.
Proof.
  apply (combinations_below_k_never_returns 2 3). lia.
Defined.

End EnumeratorFacts.

(** ** Robust reconstructor *)

Module ReconstructorFacts.
Import Fraction Interpolator Enumerator Reconstructor.
Import InterpolatorFacts EnumeratorFacts.
Local Open Scope nat_scope.

#[local] Arguments normalizeFrac : simpl never.
#[local] Arguments mulFrac : simpl never.
#[local] Arguments addFrac : simpl never.

(** *** Subsets with an index out of range *)

Lemma basis_loop_undefined points i xi u js :
  In u js -> u <> i -> at_index points u = Throw TypeError ->
  forall li, exists e, basis_loop points i xi js li = Throw e.
Proof.
  intros Hin Hne Hu. induction js as [|j js IH]; intros li; [destruct Hin|].
  cbn [basis_loop]. destruct (Nat.eqb_spec i j) as [->|Hij].
  - destruct Hin as [->|Hin]; [contradiction|]. now apply IH.
  - destruct Hin as [->|Hin].
    + rewrite Hu. simpl. eauto.
    + destruct (at_index points j) as [pj|e]; [|simpl; eauto]. cbn [bind].
      destruct (normalizeFrac _ _) as [f|e]; [|simpl; eauto]. cbn [bind].
      destruct (mulFrac li f) as [li'|e]; [|simpl; eauto]. cbn [bind].
      now apply IH.
Qed.

(** An array with an [undefined] entry makes [interpolateAtZero] throw. *)
Lemma interpolate_undefined points :
  In None points -> exists e, interpolateAtZero points = Throw e.
Proof.
  intros H. apply In_nth_error in H as (u & Hu).
  assert (Hlt : u < length points) by (apply nth_error_Some; congruence).
  assert (At : at_index points u = Throw TypeError)
    by (unfold at_index; now rewrite Hu).
  unfold interpolateAtZero.
  destruct (length points) as [|k] eqn:L; [lia|].
  cbn [seq sum_loop].
  destruct (at_index points 0) as [p0|e] eqn:A0; [|simpl; eauto]. cbn [bind].
  assert (u <> 0) by (intros ->; congruence).
  destruct (basis_loop_undefined points 0 (x p0) u (0 :: seq 1 k))
    with (li := ((1, 1) : Frac)%Z) as (e & E); auto.
  { change (In u (seq 0 (S k))). apply in_seq. lia. }
  rewrite E. simpl. eauto.
Qed.

Lemma fails_out_of_range points combo i :
  In i combo -> length points <= i -> fails points combo.
Proof.
  intros Hi Hr. apply interpolate_undefined. unfold subset_of.
  apply in_map_iff. exists i. split; [|assumption].
  now apply nth_error_None.
Qed.

(** *** The loop over the generator *)

(** A failed subset leaves the tally as it was. *)
Lemma visit_fails points combo t : fails points combo -> visit points combo t = t.
Proof.
  intros (e & E). unfold visit. now rewrite E.
Qed.

Lemma tally_loop_S fuel points m k idx t :
  tally_loop (S fuel) points m k idx t =
  match advance m k idx with
  | None => Some (visit points idx t)
  | Some idx' => tally_loop fuel points m k idx' (visit points idx t)
  end.
Proof. reflexivity. Qed.

Lemma resume_S fuel n k idx :
  resume (S fuel) n k idx =
  match advance n k idx with
  | None => ([], true)
  | Some idx' =>
      let '(ys, returned) := resume fuel n k idx' in (idx' :: ys, returned)
  end.
Proof. reflexivity. Qed.

(** The loop ends exactly when the generator returns, and has then visited
    what the generator yielded, in order. *)
Lemma tally_loop_resume points m k fuel : forall idx t,
  tally_loop (S fuel) points m k idx t =
  let '(ys, returned) := resume (S fuel) m k idx in
  if returned then Some (visit_all points (idx :: ys) t) else None.
Proof.
  induction fuel as [|fuel IH]; intros idx t.
  - cbn [tally_loop resume]. destruct (advance m k idx); reflexivity.
  - rewrite tally_loop_S, (resume_S (S fuel)).
    destruct (advance m k idx) as [idx'|]; [|reflexivity].
    rewrite IH. destruct (resume (S fuel) m k idx') as [ys returned].
    destruct returned; reflexivity.
Qed.

Lemma tally_loop_combinations points m k fuel :
  tally_loop (S fuel) points m k (seq 0 k) empty_tally =
  let '(ys, returned) := combinations (S fuel) m k in
  if returned then Some (tally_of points ys) else None.
Proof.
  rewrite tally_loop_resume. unfold combinations.
  destruct (resume (S fuel) m k (seq 0 k)) as [ys returned]. reflexivity.
Qed.

Lemma visit_all_fail points combos t :
  Forall (fails points) combos -> visit_all points combos t = t.
Proof.
  induction 1 as [|c combos Hc _ IH]; [reflexivity|].
  cbn [visit_all fold_left]. rewrite visit_fails by assumption. exact IH.
Qed.

(** With fewer points than [k] the loop never ends. *)
Lemma tally_loop_starved points m k fuel :
  m < k -> tally_loop fuel points m k (seq 0 k) empty_tally = None.
Proof.
  intros H. destruct fuel as [|fuel]; [reflexivity|].
  rewrite tally_loop_combinations, combinations_starved by assumption.
  reflexivity.
Qed.

Lemma reconstruct_starved fuel n k points :
  (2 <= k <= n)%Z -> (Z.of_nat (length points) < k)%Z ->
  reconstruct fuel n k points = None.
Proof.
  intros Hk Hm. unfold reconstruct.
  replace ((k <? 2)%Z || (n <? k)%Z) with false by lia.
  rewrite tally_loop_starved; [reflexivity|lia].
Qed.

(** *** Insertion-ordered maps *)

Section MapFacts.
Context {V : Type}.
Implicit Types (m : JsMap V) (v : V).

Lemma map_get_set_same m key v : map_get (map_set m key v) key = Some v.
Proof.
  induction m as [|[k' v'] m IH]; cbn [map_set map_get].
  - now rewrite Z.eqb_refl.
  - destruct (Z.eqb_spec key k') as [->|Hne]; cbn [map_get].
    + now rewrite Z.eqb_refl.
    + destruct (Z.eqb_spec key k'); [contradiction|assumption].
Qed.

Lemma map_get_set_other m key key' v :
  key' <> key -> map_get (map_set m key v) key' = map_get m key'.
Proof.
  intros Hne. induction m as [|[k' v'] m IH]; cbn [map_set map_get].
  - destruct (Z.eqb_spec key' key); [contradiction|reflexivity].
  - destruct (Z.eqb_spec key k') as [->|Hk]; cbn [map_get].
    + destruct (Z.eqb_spec key' k'); [contradiction|reflexivity].
    + now rewrite IH.
Qed.

Lemma map_get_none m key : map_get m key = None <-> ~ In key (map fst m).
Proof.
  induction m as [|[k' v'] m IH]; cbn [map_get map fst In].
  - tauto.
  - destruct (Z.eqb_spec key k') as [->|Hne].
    + split; [discriminate|]. intros H. exfalso. apply H. now left.
    + rewrite IH. split; [intros H [E|H']; [congruence|contradiction]|tauto].
Qed.

Lemma in_map_get m key v :
  NoDup (map fst m) -> In (key, v) m -> map_get m key = Some v.
Proof.
  induction m as [|[k' v'] m IH]; cbn [map fst]; intros N H; [destruct H|].
  inversion N as [|? ? Hk N']; subst. cbn [map_get].
  destruct H as [[= -> ->]|H].
  - now rewrite Z.eqb_refl.
  - destruct (Z.eqb_spec key k') as [->|Hne]; [|now apply IH].
    exfalso. apply Hk. apply in_map_iff. now exists (k', v).
Qed.

(** Setting a key leaves the key order alone, or appends the new key. *)
Lemma keys_map_set m key v :
  map fst (map_set m key v) =
  match map_get m key with
  | Some _ => map fst m
  | None => map fst m ++ [key]
  end.
Proof.
  induction m as [|[k' v'] m IH]; cbn [map_set map_get map fst app];
    [reflexivity|].
  destruct (Z.eqb_spec key k') as [->|Hne]; cbn [map fst]; [reflexivity|].
  rewrite IH. destruct (map_get m key); reflexivity.
Qed.

End MapFacts.

Lemma in_fold_set_add combo : forall s i,
  In i (fold_left set_add combo s) <-> In i s \/ In i combo.
Proof.
  induction combo as [|j combo IH]; intros s i; cbn [fold_left].
  - simpl. tauto.
  - rewrite IH. unfold set_add, set_has.
    destruct (existsb (Nat.eqb j) s) eqn:E.
    + apply existsb_exists in E as (j' & Hj' & E').
      apply Nat.eqb_eq in E'. subst j'. simpl.
      split; [tauto|]. intros [H|[<-|H]]; auto.
    + rewrite in_app_iff. simpl. tauto.
Qed.

Lemma set_has_in s i : set_has s i = true <-> In i s.
Proof.
  unfold set_has. rewrite existsb_exists. split.
  - intros (j & Hj & E). apply Nat.eqb_eq in E. now subst.
  - intros H. exists i. split; [assumption|apply Nat.eqb_refl].
Qed.

(** *** What the tally holds *)

Lemma secrets_cons points c combos :
  secrets points (c :: combos) =
  match interpolateAtZero (subset_of points c) with
  | Ok v => v :: secrets points combos
  | Throw _ => secrets points combos
  end.
Proof.
  unfold secrets. cbn [flat_map].
  destruct (interpolateAtZero (subset_of points c)); reflexivity.
Qed.

Lemma in_secrets points combos v :
  In v (secrets points combos) <-> exists c, In c combos /\ yields points c v.
Proof.
  unfold secrets, yields. rewrite in_flat_map. split.
  - intros (c & Hc & Hv). exists c. split; [assumption|].
    destruct (interpolateAtZero (subset_of points c)); [|destruct Hv].
    destruct Hv as [->|[]]. reflexivity.
  - intros (c & Hc & E). exists c. split; [assumption|]. rewrite E. now left.
Qed.

(** The counts are those of the secrets, bumped in enumeration order. *)
Lemma cFreq_visit_all points combos : forall t,
  cFreq (visit_all points combos t) =
  fold_left bump (secrets points combos) (cFreq t).
Proof.
  induction combos as [|c combos IH]; intros t; [reflexivity|].
  cbn [visit_all fold_left]. fold (visit_all points combos (visit points c t)).
  rewrite IH, secrets_cons. unfold visit.
  destruct (interpolateAtZero (subset_of points c)); reflexivity.
Qed.

Lemma members_record combo c t v i :
  In i (members_of (cMembers (record combo c t)) v) <->
  In i (members_of (cMembers t) v) \/ (v = c /\ In i combo).
Proof.
  unfold record, members_of. cbn [cMembers].
  destruct (Z.eq_dec v c) as [->|Hne].
  - rewrite map_get_set_same, in_fold_set_add.
    destruct (map_get (cMembers t) c) as [s|] eqn:G.
    + rewrite G. tauto.
    + rewrite map_get_set_same. simpl. tauto.
  - rewrite map_get_set_other by assumption.
    destruct (map_get (cMembers t) c) as [s|] eqn:G.
    + tauto.
    + rewrite map_get_set_other by assumption. tauto.
Qed.

(** An index is on record for [v] exactly when it occurs in a subset that
    interpolated to [v]. *)
Lemma members_visit_all points combos : forall t v i,
  In i (members_of (cMembers (visit_all points combos t)) v) <->
  In i (members_of (cMembers t) v) \/
  exists c, In c combos /\ yields points c v /\ In i c.
Proof.
  induction combos as [|c combos IH]; intros t v i.
  - cbn. split; [tauto|]. intros [H|(c & [] & _)]. exact H.
  - cbn [visit_all fold_left]. fold (visit_all points combos (visit points c t)).
    rewrite IH. unfold visit, yields.
    destruct (interpolateAtZero (subset_of points c)) as [c0|e] eqn:E.
    + rewrite members_record. split.
      * intros [[H|[-> H]]|(c' & Hc' & Hy & Hi)]; auto.
        -- right. exists c. repeat split; auto. now left.
        -- right. exists c'. repeat split; auto. now right.
      * intros [H|(c' & [<-|Hc'] & Hy & Hi)]; auto.
        -- left. right. split; [congruence|assumption].
        -- right. exists c'. auto.
    + split.
      * intros [H|(c' & Hc' & Hy & Hi)]; auto.
        right. exists c'. repeat split; auto. now right.
      * intros [H|(c' & [<-|Hc'] & Hy & Hi)]; auto; [congruence|].
        right. exists c'. auto.
Qed.

(** *** Counts *)

Lemma count_in_bump f u v :
  count_in (bump f u) v = if Z.eq_dec u v then count_in f v + 1 else count_in f v.
Proof.
  unfold bump. destruct (Z.eq_dec u v) as [->|Hne]; unfold count_in at 1.
  - now rewrite map_get_set_same.
  - now rewrite map_get_set_other by congruence.
Qed.

Lemma count_in_fold vs : forall f v,
  count_in (fold_left bump vs f) v = count_in f v + count v vs.
Proof.
  unfold count.
  induction vs as [|u vs IH]; intros f v; cbn [fold_left count_occ]; [lia|].
  rewrite IH, count_in_bump. destruct (Z.eq_dec u v); lia.
Qed.

Lemma in_map_set {V} (m : JsMap V) key (v : V) e :
  In e (map_set m key v) -> e = (key, v) \/ In e m.
Proof.
  induction m as [|[k' v'] m IH]; cbn [map_set].
  - intros [<-|[]]. now left.
  - destruct (Z.eqb_spec key k') as [->|Hne].
    + intros [<-|H]; [now left|right; now right].
    + intros [<-|H]; [right; now left|].
      destruct (IH H); [now left|right; now right].
Qed.

Lemma keys_bump f u :
  map fst (bump f u) =
  if in_dec Z.eq_dec u (map fst f) then map fst f else map fst f ++ [u].
Proof.
  unfold bump. rewrite keys_map_set.
  destruct (map_get f u) eqn:G; destruct (in_dec Z.eq_dec u (map fst f)) as [H|H];
    try reflexivity.
  - exfalso. apply (proj2 (map_get_none f u)) in H. congruence.
  - apply map_get_none in G. contradiction.
Qed.

Lemma fold_bump_snoc vs u f :
  fold_left bump (vs ++ [u]) f = bump (fold_left bump vs f) u.
Proof. now rewrite fold_left_app. Qed.

Lemma keys_fold vs :
  NoDup (map fst (fold_left bump vs [])) /\
  forall v, In v (map fst (fold_left bump vs [])) <-> In v vs.
Proof.
  induction vs as [|u vs [N M]] using rev_ind.
  - split; [constructor|reflexivity].
  - rewrite fold_bump_snoc, keys_bump.
    destruct (in_dec Z.eq_dec u (map fst (fold_left bump vs []))) as [H|H].
    + split; [assumption|]. intros v. rewrite M, in_app_iff. simpl.
      split; [tauto|]. intros [Hv|[<-|[]]]; [assumption|now apply M].
    + split.
      * apply NoDup_app; [assumption|repeat constructor; intros []|].
        intros a Ha [<-|[]]. contradiction.
      * intros v. rewrite !in_app_iff, M. reflexivity.
Qed.

Lemma first_occurrence (w : Z) vs :
  In w vs -> exists pre post, vs = pre ++ w :: post /\ ~ In w pre.
Proof.
  induction vs as [|u vs IH]; intros H; [destruct H|].
  destruct (Z.eq_dec u w) as [->|Hne].
  - exists [], vs. split; [reflexivity|intros []].
  - destruct H as [->|H]; [contradiction|].
    destruct (IH H) as (pre & post & -> & Hp).
    exists (u :: pre), post. split; [reflexivity|].
    intros [E|Hin]; [contradiction|contradiction].
Qed.

(** A key to the right of [w] in the map was first seen after [w]. *)
Lemma keys_order vs : forall k1 w k2 v,
  map fst (fold_left bump vs []) = k1 ++ w :: k2 ->
  In v k2 -> first_before w v vs.
Proof.
  induction vs as [|u vs IH] using rev_ind; intros k1 w k2 v E Hv.
  - destruct k1; discriminate.
  - destruct (keys_fold vs) as [N M].
    rewrite fold_bump_snoc, keys_bump in E.
    destruct (in_dec Z.eq_dec u (map fst (fold_left bump vs []))) as [H|H].
    + destruct (IH _ _ _ _ E Hv) as (pre & post & -> & H1 & H2).
      exists pre, (post ++ [u]). rewrite <- app_assoc. now split.
    + destruct (exists_last (l := k2)) as (k2' & x & ->);
        [intros ->; destruct Hv|].
      replace (k1 ++ w :: k2' ++ [x]) with ((k1 ++ w :: k2') ++ [x]) in E
        by now rewrite <- app_assoc.
      apply app_inj_tail in E as [E <-].
      apply in_app_or in Hv as [Hv|[<-|[]]].
      * destruct (IH _ _ _ _ E Hv) as (pre & post & -> & H1 & H2).
        exists pre, (post ++ [u]). rewrite <- app_assoc. now split.
      * assert (Hw : In w vs).
        { apply M. rewrite E. apply in_elt. }
        destruct (first_occurrence w vs Hw) as (pre & post & -> & H1).
        exists pre, (post ++ [u]). rewrite <- app_assoc. repeat split; auto.
        intros Hu. apply H, M. apply in_or_app. now left.
Qed.

(** *** The winner scan *)

Lemma pick_best_fold f : pick_best f = fold_left scan_step f (None, (-1)%Z).
Proof. reflexivity. Qed.

(** The scan returns the first entry whose count is maximal: everything
    before it is strictly smaller, nothing after it is larger. *)
Lemma scan_first_max f : forall best,
  (fold_left scan_step f best = best /\
   forall v c, In (v, c) f -> (Z.of_nat c <= snd best)%Z) \/
  exists f1 w cw f2,
    f = f1 ++ (w, cw) :: f2 /\
    fold_left scan_step f best = (Some w, Z.of_nat cw) /\
    (snd best < Z.of_nat cw)%Z /\
    (forall v c, In (v, c) f1 -> c < cw) /\
    (forall v c, In (v, c) f2 -> c <= cw).
Proof.
  induction f as [|[k c] f IH]; intros best.
  - left. split; [reflexivity|intros v c []].
  - cbn [fold_left].
    assert (St : scan_step best (k, c) =
                 if (Z.of_nat c >? snd best)%Z then (Some k, Z.of_nat c)
                 else best) by reflexivity.
    rewrite St. clear St.
    destruct (Z.gtb_spec (Z.of_nat c) (snd best)) as [Hgt|Hle].
    + right. destruct (IH (Some k, Z.of_nat c)) as
        [[E H]|(f1 & w & cw & f2 & -> & E & Hlt & H1 & H2)].
      * exists [], k, c, f.
        split; [reflexivity|]. split; [exact E|]. split; [lia|].
        split; [intros v c' []|].
        intros v c' Hin. specialize (H v c' Hin). simpl in H. lia.
      * exists ((k, c) :: f1), w, cw, f2. simpl in Hlt.
        split; [reflexivity|]. split; [exact E|]. split; [lia|].
        split; [|exact H2].
        intros v c' [[= <- <-]|Hin]; [lia|eauto].
    + destruct (IH best) as
        [[E H]|(f1 & w & cw & f2 & -> & E & Hlt & H1 & H2)].
      * left. split; [assumption|].
        intros v c' [[= <- <-]|Hin]; [lia|eauto].
      * right. exists ((k, c) :: f1), w, cw, f2.
        split; [reflexivity|]. split; [exact E|]. split; [lia|].
        split; [|exact H2].
        intros v c' [[= <- <-]|Hin]; [lia|eauto].
Qed.

Lemma pick_best_first_max f :
  f <> [] ->
  exists f1 w cw f2,
    f = f1 ++ (w, cw) :: f2 /\
    pick_best f = (Some w, Z.of_nat cw) /\
    (forall v c, In (v, c) f1 -> c < cw) /\
    (forall v c, In (v, c) f2 -> c <= cw).
Proof.
  intros Hne. rewrite pick_best_fold.
  destruct (scan_first_max f (None, (-1)%Z)) as
    [[_ H]|(f1 & w & cw & f2 & E & R & _ & H1 & H2)].
  - destruct f as [|[v c] f]; [contradiction|].
    specialize (H v c (or_introl eq_refl)). simpl in H. lia.
  - exists f1, w, cw, f2. auto.
Qed.

(** The winner over the secrets [vs]: it occurs most often, and whatever
    occurs as often was first seen later. *)
Lemma winner_of_secrets vs :
  vs <> [] ->
  exists w,
    fst (pick_best (fold_left bump vs [])) = Some w /\
    In w vs /\
    forall v, In v vs -> v <> w ->
      count v vs < count w vs \/
      (count v vs = count w vs /\ first_before w v vs).
Proof.
  intros Hne. set (f := fold_left bump vs []).
  destruct (keys_fold vs) as [N M]. fold f in N, M.
  assert (Hf : f <> []).
  { destruct vs as [|u vs]; [contradiction|].
    intros E. pose proof (proj2 (M u) (or_introl eq_refl)) as Hu.
    rewrite E in Hu. destruct Hu. }
  assert (C : forall v c, In (v, c) f -> c = count v vs).
  { intros v c H. apply (in_map_get f v c N) in H.
    pose proof (count_in_fold vs [] v) as E. fold f in E.
    unfold count_in at 1 2 in E. rewrite H in E. simpl in E. exact E. }
  destruct (pick_best_first_max f Hf) as (f1 & w & cw & f2 & E & R & H1 & H2).
  exists w. rewrite R. split; [reflexivity|].
  assert (Hw : cw = count w vs).
  { apply C. rewrite E. apply in_elt. }
  split.
  - apply M. rewrite E, map_app. cbn [map fst]. apply in_elt.
  - intros v Hv Hvw. apply M in Hv. apply in_map_iff in Hv as ([v' c] & <- & Hin).
    cbn [fst] in *. pose proof (C _ _ Hin) as Hc.
    rewrite E in Hin. apply in_app_or in Hin as [Hin|[[= -> ->]|Hin]].
    + left. specialize (H1 _ _ Hin). lia.
    + contradiction.
    + specialize (H2 _ _ Hin).
      destruct (Nat.eq_dec c cw) as [->|]; [right|left; lia].
      split; [lia|].
      apply (keys_order vs (map fst f1) w (map fst f2) v').
      * fold f. rewrite E, map_app. reflexivity.
      * apply in_map_iff. now exists (v', cw).
Qed.

(** C4. Over the completed tally, the scan picks a secret with the
    greatest count; any other secret with the same count was first recorded
    later in the enumeration order, so among equals the first seen wins. A
    secret whose count is strictly greatest is therefore the one picked. *)
Theorem winner_first_seen points combos :
  secrets points combos <> [] ->
  exists w,
    fst (pick_best (cFreq (tally_of points combos))) = Some w /\
    In w (secrets points combos) /\
    forall v, In v (secrets points combos) -> v <> w ->
      count v (secrets points combos) < count w (secrets points combos) \/
      (count v (secrets points combos) = count w (secrets points combos) /\
       first_before w v (secrets points combos)).
Proof.
  intros H. unfold tally_of. rewrite cFreq_visit_all.
  now apply winner_of_secrets.
Qed.

Lemma winner_first_seen_witness :
  exists w,
    fst (pick_best (cFreq (tally_of
           [mkPoint 1 5 "1"; mkPoint 2 3 "2"; mkPoint 3 4 "3"]
           [[0; 1]; [0; 2]; [1; 2]]))) = Some w /\
    In w [7; 1]%Z /\
    forall v, In v [7; 1]%Z -> v <> w ->
      count v [7; 1]%Z < count w [7; 1]%Z \/
      (count v [7; 1]%Z = count w [7; 1]%Z /\ first_before w v [7; 1]%Z).
Proof.
  apply (winner_first_seen
           [mkPoint 1 5 "1"; mkPoint 2 3 "2"; mkPoint 3 4 "3"]
           [[0; 1]; [0; 2]; [1; 2]]).
  vm_compute. discriminate.
Defined.

(** *** The run as a whole *)

Lemma tally_loop_finite points m k fuel :
  k <= m -> choose m k <= fuel ->
  tally_loop fuel points m k (seq 0 k) empty_tally =
  Some (tally_of points (subseqs 0 m k)).
Proof.
  intros H Hf. pose proof (choose_pos m k H).
  destruct fuel as [|fuel]; [lia|].
  rewrite tally_loop_combinations, combinations_subseqs by assumption.
  reflexivity.
Qed.

Lemma cFreq_empty_iff points combos :
  length (cFreq (tally_of points combos)) = 0 <-> Forall (fails points) combos.
Proof.
  unfold tally_of. rewrite cFreq_visit_all. cbn [cFreq empty_tally].
  destruct (keys_fold (secrets points combos)) as [_ M].
  rewrite Forall_forall. split.
  - intros L c Hc. unfold fails.
    destruct (interpolateAtZero (subset_of points c)) as [v|e] eqn:E; [|eauto].
    exfalso. assert (Hv : In v (secrets points combos))
      by (apply in_secrets; exists c; now split).
    apply M in Hv. apply length_zero_iff_nil in L. rewrite L in Hv. destruct Hv.
  - intros H.
    destruct (fold_left bump (secrets points combos) []) as [|[v c] f] eqn:E;
      [reflexivity|].
    exfalso. assert (Hv : In v (secrets points combos))
      by (apply M; rewrite ?E; now left).
    apply in_secrets in Hv as (c' & Hc' & Y). destruct (H c' Hc') as (e & E').
    unfold yields in Y. congruence.
Qed.

(** With at least [k] points in use the run ends: skipped subsets leave
    no trace, the no-valid-subset error is raised exactly when every subset
    failed, and otherwise a secret comes out. *)
Lemma reconstruct_finite fuel n k points :
  (2 <= k <= n)%Z ->
  let m := Nat.min (length points) (Z.to_nat n) in
  let combos := subseqs 0 m (Z.to_nat k) in
  Z.to_nat k <= m -> choose m (Z.to_nat k) <= fuel ->
  (forall c t, fails points c -> visit points c t = t) /\
  (reconstruct fuel n k points = Some (Throw NoValidSubset) <->
   Forall (fails points) combos) /\
  (~ Forall (fails points) combos ->
   exists w,
     fst (pick_best (cFreq (tally_of points combos))) = Some w /\
     reconstruct fuel n k points =
     Some (Ok (w, outliers_of points m
                    (members_of (cMembers (tally_of points combos)) w)))).
Proof.
  intros Hk m combos Hm Hf.
  split; [intros c t; apply visit_fails|].
  unfold reconstruct.
  replace ((k <? 2)%Z || (n <? k)%Z) with false by lia.
  fold m. rewrite tally_loop_finite by assumption. fold combos.
  pose proof (cFreq_empty_iff points combos) as Z0.
  destruct (Nat.eqb_spec (length (cFreq (tally_of points combos))) 0) as [E|E].
  - split; [tauto|]. intros H. exfalso. apply H. now apply Z0.
  - assert (NF : ~ Forall (fails points) combos) by tauto.
    assert (NE : secrets points combos <> []).
    { intros S0. apply NF. apply Forall_forall. intros c Hc. unfold fails.
      destruct (interpolateAtZero (subset_of points c)) as [v|e] eqn:Y; [|eauto].
      exfalso. assert (Hv : In v (secrets points combos))
        by (apply in_secrets; exists c; now split).
      rewrite S0 in Hv. destruct Hv. }
    destruct (winner_of_secrets _ NE) as (w & W & _).
    assert (W' : fst (pick_best (cFreq (tally_of points combos))) = Some w)
      by (unfold tally_of; rewrite cFreq_visit_all; exact W).
    rewrite W'. split.
    + split; [discriminate|tauto].
    + intros _. exists w. split; reflexivity.
Qed.

(** C5. A subset whose interpolation throws leaves the tally untouched and
    the loop goes on; but the claim's "fails iff every subset failed" does
    not hold for the input [n = 3, k = 3] with two decoded points: every
    subset the generator yields fails, yet the run never reaches the
    emptiness check, whatever the number of subsets visited. *)
Theorem starved_run_never_reports :
  forall fuel,
    Forall (fails [mkPoint 1 4 "1"; mkPoint 2 7 "2"])
           (fst (combinations fuel 2 3)) /\
    visit_all [mkPoint 1 4 "1"; mkPoint 2 7 "2"]
              (fst (combinations fuel 2 3)) empty_tally = empty_tally /\
    reconstruct fuel 3 3 [mkPoint 1 4 "1"; mkPoint 2 7 "2"] = None.
Proof.
  intros fuel.
  assert (F : Forall (fails [mkPoint 1 4 "1"; mkPoint 2 7 "2"])
                     (fst (combinations fuel 2 3))).
  { rewrite combinations_starved by lia. cbn [fst].
    apply Forall_forall. intros c Hc. apply in_map_iff in Hc as (j & <- & _).
    apply fails_out_of_range with (i := 3 - 1 + j).
    - apply in_or_app. right. now left.
    - simpl. lia. }
  split; [exact F|]. split; [now apply visit_all_fail|].
  apply reconstruct_starved; simpl; lia.
Qed.



End ReconstructorFacts.

(** ** Robustness *)

Module RobustFacts.
Import Fraction Interpolator Enumerator Reconstructor Robust.
Import InterpolatorFacts EnumeratorFacts ReconstructorFacts.
Local Open Scope nat_scope.

(** *** Lists of indices *)

Lemma increasing_NoDup l : increasing l -> NoDup l.
Proof.
  apply (sorted_NoDup lt). intros a. apply Nat.lt_irrefl.
Qed.

Lemma increasing_seq a n : increasing (seq a n).
Proof.
  unfold increasing. revert a. induction n as [|n IH]; intros a; cbn [seq].
  - constructor.
  - constructor; [apply IH|]. apply Forall_forall.
    intros i Hi. apply in_seq in Hi. lia.
Qed.

Lemma increasing_filter p l : increasing l -> increasing (filter p l).
Proof.
  unfold increasing. induction 1 as [|a l S1 IH F]; cbn [filter]; [constructor|].
  destruct (p a); [|assumption]. constructor; [assumption|].
  rewrite Forall_forall in *. intros i Hi. apply filter_In in Hi as [Hi _].
  now apply F.
Qed.

(** Increasing lists with the same members are equal. *)
Lemma increasing_ext l1 : forall l2,
  increasing l1 -> increasing l2 ->
  (forall i, In i l1 <-> In i l2) -> l1 = l2.
Proof.
  unfold increasing.
  induction l1 as [|a l1 IH]; intros [|b l2] S1 S2 H.
  - reflexivity.
  - exfalso. apply (proj2 (H b)). now left.
  - exfalso. apply (proj1 (H a)). now left.
  - inversion S1 as [|? ? S1' F1]; inversion S2 as [|? ? S2' F2]; subst.
    rewrite Forall_forall in F1, F2.
    assert (a = b).
    { destruct (proj1 (H a) (or_introl eq_refl)) as [E|Hin]; [congruence|].
      destruct (proj2 (H b) (or_introl eq_refl)) as [E|Hin']; [congruence|].
      specialize (F2 a Hin). specialize (F1 b Hin'). lia. }
    subst b. f_equal. apply IH; auto.
    intros i. split; intros Hi.
    + destruct (proj1 (H i) (or_intror Hi)) as [E|Hin]; [|assumption].
      specialize (F1 i Hi). lia.
    + destruct (proj2 (H i) (or_intror Hi)) as [E|Hin]; [|assumption].
      specialize (F2 i Hi). lia.
Qed.

Lemma in_sorted_of m l i : In i (sorted_of m l) <-> i < m /\ In i l.
Proof.
  unfold sorted_of. rewrite filter_In, in_seq, set_has_in.
  split; intros [H1 H2]; (split; [lia|assumption]).
Qed.

Lemma sorted_of_length m l :
  NoDup l -> (forall i, In i l -> i < m) -> length (sorted_of m l) = length l.
Proof.
  intros N R. apply Permutation_length, NoDup_Permutation; auto.
  - apply NoDup_filter, seq_NoDup.
  - intros i. rewrite in_sorted_of. split; [tauto|]. intros H. split; auto.
Qed.

Lemma sorted_of_combo m k l :
  NoDup l -> (forall i, In i l -> i < m) -> length l = k ->
  is_combo m k (sorted_of m l).
Proof.
  intros N R L. split; [|split].
  - now rewrite sorted_of_length.
  - apply increasing_filter, increasing_seq.
  - intros i Hi. apply in_sorted_of in Hi. tauto.
Qed.

Lemma in_others b c i : In i (others b c) <-> In i c /\ i <> b.
Proof.
  unfold others. rewrite filter_In.
  destruct (Nat.eqb_spec i b); simpl; intuition congruence.
Qed.

Lemma others_NoDup b c : NoDup c -> NoDup (others b c).
Proof. apply NoDup_filter. Qed.

Lemma others_length b c :
  NoDup c -> In b c -> S (length (others b c)) = length c.
Proof.
  unfold others. induction 1 as [|a c Ha N IH]; intros Hb; [destruct Hb|].
  cbn [filter length]. destruct (Nat.eqb_spec a b) as [->|Hne]; cbn [negb length].
  - f_equal. clear IH Hb. induction c as [|a' c IH]; [reflexivity|].
    cbn [filter]. destruct (Nat.eqb_spec a' b) as [->|Hne].
    + exfalso. apply Ha. now left.
    + cbn [negb length]. f_equal. apply IH.
      * intros H. apply Ha. now right.
      * now inversion N.
  - f_equal. apply IH. destruct Hb; [contradiction|assumption].
Qed.

Lemma NoDup_firstn {A} n (l : list A) : NoDup l -> NoDup (firstn n l).
Proof.
  intros N. rewrite <- (firstn_skipn n l) in N.
  now apply NoDup_app_remove_r in N.
Qed.

Lemma in_firstn {A} n (l : list A) a : In a (firstn n l) -> In a l.
Proof.
  intros H. rewrite <- (firstn_skipn n l). apply in_or_app. now left.
Qed.

(** Two sets of size [|T| - 1] inside [T] miss at most one of each other's
    members. *)
Lemma near_full_overlap (A1 A2 T : list nat) :
  NoDup A1 -> NoDup A2 -> NoDup T ->
  incl A1 T -> incl A2 T -> length T <= S (length A2) ->
  length A1 <= S (length (filter (set_has A2) A1)).
Proof.
  intros N1 N2 NT I1 I2 L.
  pose proof (filter_length (set_has A2) A1) as P.
  set (N := filter (fun i => negb (set_has A2 i)) A1) in *.
  assert (ND : NoDup (N ++ A2)).
  { apply NoDup_app; [now apply NoDup_filter|assumption|].
    intros i Hi Hi2. apply filter_In in Hi as [_ Hi].
    apply set_has_in in Hi2. rewrite Hi2 in Hi. discriminate. }
  assert (IN : incl (N ++ A2) T).
  { intros i Hi. apply in_app_or in Hi as [Hi|Hi]; [|now apply I2].
    apply filter_In in Hi as [Hi _]. now apply I1. }
  pose proof (NoDup_incl_length ND IN) as Q. rewrite length_app in Q. lia.
Qed.

(** A function that is injective on the members of a duplicate-free list
    maps it to a duplicate-free list. *)
Lemma NoDup_map_in {X Y : Type} (g : X -> Y) (xs : list X) :
  (forall u w, In u xs -> In w xs -> g u = g w -> u = w) ->
  NoDup xs -> NoDup (map g xs).
Proof.
  intros Inj N. induction N as [|u xs Hu N IH]; cbn [map]; constructor.
  - intros H. apply in_map_iff in H as (w & E & Hw).
    apply Hu. replace u with w; [assumption|].
    apply Inj; [now right|now left|assumption].
  - apply IH. intros; apply Inj; auto; now right.
Qed.

(** *** Subsets as lists of points *)

Lemma subset_sel points c :
  (forall i, In i c -> i < length points) ->
  subset_of points c = map Some (sel points c).
Proof.
  intros R. unfold subset_of, sel. rewrite map_map.
  apply map_ext_in. intros i Hi. apply nth_error_nth'. now apply R.
Qed.

Lemma sel_nth points c j :
  j < length c -> nth j (sel points c) pt0 = nth (nth j c 0) points pt0.
Proof.
  intros H. unfold sel.
  rewrite (nth_indep _ pt0 (nth 0 points pt0)) by now rewrite length_map.
  apply (map_nth (fun i => nth i points pt0)).
Qed.

Lemma sel_xs_NoDup points c :
  NoDup (map x points) -> NoDup c ->
  (forall i, In i c -> i < length points) ->
  NoDup (map x (sel points c)).
Proof.
  intros Hx N. induction N as [|i c Hi N IH]; intros R; cbn [sel map].
  - constructor.
  - constructor.
    + intros H. apply in_map_iff in H as (p & E & Hp).
      apply in_map_iff in Hp as (j & <- & Hj).
      destruct (Nat.eq_dec j i) as [->|Hne]; [contradiction|].
      apply (distinct_x points j i Hx); auto; apply R; [now right|now left].
    + apply IH. intros; apply R; now right.
Qed.

Section Selected.
Variables (points : list Point) (m k : nat) (c : list nat).
Hypothesis Hx : NoDup (map x points).
Hypothesis Hm : m = length points.
Hypothesis Hc : is_combo m k c.

Lemma combo_range i : In i c -> i < length points.
Proof. destruct Hc as (_ & _ & R). intros H. rewrite <- Hm. now apply R. Qed.

Lemma combo_NoDup : NoDup c.
Proof. destruct Hc as (_ & S & _). now apply increasing_NoDup. Qed.

Lemma sel_length : length (sel points c) = k.
Proof. unfold sel. rewrite length_map. apply Hc. Qed.

Lemma sel_distinct : NoDup (map x (sel points c)).
Proof. apply sel_xs_NoDup; auto using combo_NoDup, combo_range. Qed.

Lemma yields_interpolant v :
  yields points c v <-> interpolant (sel points c) 0 = inj v.
Proof.
  unfold yields. rewrite subset_sel by apply combo_range.
  apply interpolate_iff, sel_distinct.
Qed.

(** The interpolant of a subset passes through each of its points. *)
Lemma interpolant_through i :
  In i c -> interpolant (sel points c) (xq points i) = yq points i.
Proof.
  intros Hi. destruct (In_nth c i 0 Hi) as (j & Hj & E).
  pose proof (interpolant_at_node (sel points c) j sel_distinct) as H.
  rewrite sel_length in H. destruct Hc as (L & _). rewrite L in Hj.
  specialize (H Hj). unfold xq, yq in *.
  rewrite sel_nth, E in H by lia. exact H.
Qed.

Lemma polyfun_sel : polyfun k (interpolant (sel points c)).
Proof. rewrite <- sel_length. apply polyfun_interpolant. Qed.

End Selected.

(** *** Polynomials that agree at nodes *)

Section Nodes.
Variables (points : list Point) (k : nat).
Hypothesis Hx : NoDup (map x points).

Lemma nodes_distinct R :
  NoDup R -> (forall i, In i R -> i < length points) ->
  NoDup (map (xq points) R).
Proof.
  intros N Rg. apply NoDup_map_in; [|assumption].
  intros i j Hi Hj E. destruct (Nat.eq_dec i j) as [|Hne]; [assumption|].
  exfalso. apply (xq_distinct points i j Hx); auto. rewrite E. ring.
Qed.

Lemma agree_at_nodes h1 h2 R :
  polyfun k h1 -> polyfun k h2 ->
  NoDup R -> (forall i, In i R -> i < length points) ->
  k <= length R ->
  (forall i, In i R -> h1 (xq points i) = h2 (xq points i)) ->
  forall t, h1 t = h2 t.
Proof.
  intros P1 P2 N Rg L H.
  apply (polyfun_agree k h1 h2 (map (xq points) R)); auto.
  - now apply nodes_distinct.
  - now rewrite length_map.
  - intros r Hr. apply in_map_iff in Hr as (i & <- & Hi). now apply H.
Qed.

Hypothesis Hnz : nonzero_xs points.

Lemma xq_nonzero i : i < length points -> xq points i <> 0%Qc.
Proof.
  intros Hi. unfold xq. apply inj_nonzero.
  unfold nonzero_xs in Hnz. rewrite Forall_forall in Hnz.
  apply Hnz. now apply nth_In.
Qed.

(** With no abscissa equal to 0, the origin is one more node. *)
Lemma agree_at_nodes_and_zero h1 h2 R :
  polyfun k h1 -> polyfun k h2 ->
  NoDup R -> (forall i, In i R -> i < length points) ->
  k <= S (length R) ->
  h1 0%Qc = h2 0%Qc ->
  (forall i, In i R -> h1 (xq points i) = h2 (xq points i)) ->
  forall t, h1 t = h2 t.
Proof.
  intros P1 P2 N Rg L H0 H.
  apply (polyfun_agree k h1 h2 (0%Qc :: map (xq points) R)); auto.
  - constructor; [|now apply nodes_distinct].
    intros Hin. apply in_map_iff in Hin as (i & E & Hi).
    apply (xq_nonzero i); auto.
  - cbn [length]. now rewrite length_map.
  - intros r [<-|Hr]; [assumption|].
    apply in_map_iff in Hr as (i & <- & Hi). now apply H.
Qed.

End Nodes.

(** *** Reading the outliers off *)

Lemma outliers_none ok (pts : list Point) : forall a,
  (forall i, i < length pts -> set_has ok (a + i) = true) ->
  map snd (filter (fun ip => negb (set_has ok (fst ip)))
             (combine (seq a (length pts)) pts)) = [].
Proof.
  induction pts as [|p pts IH]; intros a H; [reflexivity|].
  cbn [length seq combine filter fst].
  pose proof (H 0 ltac:(simpl; lia)) as H0. rewrite Nat.add_0_r in H0.
  rewrite H0. cbn [negb]. apply IH. intros i Hi.
  replace (S a + i) with (a + S i) by lia. apply H. simpl. lia.
Qed.

Lemma outliers_single ok (pts : list Point) : forall a j,
  j < length pts ->
  (forall i, i < length pts -> set_has ok (a + i) = true <-> i <> j) ->
  map snd (filter (fun ip => negb (set_has ok (fst ip)))
             (combine (seq a (length pts)) pts)) = [nth j pts pt0].
Proof.
  induction pts as [|p pts IH]; intros a j Hj H; [simpl in Hj; lia|].
  cbn [length seq combine filter fst].
  pose proof (H 0 ltac:(simpl; lia)) as H0. rewrite Nat.add_0_r in H0.
  destruct j as [|j].
  - destruct (set_has ok a) eqn:E;
      [exfalso; now apply (proj1 H0 eq_refl)|].
    cbn [negb map snd nth]. f_equal. apply outliers_none.
    intros i Hi. replace (S a + i) with (a + S i) by lia.
    apply H; [simpl; lia|discriminate].
  - destruct (set_has ok a) eqn:E.
    + cbn [negb nth]. apply IH; [simpl in Hj; lia|].
      intros i Hi. replace (S a + i) with (a + S i) by lia.
      rewrite H by (simpl; lia). split; intros Q; congruence.
    + exfalso. assert (false = true) by (apply H0; discriminate).
      discriminate.
Qed.

(** *** One perturbed point *)

Section OnePerturbed.
Variables (points : list Point) (k : nat) (coeffs : list Z) (b : nat).
Hypothesis Hsetting : one_perturbed points k coeffs b.
Hypothesis Hnz : nonzero_xs points.

Let m := length points.
Let f := qeval (map inj coeffs).
Let s := peval coeffs 0.

Lemma setting_k : 2 <= k.
Proof. apply Hsetting. Qed.
Lemma setting_x : NoDup (map x points).
Proof. apply Hsetting. Qed.
Lemma setting_b : b < m.
Proof. apply Hsetting. Qed.

Lemma polyfun_f : polyfun k f.
Proof. apply polyfun_int, Hsetting. Qed.

Lemma f_zero : f 0%Qc = inj s.
Proof. unfold f, s. rewrite <- inj_0 at 1. apply qeval_inj. Qed.

Lemma f_good i : i < m -> i <> b -> f (xq points i) = yq points i.
Proof.
  intros Hi Hne. unfold f, xq, yq. rewrite qeval_inj. f_equal.
  symmetry. destruct Hsetting as (_ & _ & _ & _ & _ & G). now apply G.
Qed.

Lemma f_bad : f (xq points b) <> yq points b.
Proof.
  unfold f, xq, yq. rewrite qeval_inj. intros E. apply inj_inj in E.
  destruct Hsetting as (_ & _ & _ & _ & B & _). apply B.
  unfold on_poly. now symmetry.
Qed.

(** A subset without the perturbed point interpolates to the true secret. *)
Lemma good_yields c : is_combo m k c -> ~ In b c -> yields points c s.
Proof.
  intros Hc Hb.
  apply (yields_interpolant points m k c setting_x eq_refl Hc).
  rewrite <- f_zero. symmetry.
  apply (agree_at_nodes points k setting_x f (interpolant (sel points c)) c);
    auto using polyfun_f.
  - apply (polyfun_sel points m k c Hc).
  - now apply (combo_NoDup m k c).
  - now apply (combo_range points m k c).
  - destruct Hc as (L & _). lia.
  - intros i Hi.
    rewrite (interpolant_through points m k c setting_x eq_refl Hc i Hi).
    apply f_good; [now apply (combo_range points m k c)|].
    intros ->. contradiction.
Qed.

(** The interpolant of a subset with the perturbed point is not the true
    polynomial. *)
Lemma bad_is_not_f c :
  is_combo m k c -> In b c ->
  ~ (forall t, interpolant (sel points c) t = f t).
Proof.
  intros Hc Hb H. apply f_bad. rewrite <- H.
  apply (interpolant_through points m k c setting_x eq_refl Hc b Hb).
Qed.

(** ... and so it cannot pass through [k] unperturbed points, *)
Lemma bad_misses_good c R :
  is_combo m k c -> In b c ->
  NoDup R -> (forall i, In i R -> i < m /\ i <> b) -> k <= length R ->
  ~ (forall i, In i R -> interpolant (sel points c) (xq points i) = yq points i).
Proof.
  intros Hc Hb N Rg L H. apply (bad_is_not_f c Hc Hb).
  apply (agree_at_nodes points k setting_x _ f R); auto using polyfun_f.
  - apply (polyfun_sel points m k c Hc).
  - intros i Hi. now apply Rg.
  - intros i Hi. rewrite (H i Hi). symmetry. now apply f_good; apply Rg.
Qed.

(** ... nor have the true value at 0. *)
Lemma bad_never_yields_secret c :
  is_combo m k c -> In b c -> ~ yields points c s.
Proof.
  intros Hc Hb Y. apply (bad_is_not_f c Hc Hb).
  apply (yields_interpolant points m k c setting_x eq_refl Hc) in Y.
  pose proof (combo_NoDup m k c Hc) as N.
  apply (agree_at_nodes_and_zero points k setting_x Hnz _ f (others b c));
    auto using polyfun_f.
  - apply (polyfun_sel points m k c Hc).
  - now apply others_NoDup.
  - intros i Hi. apply in_others in Hi as [Hi _].
    now apply (combo_range points m k c).
  - pose proof (others_length b c N Hb). destruct Hc as (L & _). lia.
  - now rewrite Y, f_zero.
  - intros i Hi. apply in_others in Hi as [Hi Hne].
    rewrite (interpolant_through points m k c setting_x eq_refl Hc i Hi).
    symmetry. apply f_good; [now apply (combo_range points m k c)|assumption].
Qed.

(** Two subsets with the perturbed point and the same secret, whose other
    indices all lie in one [k]-element set: each index of the second is in
    the first. *)
Lemma same_secret_incl c1 c2 T v :
  is_combo m k c1 -> is_combo m k c2 -> In b c1 -> In b c2 ->
  yields points c1 v -> yields points c2 v ->
  NoDup T -> length T = k ->
  incl (others b c1) T -> incl (others b c2) T ->
  incl c2 c1.
Proof.
  intros C1 C2 B1 B2 Y1 Y2 NT LT I1 I2.
  apply (yields_interpolant points m k c1 setting_x eq_refl C1) in Y1.
  apply (yields_interpolant points m k c2 setting_x eq_refl C2) in Y2.
  pose proof (combo_NoDup m k c1 C1) as N1.
  pose proof (combo_NoDup m k c2 C2) as N2.
  pose proof (others_length b c1 N1 B1) as L1.
  pose proof (others_length b c2 N2 B2) as L2.
  assert (K1 : length c1 = k) by apply C1.
  assert (K2 : length c2 = k) by apply C2.
  set (g1 := interpolant (sel points c1)).
  set (g2 := interpolant (sel points c2)).
  set (R := filter (set_has (others b c2)) (others b c1)).
  assert (LR : length (others b c1) <= S (length R)).
  { apply (near_full_overlap _ _ T); auto using others_NoDup. lia. }
  assert (E : forall t, g1 t = g2 t).
  { apply (agree_at_nodes_and_zero points k setting_x Hnz g1 g2 (b :: R)).
    - apply (polyfun_sel points m k c1 C1).
    - apply (polyfun_sel points m k c2 C2).
    - constructor; [|now apply NoDup_filter, others_NoDup].
      intros H. apply filter_In in H as [H _]. apply in_others in H. tauto.
    - intros i [<-|Hi]; [apply setting_b|].
      apply filter_In in Hi as [Hi _]. apply in_others in Hi as [Hi _].
      now apply (combo_range points m k c1).
    - cbn [length]. lia.
    - unfold g1, g2. now rewrite Y1, Y2.
    - intros i [<-|Hi]; unfold g1, g2.
      + rewrite (interpolant_through points m k c1 setting_x eq_refl C1 b B1).
        now rewrite (interpolant_through points m k c2 setting_x eq_refl C2 b B2).
      + apply filter_In in Hi as [Hi1 Hi2].
        apply set_has_in in Hi2.
        apply in_others in Hi1 as [Hi1 _]. apply in_others in Hi2 as [Hi2 _].
        rewrite (interpolant_through points m k c1 setting_x eq_refl C1 i Hi1).
        now rewrite (interpolant_through points m k c2 setting_x eq_refl C2 i Hi2). }
  intros i Hi2. destruct (in_dec Nat.eq_dec i c1) as [|Hn1]; [assumption|].
  exfalso.
  assert (Hib : i <> b) by (intros ->; contradiction).
  apply (bad_misses_good c1 (i :: others b c1) C1 B1).
  - constructor; [|now apply others_NoDup].
    intros H. apply in_others in H. tauto.
  - intros j [<-|Hj].
    + split; [now apply (combo_range points m k c2)|assumption].
    + apply in_others in Hj as [Hj Hne].
      split; [now apply (combo_range points m k c1)|assumption].
  - cbn [length]. lia.
  - intros j [<-|Hj].
    + fold g1. rewrite E. unfold g2.
      apply (interpolant_through points m k c2 setting_x eq_refl C2 i Hi2).
    + apply in_others in Hj as [Hj _].
      apply (interpolant_through points m k c1 setting_x eq_refl C1 j Hj).
Qed.

Lemma same_secret_same_subset c1 c2 T v :
  is_combo m k c1 -> is_combo m k c2 -> In b c1 -> In b c2 ->
  yields points c1 v -> yields points c2 v ->
  NoDup T -> length T = k ->
  incl (others b c1) T -> incl (others b c2) T ->
  c1 = c2.
Proof.
  intros C1 C2 B1 B2 Y1 Y2 NT LT I1 I2.
  apply increasing_ext; [apply C1|apply C2|].
  intros i. split.
  - apply (same_secret_incl c2 c1 T v); auto.
  - apply (same_secret_incl c1 c2 T v); auto.
Qed.

(** *** Trading the perturbed point for a spare index *)

Hypothesis Hspare : k + 2 <= m.

Lemma free_length c :
  is_combo m k c ->
  length (filter (fun i => negb (set_has c i)) (seq 0 m)) = m - k.
Proof.
  intros Hc. pose proof (filter_length (set_has c) (seq 0 m)) as P.
  rewrite length_seq in P.
  change (filter (set_has c) (seq 0 m)) with (sorted_of m c) in P.
  rewrite sorted_of_length in P.
  - destruct Hc as (L & _). lia.
  - now apply (combo_NoDup m k c).
  - apply Hc.
Qed.

Lemma spare_free c j :
  is_combo m k c -> j < 2 -> spare m c j < m /\ ~ In (spare m c j) c.
Proof.
  intros Hc Hj. pose proof (free_length c Hc) as L.
  assert (H : In (spare m c j) (filter (fun i => negb (set_has c i)) (seq 0 m))).
  { apply nth_In. lia. }
  apply filter_In in H as [H1 H2]. apply in_seq in H1. split; [lia|].
  intros Hin. apply set_has_in in Hin. rewrite Hin in H2. discriminate.
Qed.

Lemma spares_differ c : is_combo m k c -> spare m c 0 <> spare m c 1.
Proof.
  intros Hc E. pose proof (free_length c Hc) as L.
  assert (N : NoDup (filter (fun i => negb (set_has c i)) (seq 0 m)))
    by apply NoDup_filter, seq_NoDup.
  rewrite NoDup_nth in N. specialize (N 0 1 ltac:(lia) ltac:(lia) E). lia.
Qed.

Lemma in_trade c j i :
  is_combo m k c -> j < 2 ->
  In i (trade m b c j) <-> i = spare m c j \/ (In i c /\ i <> b).
Proof.
  intros Hc Hj. unfold trade. rewrite in_sorted_of. cbn [In].
  rewrite in_others. destruct (spare_free c j Hc Hj) as [Hs _].
  split.
  - intros [_ [E|H]]; [left; congruence|now right].
  - intros [->|[H Hne]]; (split; [|tauto]); [assumption|].
    now apply (combo_range points m k c).
Qed.

Lemma trade_combo c j :
  is_combo m k c -> In b c -> j < 2 -> is_combo m k (trade m b c j).
Proof.
  intros Hc Hb Hj. destruct (spare_free c j Hc Hj) as [Hs Hn].
  pose proof (combo_NoDup m k c Hc) as N.
  apply sorted_of_combo.
  - constructor; [|now apply others_NoDup].
    intros H. apply in_others in H. tauto.
  - intros i [<-|H]; [assumption|]. apply in_others in H as [H _].
    now apply (combo_range points m k c).
  - cbn [length]. rewrite (others_length b c N Hb). apply Hc.
Qed.

Lemma trade_good c j :
  is_combo m k c -> In b c -> j < 2 -> ~ In b (trade m b c j).
Proof.
  intros Hc Hb Hj H. apply (in_trade c j b Hc Hj) in H as [E|[_ E]].
  - destruct (spare_free c j Hc Hj) as [_ Hn]. apply Hn. now rewrite <- E.
  - now apply E.
Qed.

Lemma trade_keeps_others c j :
  is_combo m k c -> j < 2 -> incl (others b c) (trade m b c j).
Proof.
  intros Hc Hj i Hi. apply in_others in Hi.
  apply (in_trade c j i Hc Hj). now right.
Qed.

(** *** Counting the votes *)

Lemma yieldsb_true v c : yieldsb points v c = true <-> yields points c v.
Proof.
  unfold yieldsb, yields.
  destruct (interpolateAtZero (subset_of points c)) as [v'|e].
  - rewrite Z.eqb_eq. split; [now intros ->|now intros [= ->]].
  - split; discriminate.
Qed.

Lemma count_secrets v combos :
  count v (secrets points combos) = length (filter (yieldsb points v) combos).
Proof.
  unfold count. induction combos as [|c combos IH]; [reflexivity|].
  rewrite secrets_cons. cbn [filter]. unfold yieldsb at 1.
  destruct (interpolateAtZero (subset_of points c)) as [v'|e]; [|assumption].
  cbn [count_occ]. destruct (Z.eq_dec v' v) as [->|Hne].
  - rewrite Z.eqb_refl. cbn [length]. now f_equal.
  - destruct (Z.eqb_spec v' v); [contradiction|assumption].
Qed.

Let combos := subseqs 0 m k.

Lemma in_combos c : In c combos <-> is_combo m k c.
Proof. apply in_subseqs. Qed.

Lemma voters_of_wrong v c :
  v <> s -> In c (filter (yieldsb points v) combos) ->
  is_combo m k c /\ In b c /\ yields points c v.
Proof.
  intros Hv H. apply filter_In in H as [Hc Y].
  apply in_combos in Hc. apply yieldsb_true in Y.
  split; [assumption|]. split; [|assumption].
  destruct (in_dec Nat.eq_dec b c) as [|Hn]; [assumption|].
  exfalso. apply Hv. pose proof (good_yields c Hc Hn) as Y'.
  unfold yields in *. congruence.
Qed.

Lemma trade_votes_secret c j :
  is_combo m k c -> In b c -> j < 2 ->
  In (trade m b c j) (filter (yieldsb points s) combos).
Proof.
  intros Hc Hb Hj. apply filter_In. split.
  - apply in_combos. now apply trade_combo.
  - apply yieldsb_true, good_yields; [now apply trade_combo|now apply trade_good].
Qed.

Lemma trade_injective v c1 c2 j1 j2 :
  v <> s -> j1 < 2 -> j2 < 2 ->
  In c1 (filter (yieldsb points v) combos) ->
  In c2 (filter (yieldsb points v) combos) ->
  trade m b c1 j1 = trade m b c2 j2 -> c1 = c2.
Proof.
  intros Hv H1 H2 V1 V2 E.
  destruct (voters_of_wrong v c1 Hv V1) as (C1 & B1 & Y1).
  destruct (voters_of_wrong v c2 Hv V2) as (C2 & B2 & Y2).
  pose proof (trade_combo c1 j1 C1 B1 H1) as CT.
  apply (same_secret_same_subset c1 c2 (trade m b c1 j1) v); auto.
  - now apply (combo_NoDup m k _ CT).
  - apply CT.
  - now apply trade_keeps_others.
  - rewrite E. now apply trade_keeps_others.
Qed.

(** Every wrong secret has at most half the votes of the true one. *)
Lemma wrong_secret_outvoted v :
  v <> s ->
  2 * length (filter (yieldsb points v) combos)
  <= length (filter (yieldsb points s) combos).
Proof.
  intros Hv. set (Bv := filter (yieldsb points v) combos).
  set (L := map (fun c => trade m b c 0) Bv ++ map (fun c => trade m b c 1) Bv).
  assert (NB : NoDup Bv) by apply NoDup_filter, subseqs_NoDup.
  assert (NL : NoDup L).
  { apply NoDup_app.
    - apply NoDup_map_in; [|assumption]. intros c1 c2 V1 V2.
      apply (trade_injective v); auto.
    - apply NoDup_map_in; [|assumption]. intros c1 c2 V1 V2.
      apply (trade_injective v); auto.
    - intros T H0 H1.
      apply in_map_iff in H0 as (c1 & E1 & V1).
      apply in_map_iff in H1 as (c2 & E2 & V2).
      assert (c1 = c2) by (apply (trade_injective v c1 c2 0 1); auto; congruence).
      subst c2. destruct (voters_of_wrong v c1 Hv V1) as (C1 & B1 & _).
      assert (Hin : In (spare m c1 0) (trade m b c1 1)).
      { rewrite E2, <- E1. apply (in_trade c1 0); auto. }
      apply (in_trade c1 1) in Hin as [E|[Hin _]]; auto.
      + now apply (spares_differ c1).
      + destruct (spare_free c1 0 C1 ltac:(lia)) as [_ Hn]. contradiction. }
  assert (IL : incl L (filter (yieldsb points s) combos)).
  { intros T H. apply in_app_or in H as [H|H];
      apply in_map_iff in H as (c & <- & V);
      destruct (voters_of_wrong v c Hv V) as (C & B & _);
      apply trade_votes_secret; auto; lia. }
  pose proof (NoDup_incl_length NL IL) as Q.
  unfold L in Q. rewrite length_app, !length_map in Q. fold Bv. lia.
Qed.

(** Every unperturbed index sits in some subset without the perturbed one. *)
Lemma good_subset_with i :
  i < m -> i <> b ->
  exists c, is_combo m k c /\ ~ In b c /\ In i c.
Proof.
  intros Hi Hne.
  set (pool := others i (others b (seq 0 m))).
  assert (NP : NoDup pool) by (apply others_NoDup, others_NoDup, seq_NoDup).
  assert (LP : k - 1 <= length pool).
  { pose proof (others_length b (seq 0 m) (seq_NoDup m 0)) as L1.
    rewrite length_seq in L1. specialize (L1 ltac:(apply in_seq; pose proof setting_b; lia)).
    pose proof (others_length i (others b (seq 0 m))
                  (others_NoDup b _ (seq_NoDup m 0))) as L2.
    specialize (L2 ltac:(apply in_others; split; [apply in_seq; lia|assumption])).
    fold pool in L2. lia. }
  set (l := i :: firstn (k - 1) pool).
  assert (Inl : forall j, In j l -> j < m /\ j <> b).
  { intros j [<-|Hj]; [now split|].
    apply in_firstn in Hj. unfold pool in Hj.
    apply in_others in Hj as [Hj _]. apply in_others in Hj as [Hj Hjb].
    apply in_seq in Hj. split; [lia|assumption]. }
  exists (sorted_of m l). split; [|split].
  - apply sorted_of_combo.
    + constructor; [|now apply NoDup_firstn].
      intros H. apply in_firstn in H. unfold pool in H.
      apply in_others in H. tauto.
    + intros j Hj. now apply Inl.
    + unfold l. cbn [length]. rewrite length_firstn. pose proof setting_k. lia.
  - intros H. apply in_sorted_of in H as [_ H]. apply Inl in H. tauto.
  - apply in_sorted_of. split; [assumption|now left].
Qed.

Lemma secret_is_voted : In s (secrets points combos).
Proof.
  assert (H : exists i, i < m /\ i <> b).
  { destruct (Nat.eq_dec b 0) as [->|]; [exists 1|exists 0]; lia. }
  destruct H as (i & Hi & Hne).
  destruct (good_subset_with i Hi Hne) as (c & Hc & Hb & _).
  apply in_secrets. exists c. split; [now apply in_combos|now apply good_yields].
Qed.

Lemma secret_wins : fst (pick_best (cFreq (tally_of points combos))) = Some s.
Proof.
  unfold tally_of. rewrite cFreq_visit_all. cbn [cFreq empty_tally].
  pose proof secret_is_voted as Hs.
  destruct (winner_of_secrets (secrets points combos)) as (w & W & Hw & Max).
  { intros E. rewrite E in Hs. destruct Hs. }
  rewrite W. f_equal.
  destruct (Z.eq_dec w s) as [|Hne]; [assumption|exfalso].
  pose proof (wrong_secret_outvoted w Hne) as Q.
  rewrite <- !count_secrets in Q.
  assert (P : 1 <= count s (secrets points combos)).
  { unfold count. apply count_occ_In. exact Hs. }
  destruct (Max s Hs ltac:(congruence)) as [H|[H _]]; lia.
Qed.

Lemma on_record_iff i :
  i < m ->
  set_has (members_of (cMembers (tally_of points combos)) s) i = true <-> i <> b.
Proof.
  intros Hi. rewrite set_has_in. unfold tally_of.
  rewrite members_visit_all. cbn [cMembers empty_tally members_of map_get].
  split.
  - intros [[]|(c & Hc & Y & Hin)] ->.
    apply in_combos in Hc. now apply (bad_never_yields_secret c).
  - intros Hne. right.
    destruct (good_subset_with i Hi Hne) as (c & Hc & Hb & Hin).
    exists c. split; [now apply in_combos|]. split; [now apply good_yields|assumption].
Qed.

(** The run ends with the true secret and the perturbed point as the one
    outlier. *)
Lemma recovered : recovers points k coeffs b.
Proof.
  intros fuel n Hf Hn. fold m in Hf, Hn.
  pose proof setting_k as Hk.
  pose proof (reconstruct_finite fuel n (Z.of_nat k) points ltac:(lia)) as R.
  cbv zeta in R. rewrite Nat2Z.id in R.
  replace (Nat.min (length points) (Z.to_nat n)) with m in R by (unfold m; lia).
  fold combos in R.
  destruct (R ltac:(lia) Hf) as (_ & _ & R').
  destruct R' as (w & W & ->).
  { intros F. pose proof secret_is_voted as Hs.
    apply in_secrets in Hs as (c & Hc & Y).
    rewrite Forall_forall in F. destruct (F c Hc) as (e & E).
    unfold yields in Y. congruence. }
  rewrite secret_wins in W. injection W as <-.
  do 3 f_equal. unfold outliers_of, m.
  apply (outliers_single _ points 0 b setting_b).
  intros i Hi. cbn [Nat.add]. now apply on_record_iff.
Qed.

End OnePerturbed.

(** C2, as the code has it. For [k >= 2] and [m >= k + 2] points with
    pairwise distinct, non-zero abscissas, of which all but one lie on an
    integer polynomial of degree at most [k - 1] and that one does not, the
    reconstruction ends with the polynomial's value at 0 as the winning
    secret and with exactly the perturbed point as outlier. *)
Theorem robust_with_two_spare_points points k coeffs b :
  one_perturbed points k coeffs b ->
  nonzero_xs points ->
  k + 2 <= length points ->
  recovers points k coeffs b.
Proof.
  intros S NZ M. now apply recovered.
Qed.

Lemma robust_with_two_spare_points_witness :
  reconstruct 6 4 2
    [mkPoint 1 5 "1"; mkPoint 2 3 "2"; mkPoint 3 4 "3"; mkPoint 4 5 "4"]
  = Some (Ok (1%Z, [mkPoint 1 5 "1"])).
Proof.
  apply (robust_with_two_spare_points
           [mkPoint 1 5 "1"; mkPoint 2 3 "2"; mkPoint 3 4 "3"; mkPoint 4 5 "4"]
           2 [1; 1]%Z 0).
  - unfold one_perturbed. simpl. repeat split; try lia.
    + repeat constructor; simpl; intuition lia.
    + unfold on_poly. simpl. lia.
    + intros [|[|[|[|i]]]] Hi Hne; try lia; reflexivity.
  - repeat constructor; simpl; lia.
  - simpl. lia.
  - simpl. lia.
  - simpl. lia.
Defined.

(** With only [k + 1] points the single unperturbed subset has one vote,
    like any subset with the perturbed point that interpolates to an
    integer, and the first one seen wins: [(1,5)] is off [x + 1], the
    subset [(1,5),(2,3)] is visited first and its secret 7 is returned
    instead of 1, with the good point [(3,4)] as outlier. With a point at
    [x = 0] every subset holding it returns its ordinate, so the perturbed
    point [(3,100)] is on record for the winning secret 5 and no outlier is
    reported. *)
Lemma robust_claim_counterexample :
  ~ robust_claim 1 (fun _ => True) /\
  ~ robust_claim 1 nonzero_xs /\
  ~ robust_claim 2 (fun _ => True).
Proof.
  assert (A : ~ robust_claim 1 nonzero_xs).
  { intros H.
    specialize (H [mkPoint 1 5 "1"; mkPoint 2 3 "2"; mkPoint 3 4 "3"]
                  2 [1; 1]%Z 0).
    assert (S : one_perturbed
                  [mkPoint 1 5 "1"; mkPoint 2 3 "2"; mkPoint 3 4 "3"]
                  2 [1; 1]%Z 0).
    { unfold one_perturbed. simpl. repeat split; try lia.
      - repeat constructor; simpl; intuition lia.
      - unfold on_poly. simpl. lia.
      - intros [|[|[|i]]] Hi Hne; try lia; reflexivity. }
    specialize (H S ltac:(repeat constructor; simpl; lia) ltac:(simpl; lia)
                  3 3%Z ltac:(simpl; lia) ltac:(simpl; lia)).
    vm_compute in H. discriminate. }
  split; [|split; [exact A|]].
  - intros H. apply A. intros points k coeffs b S _ M.
    now apply H.
  - intros H.
    specialize (H [mkPoint 0 5 "0"; mkPoint 1 6 "1"; mkPoint 2 7 "2";
                   mkPoint 3 100 "3"] 2 [5; 1]%Z 3).
    assert (S : one_perturbed
                  [mkPoint 0 5 "0"; mkPoint 1 6 "1"; mkPoint 2 7 "2";
                   mkPoint 3 100 "3"] 2 [5; 1]%Z 3).
    { unfold one_perturbed. simpl. repeat split; try lia.
      - repeat constructor; simpl; intuition lia.
      - unfold on_poly. simpl. lia.
      - intros [|[|[|[|i]]]] Hi Hne; try lia; reflexivity. }
    specialize (H S I ltac:(simpl; lia) 6 4%Z ltac:(simpl; lia) ltac:(simpl; lia)).
    vm_compute in H. discriminate.
Qed.

End RobustFacts.

(** ** Worked inputs *)

Module Examples.
Import Interpolator Enumerator Reconstructor.

(** Three points on [x^2 + 3], [k = 3]: one subset, one vote. *)
Example exact_fit :
  reconstruct 1 3 3 [mkPoint 1 4 "1"; mkPoint 2 7 "2"; mkPoint 3 12 "3"]
  = Some (Ok (3, [])).
Proof. vm_compute. reflexivity. Qed.

(** The same with a fourth, perturbed point in last place: the unperturbed
    subset is visited first and wins the three-way tie. *)
Example perturbed_last :
  reconstruct 4 4 3
    [mkPoint 1 4 "1"; mkPoint 2 7 "2"; mkPoint 3 12 "3"; mkPoint 4 99 "4"]
  = Some (Ok (3, [mkPoint 4 99 "4"])).
Proof. vm_compute. reflexivity. Qed.

(** A tie between 0 and 12, two votes each. 12 has its two votes after the
    fifth subset and 0 only after the sixth, but 0 was recorded first and
    is the winner. *)
Example tie_goes_to_first_seen :
  secrets [mkPoint 12 24 "12"; mkPoint 6 12 "6"; mkPoint 4 16 "4";
           mkPoint 3 12 "3"] (subseqs 0 4 2)
  = [0; 12; 8; 24; 12; 0] /\
  reconstruct 6 4 2
    [mkPoint 12 24 "12"; mkPoint 6 12 "6"; mkPoint 4 16 "4"; mkPoint 3 12 "3"]
  = Some (Ok (0, [])).
Proof. split; vm_compute; reflexivity. Qed.

Example threshold_below_two :
  reconstruct 1 3 1 [mkPoint 1 4 "1"; mkPoint 2 7 "2"; mkPoint 3 12 "3"]
  = Some (Throw InvalidParams).
Proof. reflexivity. Qed.

Example six_subsets : combinations 6 4 2 =
  ([[0; 1]; [0; 2]; [0; 3]; [1; 2]; [1; 3]; [2; 3]]%nat, true).
Proof. reflexivity. Qed.

End Examples.


(** * Further properties of the code *)

(** ** Digit decoder: composition, bounds *)

Module DecoderMore.
Import Decoder DecoderFacts.

Lemma charToVal_range ch v : charToVal ch = Ok v -> 0 <= v < 36.
Proof.
  rewrite charToVal_digitValue. unfold digitValue.
  pose proof (code_range ch).
  destruct ((48 <=? code ch) && (code ch <=? 57)) eqn:A;
    [intros [= <-]; lia|].
  destruct ((97 <=? code ch) && (code ch <=? 122)) eqn:B;
    [intros [= <-]; lia|].
  destruct ((65 <=? code ch) && (code ch <=? 90)) eqn:C;
    [intros [= <-]; lia|discriminate].
Qed.

(** The accumulator only shifts the result: what the loop returns from
    [acc] is what it returns from 0, plus [acc] moved left by the length. *)
Lemma decode_loop_shift base str : forall acc,
  decode_loop base str acc =
  b <- decode_loop base str 0 ;;
  Ok (acc * base ^ Z.of_nat (String.length str) + b).
Proof.
  induction str as [|ch rest IH]; intros acc; cbn [decode_loop String.length].
  - cbn [bind]. f_equal. simpl. lia.
  - destruct (charToVal ch) as [v|e]; [|reflexivity]. cbn [bind].
    destruct (v >=? base); [reflexivity|].
    rewrite (IH (acc * base + v)), (IH (0 * base + v)).
    destruct (decode_loop base rest 0) as [b|e]; [|reflexivity]. cbn [bind].
    f_equal. rewrite Nat2Z.inj_succ, Z.pow_succ_r by lia. ring.
Qed.



Lemma decode_loop_bounds base str : forall v,
  decode_loop base str 0 = Ok v -> 0 <= v < base ^ Z.of_nat (String.length str).
Proof.
  induction str as [|ch rest IH]; intros v; cbn [decode_loop String.length].
  - intros [= <-]. simpl. lia.
  - destruct (charToVal ch) as [d|e] eqn:D; [|discriminate]. cbn [bind].
    rewrite Z.geb_leb. destruct (Z.leb_spec base d); [discriminate|].
    rewrite decode_loop_shift.
    destruct (decode_loop base rest 0) as [b|e]; [|discriminate]. cbn [bind].
    intros [= <-]. specialize (IH b eq_refl).
    pose proof (charToVal_range ch d D).
    rewrite Nat2Z.inj_succ, Z.pow_succ_r by lia. nia.
Qed.

(** X2. A decoded value is non-negative and has no more base-[base] digits
    than the string has characters. *)
Theorem decode_bounds str base v :
  decodeBaseToBigInt str base = Ok v ->
  0 <= v < base ^ Z.of_nat (String.length str).
Proof. apply decode_loop_bounds. Qed.

Lemma decode_bounds_witness :
  0 <= 255 < 16 ^ Z.of_nat (String.length "ff").
Proof.
  apply (decode_bounds "ff" 16 255). reflexivity.
Defined.

End DecoderMore.

(** ** The digit decoder on any string *)

Module CodePointsFacts.
Import CodePoints.

(** Case analysis on the comparisons of the goal. *)
Ltac split_tests :=
  repeat match goal with
         | |- context [?a <=? ?b] => destruct (Z.leb_spec a b)
         | |- context [?a =? ?b] => destruct (Z.eqb_spec a b)
         end;
  cbn [andb].

Lemma basic_casing_unicode : unicode_casing basic_casing.
Proof.
  unfold unicode_casing, basic_casing, KELVIN_SIGN, CAPITAL_I_DOT.
  split; [|split; [reflexivity|split; [reflexivity|]]].
  - intros ch H.
    destruct (Z.eqb_spec ch 8490); [lia|].
    destruct (Z.eqb_spec ch 304); [lia|].
    destruct ((65 <=? ch) && (ch <=? 90)); reflexivity.
  - intros ch H N1 N2.
    destruct (Z.eqb_spec ch 8490); [contradiction|].
    destruct (Z.eqb_spec ch 304); [contradiction|].
    replace ((65 <=? ch) && (ch <=? 90)) with false by lia.
    exists ch, []. split; [reflexivity|lia].
Qed.

Lemma fold_cases ch :
  (65 <= ch <= 90 /\ fold ch = ch + 32) \/
  (ch = KELVIN_SIGN /\ fold ch = 107) \/
  (ch = CAPITAL_I_DOT /\ fold ch = 105) \/
  (~ 65 <= ch <= 90 /\ ch <> KELVIN_SIGN /\ ch <> CAPITAL_I_DOT /\ fold ch = ch).
Proof.
  unfold fold, KELVIN_SIGN, CAPITAL_I_DOT.
  destruct (Z.leb_spec 65 ch), (Z.leb_spec ch 90); cbn [andb]; try lia;
    destruct (Z.eqb_spec ch 8490); try lia;
    destruct (Z.eqb_spec ch 304); lia.
Qed.

(** A one-unit string against a one-unit bound. *)
Lemma unit_in_range u lo hi :
  str_ge [u] [lo] && str_le [u] [hi] = (lo <=? u) && (u <=? hi).
Proof.
  unfold str_ge, str_le. cbn [compare_units].
  destruct (Z.compare_spec u lo), (Z.compare_spec u hi),
           (Z.leb_spec lo u), (Z.leb_spec u hi); try reflexivity; lia.
Qed.

(** A string that begins above the bound is above it. *)
Lemma above_bound u rest hi : hi < u -> str_le (u :: rest) [hi] = false.
Proof.
  intros H. unfold str_le. cbn [compare_units].
  destruct (Z.compare_spec u hi); reflexivity || lia.
Qed.

Section Table.
Variable lower : Z -> list Z.
Hypothesis casing : unicode_casing lower.

(** What the code takes a character for: the digit of the letter it
    folds to. *)
Lemma charToVal_fold ch :
  code_point ch ->
  charToVal lower ch =
  match digitValue (fold ch) with
  | Some v => inl v
  | None => inr (InvalidDigitAt ch)
  end.
Proof.
  destruct casing as (A & K & D & O). intros [H0 H1]. unfold charToVal.
  destruct (Z.eq_dec ch KELVIN_SIGN) as [->|NK]; [rewrite K; reflexivity|].
  destruct (Z.eq_dec ch CAPITAL_I_DOT) as [->|ND]; [rewrite D; reflexivity|].
  unfold KELVIN_SIGN, CAPITAL_I_DOT in NK, ND.
  destruct (Z_lt_le_dec ch 128) as [L|G].
  - rewrite (A ch) by lia. rewrite !unit_in_range. cbn [nth].
    unfold fold, digitValue, KELVIN_SIGN, CAPITAL_I_DOT.
    destruct (Z.leb_spec 65 ch), (Z.leb_spec ch 90); cbn [andb].
    + replace ((48 <=? ch + 32) && (ch + 32 <=? 57)) with false by lia.
      replace ((97 <=? ch + 32) && (ch + 32 <=? 122)) with true by lia.
      f_equal. lia.
    + destruct (Z.eqb_spec ch 8490); [lia|]. destruct (Z.eqb_spec ch 304); [lia|].
      destruct ((48 <=? ch) && (ch <=? 57)); [reflexivity|].
      destruct ((97 <=? ch) && (ch <=? 122)); [f_equal; lia|].
      replace ((65 <=? ch) && (ch <=? 90)) with false by lia. reflexivity.
    + destruct (Z.eqb_spec ch 8490); [lia|]. destruct (Z.eqb_spec ch 304); [lia|].
      destruct ((48 <=? ch) && (ch <=? 57)); [reflexivity|].
      destruct ((97 <=? ch) && (ch <=? 122)); [f_equal; lia|].
      replace ((65 <=? ch) && (ch <=? 90)) with false by lia. reflexivity.
    + destruct (Z.eqb_spec ch 8490); [lia|]. destruct (Z.eqb_spec ch 304); [lia|].
      destruct ((48 <=? ch) && (ch <=? 57)); [reflexivity|].
      destruct ((97 <=? ch) && (ch <=? 122)); [f_equal; lia|].
      replace ((65 <=? ch) && (ch <=? 90)) with false by lia. reflexivity.
  - destruct (O ch) as (u & rest & -> & Hu); [lia|assumption|assumption|].
    rewrite !above_bound by lia. rewrite !andb_false_r.
    unfold fold, digitValue, KELVIN_SIGN, CAPITAL_I_DOT.
    replace ((65 <=? ch) && (ch <=? 90)) with false by lia.
    destruct (Z.eqb_spec ch 8490); [lia|]. destruct (Z.eqb_spec ch 304); [lia|].
    replace ((48 <=? ch) && (ch <=? 57)) with false by lia.
    replace ((97 <=? ch) && (ch <=? 122)) with false by lia.
    replace ((65 <=? ch) && (ch <=? 90)) with false by lia. reflexivity.
Qed.

End Table.

Lemma digit_range ch v : digitValue ch = Some v -> 0 <= v < 36.
Proof.
  unfold digitValue.
  destruct (Z.leb_spec 48 ch), (Z.leb_spec ch 57); cbn [andb];
    try (intros [= <-]; lia);
    destruct (Z.leb_spec 97 ch), (Z.leb_spec ch 122); cbn [andb];
    try (intros [= <-]; lia);
    destruct (Z.leb_spec 65 ch), (Z.leb_spec ch 90); cbn [andb];
    try (intros [= <-]; lia); discriminate.
Qed.

Lemma accepted_fold ch :
  accepted ch <-> exists v, digitValue (fold ch) = Some v.
Proof.
  unfold accepted, alphanumeric.
  destruct (fold_cases ch) as [[R ->]|[[-> ->]|[[-> ->]|(R & NK & ND & ->)]]];
    try solve [split; [intros _; cbn; eauto|intros _; unfold KELVIN_SIGN, CAPITAL_I_DOT; lia]].
  - unfold digitValue.
    replace ((48 <=? ch + 32) && (ch + 32 <=? 57)) with false by lia.
    replace ((97 <=? ch + 32) && (ch + 32 <=? 122)) with true by lia.
    split; [eauto|lia].
  - unfold digitValue. split_tests;
      (split; [intros Acc|intros [v E]]);
      first [ solve [eauto] | discriminate | lia | (exfalso; lia) ].
Qed.

(** Two letters with the same digit are the same letter. *)
Lemma same_digit_same_fold a b v :
  digitValue (fold a) = Some v -> digitValue (fold b) = Some v ->
  fold a = fold b.
Proof.
  assert (F : forall ch, ~ 65 <= fold ch <= 90).
  { intros ch. unfold fold, KELVIN_SIGN, CAPITAL_I_DOT.
    destruct (Z.leb_spec 65 ch), (Z.leb_spec ch 90); cbn [andb]; try lia;
      destruct (Z.eqb_spec ch 8490); try lia;
      destruct (Z.eqb_spec ch 304); lia. }
  pose proof (F a) as Fa. pose proof (F b) as Fb.
  generalize dependent (fold b). generalize dependent (fold a).
  intros x Fx y Fy. unfold digitValue.
  destruct (Z.leb_spec 48 x), (Z.leb_spec x 57),
           (Z.leb_spec 97 x), (Z.leb_spec x 122),
           (Z.leb_spec 65 x), (Z.leb_spec x 90); cbn [andb]; try lia;
    try discriminate;
    destruct (Z.leb_spec 48 y), (Z.leb_spec y 57),
             (Z.leb_spec 97 y), (Z.leb_spec y 122),
             (Z.leb_spec 65 y), (Z.leb_spec y 90); cbn [andb]; try lia;
    try discriminate; intros [= <-] [= E]; lia.
Qed.

Section Decoding.
Variable lower : Z -> list Z.
Hypothesis casing : unicode_casing lower.

Lemma decode_loop_rejects base str : forall acc,
  Forall code_point str ->
  (exists e, decode_loop lower base str acc = inr e) <->
  Exists (rejected base) str.
Proof.
  induction str as [|ch rest IH]; intros acc P; cbn [decode_loop].
  - split; [intros [e E]; discriminate|intros E; inversion E].
  - inversion P as [|? ? Pc Pr]; subst.
    rewrite (charToVal_fold lower casing ch Pc).
    destruct (digitValue (fold ch)) as [v|] eqn:Dv.
    + rewrite Z.geb_leb. destruct (Z.leb_spec base v) as [G|L].
      * split; [intros _|eauto]. apply Exists_cons_hd. right.
        exists v. split; [assumption|lia].
      * rewrite (IH _ Pr). split; [apply Exists_cons_tl|].
        intros E. inversion E as [? ? [Na|(v' & Dv' & G)]|]; subst;
          [|congruence|assumption].
        exfalso. apply Na. apply accepted_fold. eauto.
    + split; [intros _|eauto]. apply Exists_cons_hd. left.
      intros A. apply accepted_fold in A as [v E]. congruence.
Qed.

Lemma decode_loop_shifted base str : forall acc,
  decode_loop lower base str acc =
  match decode_loop lower base str 0 with
  | inl b => inl (acc * base ^ Z.of_nat (length str) + b)
  | inr e => inr e
  end.
Proof.
  induction str as [|ch rest IH]; intros acc; cbn [decode_loop length].
  - f_equal. cbn. lia.
  - destruct (charToVal lower ch) as [v|e]; [|reflexivity].
    destruct (v >=? base); [reflexivity|].
    rewrite (IH (acc * base + v)), (IH (0 * base + v)).
    destruct (decode_loop lower base rest 0); [|reflexivity].
    f_equal. rewrite Nat2Z.inj_succ, Z.pow_succ_r by lia. ring.
Qed.

Lemma decode_loop_below base str : forall v,
  Forall code_point str ->
  decode_loop lower base str 0 = inl v ->
  0 <= v < base ^ Z.of_nat (length str).
Proof.
  induction str as [|ch rest IH]; intros v P; cbn [decode_loop length].
  - intros [= <-]. cbn. lia.
  - inversion P as [|? ? Pc Pr]; subst.
    rewrite (charToVal_fold lower casing ch Pc).
    destruct (digitValue (fold ch)) as [d|] eqn:Dv; [|discriminate].
    rewrite Z.geb_leb. destruct (Z.leb_spec base d); [discriminate|].
    rewrite decode_loop_shifted.
    destruct (decode_loop lower base rest 0) as [w|] eqn:E; [|discriminate].
    intros [= <-]. specialize (IH w Pr eq_refl).
    pose proof (digit_range _ _ Dv).
    rewrite Nat2Z.inj_succ, Z.pow_succ_r by lia. nia.
Qed.

Lemma decode_loop_same_letters base s : forall t v,
  Forall code_point s -> Forall code_point t ->
  length s = length t ->
  decode_loop lower base s 0 = inl v -> decode_loop lower base t 0 = inl v ->
  map fold s = map fold t.
Proof.
  induction s as [|a s IH]; intros [|b t] v Ps Pt L; try discriminate;
    [reflexivity|].
  inversion Ps as [|? ? Pa Ps']; inversion Pt as [|? ? Pb Pt']; subst.
  cbn [decode_loop map].
  rewrite (charToVal_fold lower casing a Pa), (charToVal_fold lower casing b Pb).
  destruct (digitValue (fold a)) as [da|] eqn:Da; [|discriminate].
  destruct (digitValue (fold b)) as [db|] eqn:Db; [|discriminate].
  rewrite !Z.geb_leb.
  destruct (Z.leb_spec base da); [discriminate|].
  destruct (Z.leb_spec base db); [discriminate|].
  rewrite (decode_loop_shifted base s), (decode_loop_shifted base t).
  destruct (decode_loop lower base s 0) as [vs|] eqn:Es; [|discriminate].
  destruct (decode_loop lower base t 0) as [vt|] eqn:Et; [|discriminate].
  intros [= <-] [= E]. injection L as L. rewrite <- L in E.
  pose proof (decode_loop_below base s vs Ps' Es) as Bs.
  pose proof (decode_loop_below base t vt Pt' Et) as Bt. rewrite <- L in Bt.
  pose proof (digit_range _ _ Da). pose proof (digit_range _ _ Db).
  set (P := base ^ Z.of_nat (length s)) in *.
  assert (da = db) by nia. subst db.
  assert (vs = vt) by nia. subst vt.
  f_equal.
  - eapply same_digit_same_fold; eassumption.
  - eapply IH; eauto.
Qed.

Lemma decode_loop_through base pre : forall acc a rest,
  decode_loop lower base pre acc = inl a ->
  decode_loop lower base (pre ++ rest) acc = decode_loop lower base rest a.
Proof.
  induction pre as [|ch pre IH]; intros acc a rest; cbn [decode_loop app].
  - now intros [= <-].
  - destruct (charToVal lower ch) as [v|e]; [|discriminate].
    destruct (v >=? base); [discriminate|]. apply IH.
Qed.

End Decoding.

(** On strings of code units below 256 the decoder of [Decoder] and this
    one return the same values. *)
Lemma latin1_char_agrees lower (a : Ascii.ascii) :
  unicode_casing lower ->
  charToVal lower (Decoder.code a) =
  match Decoder.charToVal a with
  | Ok v => inl v
  | Throw _ => inr (InvalidDigitAt (Decoder.code a))
  end.
Proof.
  intros C. pose proof (DecoderFacts.code_range a) as R.
  rewrite (charToVal_fold lower C) by (unfold code_point; lia).
  rewrite DecoderFacts.charToVal_digitValue.
  unfold Decoder.digitValue, digitValue, fold, KELVIN_SIGN, CAPITAL_I_DOT.
  set (n := Decoder.code a) in *.
  destruct (Z.leb_spec 65 n), (Z.leb_spec n 90); cbn [andb].
  - replace ((48 <=? n + 32) && (n + 32 <=? 57)) with false by lia.
    replace ((97 <=? n + 32) && (n + 32 <=? 122)) with true by lia.
    replace ((48 <=? n) && (n <=? 57)) with false by lia.
    replace ((97 <=? n) && (n <=? 122)) with false by lia.
    f_equal. lia.
  - destruct (Z.eqb_spec n 8490); [lia|]. destruct (Z.eqb_spec n 304); [lia|].
    destruct ((48 <=? n) && (n <=? 57)); [reflexivity|].
    destruct ((97 <=? n) && (n <=? 122)); [reflexivity|].
    replace ((65 <=? n) && (n <=? 90)) with false by lia. reflexivity.
  - destruct (Z.eqb_spec n 8490); [lia|]. destruct (Z.eqb_spec n 304); [lia|].
    destruct ((48 <=? n) && (n <=? 57)); [reflexivity|].
    destruct ((97 <=? n) && (n <=? 122)); [reflexivity|].
    replace ((65 <=? n) && (n <=? 90)) with false by lia. reflexivity.
  - lia.
Qed.

Lemma latin1_loop_agrees lower base str :
  unicode_casing lower ->
  forall acc v,
    Decoder.decode_loop base str acc = Ok v <->
    decode_loop lower base (map Decoder.code (Decoder.chars str)) acc = inl v.
Proof.
  intros C. induction str as [|ch rest IH]; intros acc v;
    cbn [Decoder.decode_loop Decoder.chars map decode_loop].
  - split; intros [= <-]; reflexivity.
  - rewrite (latin1_char_agrees lower ch C).
    destruct (Decoder.charToVal ch) as [d|e]; cbn [bind];
      [|split; discriminate].
    destruct (d >=? base); [split; discriminate|]. apply IH.
Qed.

Lemma digit_fold ch :
  ch <> KELVIN_SIGN -> ch <> CAPITAL_I_DOT ->
  digitValue (fold ch) = digitValue ch.
Proof.
  intros NK ND.
  destruct (fold_cases ch) as [[R ->]|[[E _]|[[E _]|(_ & _ & _ & ->)]]];
    try contradiction; [|reflexivity].
  unfold digitValue.
  replace ((48 <=? ch + 32) && (ch + 32 <=? 57)) with false by lia.
  replace ((97 <=? ch + 32) && (ch + 32 <=? 122)) with true by lia.
  replace ((48 <=? ch) && (ch <=? 57)) with false by lia.
  replace ((97 <=? ch) && (ch <=? 122)) with false by lia.
  replace ((65 <=? ch) && (ch <=? 90)) with true by lia.
  f_equal. lia.
Qed.

(** Apart from the two characters, the code rejects what the spec calls a
    bad digit. *)
Lemma rejected_bad_digit base ch :
  ch <> KELVIN_SIGN -> ch <> CAPITAL_I_DOT ->
  rejected base ch <-> bad_digit base ch.
Proof.
  intros NK ND. unfold rejected, bad_digit, accepted.
  rewrite (digit_fold ch NK ND). tauto.
Qed.

(** C8. The claim's "if and only if" fails on the code. The Kelvin sign
    U+212A and the dotted capital I U+0130 are no alphanumeric digits, yet
    the range test sees their lower case, [k] and [i] followed by U+0307,
    and the decoder returns 20 and 18 instead of throwing. On every other
    character the code does what the claim says: a string without the two
    fails exactly when one of its characters is not alphanumeric or is a
    digit [>= base], and ["g"] fails in base 16. With the two, a string
    fails exactly when it holds a character that is neither alphanumeric
    nor one of them, or whose digit is [>= base]. *)
Theorem decode_accepts_two_non_alphanumerics lower :
  unicode_casing lower ->
  (~ alphanumeric KELVIN_SIGN /\
   forall base, 20 < base ->
     decodeBaseToBigInt lower [KELVIN_SIGN] base = inl 20) /\
  (~ alphanumeric CAPITAL_I_DOT /\
   forall base, 18 < base ->
     decodeBaseToBigInt lower [CAPITAL_I_DOT] base = inl 18) /\
  (forall str base,
     Forall code_point str ->
     ~ In KELVIN_SIGN str -> ~ In CAPITAL_I_DOT str ->
     ((exists e, decodeBaseToBigInt lower str base = inr e) <->
      Exists (bad_digit base) str)) /\
  (forall str base,
     Forall code_point str ->
     ((exists e, decodeBaseToBigInt lower str base = inr e) <->
      Exists (rejected base) str)) /\
  decodeBaseToBigInt lower [103] 16 = inr (DigitGeBaseAt 103 16).
Proof.
  intros C.
  assert (One : forall ch, code_point ch ->
            forall v, digitValue (fold ch) = Some v ->
            forall base, v < base ->
            decodeBaseToBigInt lower [ch] base = inl v).
  { intros ch P v D base L. unfold decodeBaseToBigInt. cbn [decode_loop].
    rewrite (charToVal_fold lower C ch P), D, Z.geb_leb.
    destruct (Z.leb_spec base v); [lia|]. f_equal; lia. }
  split; [|split; [|split; [|split]]].
  - split; [unfold alphanumeric, KELVIN_SIGN; lia|].
    intros base L. apply One; [unfold code_point, KELVIN_SIGN; lia|reflexivity|lia].
  - split; [unfold alphanumeric, CAPITAL_I_DOT; lia|].
    intros base L. apply One; [unfold code_point, CAPITAL_I_DOT; lia|reflexivity|lia].
  - intros str base P NK ND. unfold decodeBaseToBigInt.
    rewrite (decode_loop_rejects lower C base str 0 P), !Exists_exists.
    split; intros (ch & Hin & R); exists ch; (split; [assumption|]);
      (apply (rejected_bad_digit base ch); [congruence|congruence|assumption]).
  - intros str base P. apply (decode_loop_rejects lower C base str 0 P).
  - unfold decodeBaseToBigInt. cbn [decode_loop].
    rewrite (charToVal_fold lower C 103) by (unfold code_point; lia).
    reflexivity.
Qed.

Lemma decode_accepts_two_non_alphanumerics_witness :
  (~ alphanumeric KELVIN_SIGN /\
   forall base, 20 < base ->
     decodeBaseToBigInt basic_casing [KELVIN_SIGN] base = inl 20) /\
  (~ alphanumeric CAPITAL_I_DOT /\
   forall base, 18 < base ->
     decodeBaseToBigInt basic_casing [CAPITAL_I_DOT] base = inl 18) /\
  (forall str base,
     Forall code_point str ->
     ~ In KELVIN_SIGN str -> ~ In CAPITAL_I_DOT str ->
     ((exists e, decodeBaseToBigInt basic_casing str base = inr e) <->
      Exists (bad_digit base) str)) /\
  (forall str base,
     Forall code_point str ->
     ((exists e, decodeBaseToBigInt basic_casing str base = inr e) <->
      Exists (rejected base) str)) /\
  decodeBaseToBigInt basic_casing [103] 16 = inr (DigitGeBaseAt 103 16).
Proof.
  apply (decode_accepts_two_non_alphanumerics basic_casing).
  exact basic_casing_unicode.
Defined.

(** X3. Two strings of the same length that decode to the same value
    spell the same letters: they are equal once case is dropped, the
    Kelvin sign read as [k] and the dotted capital I as [i]. *)
Theorem decode_same_value_same_letters lower s t base v :
  unicode_casing lower ->
  Forall code_point s -> Forall code_point t ->
  length s = length t ->
  decodeBaseToBigInt lower s base = inl v ->
  decodeBaseToBigInt lower t base = inl v ->
  map fold s = map fold t.
Proof.
  intros C Ps Pt L Es Et.
  exact (decode_loop_same_letters lower C base s t v Ps Pt L Es Et).
Qed.

Lemma decode_same_value_same_letters_witness :
  map fold [KELVIN_SIGN; 70] = map fold [107; 102].
Proof.
  apply (decode_same_value_same_letters basic_casing
           [KELVIN_SIGN; 70] [107; 102] 36 735).
  - exact basic_casing_unicode.
  - repeat constructor; unfold code_point, KELVIN_SIGN; lia.
  - repeat constructor; unfold code_point; lia.
  - reflexivity.
  - reflexivity.
  - reflexivity.
Defined.

(** X4. The exception is about the first offending character: after a
    prefix that decodes, a character the code does not take for a digit
    raises the invalid-digit exception with that character, and a digit
    [>= base] raises the other one, whatever follows. *)
Theorem decode_names_first_offender lower pre ch post base a :
  unicode_casing lower ->
  code_point ch ->
  decodeBaseToBigInt lower pre base = inl a ->
  (~ accepted ch ->
   decodeBaseToBigInt lower (pre ++ ch :: post) base
   = inr (InvalidDigitAt ch)) /\
  (forall v, digitValue (fold ch) = Some v -> v >= base ->
   decodeBaseToBigInt lower (pre ++ ch :: post) base
   = inr (DigitGeBaseAt ch base)).
Proof.
  intros C P E. unfold decodeBaseToBigInt in *.
  rewrite (decode_loop_through lower base pre 0 a (ch :: post) E).
  cbn [decode_loop]. rewrite (charToVal_fold lower C ch P). split.
  - intros N. destruct (digitValue (fold ch)) as [v|] eqn:D; [|reflexivity].
    exfalso. apply N, accepted_fold. eauto.
  - intros v -> G. rewrite Z.geb_leb.
    destruct (Z.leb_spec base v); [reflexivity|lia].
Qed.

Lemma decode_names_first_offender_witness :
  decodeBaseToBigInt basic_casing ([49; 50] ++ 95 :: [56]) 10
  = inr (InvalidDigitAt 95) /\
  decodeBaseToBigInt basic_casing ([49; 50] ++ 56 :: [57]) 8
  = inr (DigitGeBaseAt 56 8).
Proof.
  split.
  - apply (decode_names_first_offender basic_casing [49; 50] 95 [56] 10 12).
    + exact basic_casing_unicode.
    + unfold code_point. lia.
    + reflexivity.
    + unfold accepted, alphanumeric, KELVIN_SIGN, CAPITAL_I_DOT. lia.
  - apply (decode_names_first_offender basic_casing [49; 50] 56 [57] 8 10)
      with (v := 8).
    + exact basic_casing_unicode.
    + unfold code_point. lia.
    + reflexivity.
    + reflexivity.
    + lia.
Defined.

End CodePointsFacts.

(** ** Exact fractions: value, canonical form, algebra *)

Module FractionMore.
Import Fraction FractionFacts Interpolator InterpolatorFacts.

#[local] Arguments normalizeFrac : simpl never.

(** X5. [gcdBig] is the greatest common divisor, for operands of any sign:
    non-negative, a divisor of both, and a multiple of every common
    divisor. It is 0 only for [gcdBig 0 0]. *)
Theorem gcdBig_greatest a b :
  0 <= gcdBig a b /\
  (gcdBig a b | a) /\ (gcdBig a b | b) /\
  (forall c, (c | a) -> (c | b) -> (c | gcdBig a b)) /\
  (gcdBig a b = 0 <-> a = 0 /\ b = 0).
Proof.
  rewrite gcdBig_gcd. split; [apply Z.gcd_nonneg|].
  split; [apply Z.gcd_divide_l|]. split; [apply Z.gcd_divide_r|].
  split; [intros c; apply Z.gcd_greatest|].
  split.
  - intros H. split; [eapply Z.gcd_eq_0_l|eapply Z.gcd_eq_0_r]; eassumption.
  - intros [-> ->]. reflexivity.
Qed.

(** X6. [normalizeFrac] throws exactly for a zero denominator, and otherwise
    returns the same rational: the cross products agree. *)
Theorem normalizeFrac_same_rational n d :
  (normalizeFrac n d = Throw ZeroDenominator <-> d = 0) /\
  (d <> 0 ->
   exists n' d', normalizeFrac n d = Ok (n', d') /\ 0 < d' /\ n' * d = n * d').
Proof.
  split.
  - split.
    + intros E. destruct (Z.eq_dec d 0) as [|Hd]; [assumption|].
      destruct (normalizeFrac_spec n d Hd) as (n' & d' & E' & _). congruence.
    + intros ->. reflexivity.
  - intros Hd. destruct (normalizeFrac_spec n d Hd) as (n' & d' & E & P & _ & X).
    eauto.
Qed.

Lemma normalizeFrac_same_rational_witness :
  exists n' d', normalizeFrac 6 (-4) = Ok (n', d') /\ 0 < d' /\ n' * -4 = 6 * d'.
Proof.
  apply (proj2 (normalizeFrac_same_rational 6 (-4))). lia.
Defined.

(** Fractions in lowest terms with positive denominators and equal cross
    products are equal. *)
Lemma lowest_terms_unique n1 d1 n2 d2 :
  0 < d1 -> 0 < d2 -> Z.gcd n1 d1 = 1 -> Z.gcd n2 d2 = 1 ->
  n1 * d2 = n2 * d1 -> n1 = n2 /\ d1 = d2.
Proof.
  intros P1 P2 G1 G2 X.
  assert (D12 : (d1 | d2)).
  { apply Z.gauss with (m := n1); [|now rewrite Z.gcd_comm].
    exists n2. lia. }
  assert (D21 : (d2 | d1)).
  { apply Z.gauss with (m := n2); [|now rewrite Z.gcd_comm].
    exists n1. lia. }
  assert (d1 = d2) by (apply Z.divide_antisym_nonneg; auto; lia).
  subst d2. split; [nia|reflexivity].
Qed.

Lemma normalizeFrac_equal n1 d1 n2 d2 :
  d1 <> 0 -> d2 <> 0 -> n1 * d2 = n2 * d1 ->
  normalizeFrac n1 d1 = normalizeFrac n2 d2.
Proof.
  intros H1 H2 X.
  destruct (normalizeFrac_spec n1 d1 H1) as (a1 & b1 & -> & P1 & G1 & X1).
  destruct (normalizeFrac_spec n2 d2 H2) as (a2 & b2 & -> & P2 & G2 & X2).
  destruct (lowest_terms_unique a1 b1 a2 b2) as [-> ->]; auto.
  apply (Z.mul_reg_r _ _ (d1 * d2)); [nia|].
  transitivity ((a1 * d1) * (b2 * d2)); [ring|].
  rewrite X1. transitivity ((a2 * d2) * (b1 * d1)); [|ring].
  rewrite X2. transitivity ((n1 * d2) * (b1 * b2)); [ring|].
  rewrite X. ring.
Qed.

(** X7. Canonical form: two numerator/denominator pairs that stand for the
    same rational normalize to the very same fraction. *)
Theorem normalizeFrac_canonical n1 d1 n2 d2 :
  d1 <> 0 -> d2 <> 0 -> n1 * d2 = n2 * d1 ->
  normalizeFrac n1 d1 = normalizeFrac n2 d2.
Proof. apply normalizeFrac_equal. Qed.

Lemma normalizeFrac_canonical_witness :
  normalizeFrac 6 (-4) = normalizeFrac (-9) 6.
Proof.
  apply (normalizeFrac_canonical 6 (-4) (-9) 6); lia.
Defined.

(** X8. [addFrac] and [mulFrac] are the sum and the product of rationals,
    exactly; they throw only when an operand has a zero denominator. *)
Theorem fraction_arithmetic_exact a b :
  snd a <> 0 -> snd b <> 0 ->
  (exists s, addFrac a b = Ok s /\ qv s = (qv a + qv b)%Qc) /\
  (exists p, mulFrac a b = Ok p /\ qv p = (qv a * qv b)%Qc).
Proof.
  intros Ha Hb. split.
  - destruct (addFrac_qv a b Ha Hb) as (s & E & _ & V). eauto.
  - destruct (mulFrac_qv a b Ha Hb) as (p & E & _ & V). eauto.
Qed.

Lemma fraction_arithmetic_exact_witness :
  (exists s, addFrac (1, 2) (1, -6) = Ok s /\
             qv s = (qv (1, 2)%Z + qv (1, -6)%Z)%Qc) /\
  (exists p, mulFrac (1, 2) (1, -6) = Ok p /\
             qv p = (qv (1, 2)%Z * qv (1, -6)%Z)%Qc).
Proof.
  apply (fraction_arithmetic_exact (1, 2) (1, -6)); simpl; lia.
Defined.

(** X9. A zero denominator in either operand makes both operations throw. *)
Theorem fraction_arithmetic_zero_denominator a b :
  snd a = 0 \/ snd b = 0 ->
  addFrac a b = Throw ZeroDenominator /\ mulFrac a b = Throw ZeroDenominator.
Proof.
  destruct a as [an ad], b as [bn bd]. cbn [snd]. intros H.
  unfold addFrac, mulFrac, normalizeFrac.
  replace (ad * bd =? 0) with true by nia. split; reflexivity.
Qed.

Lemma fraction_arithmetic_zero_denominator_witness :
  addFrac (1, 0) (1, 2) = Throw ZeroDenominator /\
  mulFrac (1, 0) (1, 2) = Throw ZeroDenominator.
Proof.
  apply (fraction_arithmetic_zero_denominator (1, 0) (1, 2)). left. reflexivity.
Defined.

Lemma addFrac_comm a b : addFrac a b = addFrac b a.
Proof.
  destruct a as [an ad], b as [bn bd]. unfold addFrac. f_equal; ring.
Qed.

Lemma mulFrac_comm a b : mulFrac a b = mulFrac b a.
Proof.
  destruct a as [an ad], b as [bn bd]. unfold mulFrac. f_equal; ring.
Qed.

Lemma addFrac_cross a b s :
  snd a <> 0 -> snd b <> 0 -> addFrac a b = Ok s ->
  0 < snd s /\
  fst s * (snd a * snd b) = (fst a * snd b + fst b * snd a) * snd s.
Proof.
  destruct a as [an ad], b as [bn bd]. cbn [fst snd]. intros Ha Hb E.
  unfold addFrac in E.
  destruct (normalizeFrac_spec (an * bd + bn * ad) (ad * bd)) as
    (n' & d' & E' & P & _ & X); [nia|].
  rewrite E' in E. injection E as <-. cbn [fst snd]. split; assumption.
Qed.

Lemma mulFrac_cross a b p :
  snd a <> 0 -> snd b <> 0 -> mulFrac a b = Ok p ->
  0 < snd p /\ fst p * (snd a * snd b) = (fst a * fst b) * snd p.
Proof.
  destruct a as [an ad], b as [bn bd]. cbn [fst snd]. intros Ha Hb E.
  unfold mulFrac in E.
  destruct (normalizeFrac_spec (an * bn) (ad * bd)) as
    (n' & d' & E' & P & _ & X); [nia|].
  rewrite E' in E. injection E as <-. cbn [fst snd]. split; assumption.
Qed.

(** X10. Sums and products do not depend on the order or the grouping of the
    operands: the results are the same fractions, not merely equal
    rationals. *)
Theorem fraction_arithmetic_laws a b c :
  snd a <> 0 -> snd b <> 0 -> snd c <> 0 ->
  addFrac a b = addFrac b a /\
  mulFrac a b = mulFrac b a /\
  (ab <- addFrac a b ;; addFrac ab c) = (bc <- addFrac b c ;; addFrac a bc) /\
  (ab <- mulFrac a b ;; mulFrac ab c) = (bc <- mulFrac b c ;; mulFrac a bc).
Proof.
  intros Ha Hb Hc.
  split; [apply addFrac_comm|]. split; [apply mulFrac_comm|].
  split.
  - destruct (addFrac_qv a b Ha Hb) as (ab & Eab & Pab & _).
    destruct (addFrac_qv b c Hb Hc) as (bc & Ebc & Pbc & _).
    rewrite Eab, Ebc. cbn [bind].
    destruct (addFrac_cross a b ab Ha Hb Eab) as [_ Xab].
    destruct (addFrac_cross b c bc Hb Hc Ebc) as [_ Xbc].
    destruct a as [an ad], b as [bn bd], c as [cn cd],
             ab as [abn abd], bc as [bcn bcd].
    cbn [fst snd] in *. unfold addFrac.
    apply normalizeFrac_equal; [nia|nia|].
    apply (Z.mul_reg_r _ _ (ad * bd * (bd * cd))); [nia|].
    transitivity
      ((abn * (ad * bd) * cd + cn * abd * (ad * bd)) * (ad * bcd) * (bd * cd));
      [ring|].
    rewrite Xab.
    transitivity
      ((an * bcd * (bd * cd) + bcn * (bd * cd) * ad) * (abd * cd) * (ad * bd));
      [|ring].
    rewrite Xbc. ring.
  - destruct (mulFrac_qv a b Ha Hb) as (ab & Eab & Pab & _).
    destruct (mulFrac_qv b c Hb Hc) as (bc & Ebc & Pbc & _).
    rewrite Eab, Ebc. cbn [bind].
    destruct (mulFrac_cross a b ab Ha Hb Eab) as [_ Xab].
    destruct (mulFrac_cross b c bc Hb Hc Ebc) as [_ Xbc].
    destruct a as [an ad], b as [bn bd], c as [cn cd],
             ab as [abn abd], bc as [bcn bcd].
    cbn [fst snd] in *. unfold mulFrac.
    apply normalizeFrac_equal; [nia|nia|].
    apply (Z.mul_reg_r _ _ (ad * bd * (bd * cd))); [nia|].
    transitivity ((abn * (ad * bd)) * cn * (ad * bcd) * (bd * cd)); [ring|].
    rewrite Xab.
    transitivity (an * (bcn * (bd * cd)) * (abd * cd) * (ad * bd)); [|ring].
    rewrite Xbc. ring.
Qed.

Lemma fraction_arithmetic_laws_witness :
  addFrac (1, 2) (1, 3) = addFrac (1, 3) (1, 2) /\
  mulFrac (1, 2) (1, 3) = mulFrac (1, 3) (1, 2) /\
  (ab <- addFrac (1, 2) (1, 3) ;; addFrac ab (1, -6))
  = (bc <- addFrac (1, 3) (1, -6) ;; addFrac (1, 2) bc) /\
  (ab <- mulFrac (1, 2) (1, 3) ;; mulFrac ab (1, -6))
  = (bc <- mulFrac (1, 3) (1, -6) ;; mulFrac (1, 2) bc).
Proof.
  apply (fraction_arithmetic_laws (1, 2) (1, 3) (1, -6)); simpl; lia.
Defined.

End FractionMore.

(** ** Interpolation: failures, order of the points, degenerate inputs *)

Module InterpolatorMore.
Import Fraction FractionFacts Interpolator InterpolatorFacts.

#[local] Arguments normalizeFrac : simpl never.
#[local] Arguments mulFrac : simpl never.
#[local] Arguments addFrac : simpl never.

Lemma normalizeFrac_throws n d e :
  normalizeFrac n d = Throw e -> e = ZeroDenominator /\ d = 0.
Proof.
  unfold normalizeFrac. destruct (Z.eqb_spec d 0) as [->|_].
  - intros [= <-]. split; reflexivity.
  - destruct (n =? 0); [discriminate|].
    destruct (d <? 0); discriminate.
Qed.

Lemma mulFrac_throws a b e : mulFrac a b = Throw e -> e = ZeroDenominator.
Proof.
  destruct a, b. unfold mulFrac. intros H. now apply normalizeFrac_throws in H.
Qed.

Lemma addFrac_throws a b e : addFrac a b = Throw e -> e = ZeroDenominator.
Proof.
  destruct a, b. unfold addFrac. intros H. now apply normalizeFrac_throws in H.
Qed.

(** With every entry defined, the loops can only fail on a denominator. *)
Lemma basis_loop_throws pts i xi js :
  (forall j, In j js -> (j < length pts)%nat) ->
  forall li e, basis_loop (map Some pts) i xi js li = Throw e ->
  e = ZeroDenominator.
Proof.
  induction js as [|j js IH]; intros Hjs li e; cbn [basis_loop]; [discriminate|].
  assert (Hjs' : forall j', In j' js -> (j' < length pts)%nat)
    by (intros; apply Hjs; now right).
  destruct (Nat.eqb i j); [now apply IH|].
  rewrite (at_index_some pts j) by (apply Hjs; now left). cbn [bind].
  destruct (normalizeFrac _ _) as [f|e1] eqn:En; cbn [bind].
  - destruct (mulFrac li f) as [li1|e2] eqn:Em; cbn [bind].
    + now apply IH.
    + intros [= <-]. now apply mulFrac_throws in Em.
  - intros [= <-]. now apply normalizeFrac_throws in En.
Qed.

Lemma sum_loop_throws pts ixs :
  (forall i, In i ixs -> (i < length pts)%nat) ->
  forall sum e, sum_loop (map Some pts) (length pts) ixs sum = Throw e ->
  e = ZeroDenominator.
Proof.
  induction ixs as [|i ixs IH]; intros Hix sum e; cbn [sum_loop]; [discriminate|].
  rewrite (at_index_some pts i) by (apply Hix; now left). cbn [bind].
  destruct (basis_loop _ _ _ _ _) as [li|e1] eqn:Eb; cbn [bind].
  - destruct (mulFrac _ li) as [term|e2] eqn:Em; cbn [bind].
    + destruct (addFrac sum term) as [s1|e3] eqn:Ea; cbn [bind].
      * apply IH. intros; apply Hix; now right.
      * intros [= <-]. now apply addFrac_throws in Ea.
    + intros [= <-]. now apply mulFrac_throws in Em.
  - intros [= <-]. apply basis_loop_throws in Eb; [assumption|].
    intros j Hj. apply in_seq in Hj. lia.
Qed.

(** A finished inner loop has met no point with the abscissa [xi]. *)
Lemma basis_loop_ok pts i xi js :
  (forall j, In j js -> (j < length pts)%nat) ->
  forall li li', basis_loop (map Some pts) i xi js li = Ok li' ->
  forall j, In j js -> j <> i -> x (nth j pts pt0) <> xi.
Proof.
  induction js as [|j js IH]; intros Hjs li li'; cbn [basis_loop];
    [intros _ j []|].
  assert (Hjs' : forall j', In j' js -> (j' < length pts)%nat)
    by (intros; apply Hjs; now right).
  destruct (Nat.eqb_spec i j) as [->|Hij].
  - intros E j' [<-|Hin] Hne; [contradiction|]. eapply IH; eassumption.
  - rewrite (at_index_some pts j) by (apply Hjs; now left). cbn [bind].
    destruct (normalizeFrac _ _) as [f|e1] eqn:En; cbn [bind]; [|discriminate].
    destruct (mulFrac li f) as [li1|e2]; cbn [bind]; [|discriminate].
    intros E j' [<-|Hin] Hne.
    + intros Hx. rewrite Hx, Z.sub_diag in En. discriminate En.
    + eapply IH; eassumption.
Qed.

Lemma sum_loop_ok pts ixs :
  (forall i, In i ixs -> (i < length pts)%nat) ->
  forall sum s', sum_loop (map Some pts) (length pts) ixs sum = Ok s' ->
  forall i j, In i ixs -> (j < length pts)%nat -> j <> i ->
  x (nth j pts pt0) <> x (nth i pts pt0).
Proof.
  induction ixs as [|i ixs IH]; intros Hix sum s'; cbn [sum_loop];
    [intros _ i j []|].
  rewrite (at_index_some pts i) by (apply Hix; now left). cbn [bind].
  destruct (basis_loop _ _ _ _ _) as [li|e1] eqn:Eb; cbn [bind]; [|discriminate].
  destruct (mulFrac _ li) as [term|e2]; cbn [bind]; [|discriminate].
  destruct (addFrac sum term) as [s1|e3]; cbn [bind]; [|discriminate].
  intros E i' j [<-|Hin] Hj Hne.
  - eapply basis_loop_ok; [|exact Eb| |exact Hne].
    + intros j' Hj'. apply in_seq in Hj'. lia.
    + apply in_seq. lia.
  - eapply IH; [|exact E|exact Hin|exact Hj|exact Hne].
    intros; apply Hix; now right.
Qed.

Lemma sum_loop_distinct pts sum s' :
  sum_loop (map Some pts) (length pts) (seq 0 (length pts)) sum = Ok s' ->
  NoDup (map x pts).
Proof.
  intros E. apply (NoDup_nth (map x pts) 0). rewrite length_map.
  intros i j Hi Hj Hn.
  change 0 with (x pt0) in Hn. rewrite !map_nth in Hn.
  destruct (Nat.eq_dec i j) as [|Hne]; [assumption|exfalso].
  eapply (sum_loop_ok pts (seq 0 (length pts))); [|exact E| |exact Hi| |exact Hn].
  - intros i' Hi'. apply in_seq in Hi'. lia.
  - apply in_seq. lia.
  - assumption.
Qed.

(** On points with distinct abscissas the value at 0 is held in lowest
    terms, and is returned when its denominator is 1. *)
Lemma interpolate_lowest pts :
  NoDup (map x pts) ->
  exists num den,
    0 < den /\ Z.gcd num den = 1 /\
    interpolant pts 0 = (inj num / inj den)%Qc /\
    interpolateAtZero (map Some pts) =
    if den =? 1 then Ok num else Throw (NonInteger num den).
Proof.
  intros N. unfold interpolateAtZero. rewrite length_map.
  destruct (sum_loop_value pts (seq 0 (length pts)) N) with (sum := (0, 1))
    as (s & Es & Hs & Vs).
  { intros i Hi. apply in_seq in Hi. lia. }
  { simpl. lia. }
  rewrite Es. cbn [bind].
  destruct (normalizeFrac_spec (fst s) (snd s) Hs) as (num & den & En & Hd & G & X).
  rewrite En. cbn [bind]. exists num, den.
  split; [assumption|]. split; [assumption|]. split.
  - unfold interpolant. rewrite qv_int, inj_0 in Vs.
    transitivity (qv s); [rewrite Vs; ring|].
    symmetry. apply (qv_cross (fst s) (snd s) num den); [assumption|lia|assumption].
  - destruct (Z.eqb_spec den 1) as [->|Hne].
    + rewrite Z.rem_1_r, Z.quot_1_r. reflexivity.
    + destruct (Z.eqb_spec (Z.rem num den) 0) as [R|R]; [|reflexivity].
      exfalso. apply Hne.
      assert (D : (den | num)).
      { exists (Z.quot num den). pose proof (Z.quot_rem' num den). lia. }
      assert (D1 : (den | 1)).
      { rewrite <- G. apply Z.gcd_greatest; [assumption|apply Z.divide_refl]. }
      apply Z.divide_1_r_nonneg in D1; lia.
Qed.

Lemma quotient_cross n d n' d' :
  d <> 0 -> d' <> 0 -> (inj n / inj d)%Qc = (inj n' / inj d')%Qc ->
  n * d' = n' * d.
Proof.
  intros Hd Hd' E. apply inj_inj. rewrite !inj_mul.
  pose proof (inj_nonzero d Hd). pose proof (inj_nonzero d' Hd').
  transitivity ((inj n / inj d) * (inj d * inj d'))%Qc; [field; assumption|].
  rewrite E. field. assumption.
Qed.

(** *** Two points with the same abscissa *)

Lemma duplicate_abscissa_throws pts :
  ~ NoDup (map x pts) ->
  interpolateAtZero (map Some pts) = Throw ZeroDenominator.
Proof.
  intros ND. unfold interpolateAtZero. rewrite length_map.
  destruct (sum_loop _ _ _ _) as [s|e] eqn:E.
  - exfalso. apply ND. eapply sum_loop_distinct. exact E.
  - cbn [bind]. f_equal. eapply sum_loop_throws; [|exact E].
    intros i Hi. apply in_seq in Hi. lia.
Qed.

(** X11. With every entry defined, the run ends in the zero-denominator
    exception exactly when two of the points share an abscissa. *)
Theorem interpolate_zero_denominator_iff pts :
  interpolateAtZero (map Some pts) = Throw ZeroDenominator <->
  ~ NoDup (map x pts).
Proof.
  split; [|apply duplicate_abscissa_throws].
  intros E N. destruct (interpolate_lowest pts N) as (num & den & _ & _ & _ & R).
  rewrite R in E. destruct (den =? 1); discriminate.
Qed.

(** *** A value at 0 that is not an integer *)

(** X12. On points with distinct abscissas the non-integer exception carries
    the interpolant's value at 0 in lowest terms, and is thrown for every
    value whose reduced denominator exceeds 1. *)
Theorem interpolate_non_integer_iff pts num den :
  NoDup (map x pts) ->
  interpolateAtZero (map Some pts) = Throw (NonInteger num den) <->
  1 < den /\ Z.gcd num den = 1 /\ interpolant pts 0 = (inj num / inj den)%Qc.
Proof.
  intros N. destruct (interpolate_lowest pts N) as (n & d & Hd & G & V & R).
  rewrite R. split.
  - destruct (Z.eqb_spec d 1) as [|Hne]; [discriminate|].
    intros [= <- <-]. split; [lia|]. split; assumption.
  - intros (Hden & G' & V').
    assert (X : n * den = num * d).
    { apply quotient_cross; [lia|lia|]. now rewrite <- V, <- V'. }
    destruct (FractionMore.lowest_terms_unique n d num den) as [-> ->];
      [assumption|lia|assumption|assumption|assumption|].
    destruct (Z.eqb_spec den 1); [lia|reflexivity].
Qed.

Lemma interpolate_non_integer_iff_witness :
  interpolateAtZero (map Some [mkPoint 1 0 "a"; mkPoint 3 1 "b"])
  = Throw (NonInteger (-1) 2) <->
  1 < 2 /\ Z.gcd (-1) 2 = 1 /\
  interpolant [mkPoint 1 0 "a"; mkPoint 3 1 "b"] 0 = (inj (-1) / inj 2)%Qc.
Proof.
  apply (interpolate_non_integer_iff [mkPoint 1 0 "a"; mkPoint 3 1 "b"] (-1) 2).
  simpl. repeat constructor; simpl; intuition lia.
Defined.

(** *** The order of the points *)

Lemma interpolant_permutation pts pts' :
  NoDup (map x pts) -> Permutation pts pts' ->
  forall t, interpolant pts' t = interpolant pts t.
Proof.
  intros N P t.
  apply (interpolant_unique pts (interpolant pts') N).
  - rewrite (Permutation_length P). apply polyfun_interpolant.
  - intros m Hm.
    assert (N' : NoDup (map x pts')).
    { eapply Permutation_NoDup; [|exact N]. now apply Permutation_map. }
    assert (Hin : In (nth m pts pt0) pts') .
    { eapply Permutation_in; [exact P|]. now apply nth_In. }
    apply (In_nth _ _ pt0) in Hin as (m' & Hm' & E).
    unfold xq, yq. rewrite <- E.
    apply (interpolant_at_node pts' m' N' Hm').
Qed.

(** X13. The result of [interpolateAtZero], value or exception, does not
    depend on the order in which the points are given. *)
Theorem interpolate_order_irrelevant pts pts' :
  Permutation pts pts' ->
  interpolateAtZero (map Some pts') = interpolateAtZero (map Some pts).
Proof.
  intros P.
  assert (PX : Permutation (map x pts) (map x pts')) by now apply Permutation_map.
  destruct (ListDec.NoDup_dec Z.eq_dec (map x pts)) as [N|ND].
  - assert (N' : NoDup (map x pts')) by (eapply Permutation_NoDup; eassumption).
    destruct (interpolate_lowest pts N) as (n & d & Hd & G & V & R).
    destruct (interpolate_lowest pts' N') as (n' & d' & Hd' & G' & V' & R').
    rewrite R, R'.
    assert (X : n' * d = n * d').
    { apply quotient_cross; [lia|lia|].
      now rewrite <- V, <- V', (interpolant_permutation pts pts' N P). }
    destruct (FractionMore.lowest_terms_unique n' d' n d) as [-> ->];
      auto.
  - assert (ND' : ~ NoDup (map x pts')).
    { intros N'. apply ND. eapply Permutation_NoDup; [|exact N'].
      now apply Permutation_sym. }
    apply duplicate_abscissa_throws in ND, ND'. congruence.
Qed.

Lemma interpolate_order_irrelevant_witness :
  interpolateAtZero (map Some [mkPoint 3 12 "c"; mkPoint 1 4 "a"])
  = interpolateAtZero (map Some [mkPoint 1 4 "a"; mkPoint 3 12 "c"]).
Proof.
  apply (interpolate_order_irrelevant
           [mkPoint 1 4 "a"; mkPoint 3 12 "c"] [mkPoint 3 12 "c"; mkPoint 1 4 "a"]).
  apply perm_swap.
Defined.

(** *** A point at 0 *)

(** X14. When one of the points sits at abscissa 0, the result is that
    point's ordinate, whatever the other points are. *)
Theorem interpolate_point_at_zero pts p :
  NoDup (map x pts) -> In p pts -> x p = 0 ->
  interpolateAtZero (map Some pts) = Ok (y p).
Proof.
  intros N Hin Hx. apply (interpolate_iff pts (y p) N).
  apply (In_nth _ _ pt0) in Hin as (m & Hm & E).
  pose proof (interpolant_at_node pts m N Hm) as A.
  unfold xq, yq in A. rewrite E, Hx, inj_0 in A. exact A.
Qed.

Lemma interpolate_point_at_zero_witness :
  interpolateAtZero
    (map Some [mkPoint 5 1 "a"; mkPoint 0 42 "b"; mkPoint 2 (-7) "c"]) = Ok 42.
Proof.
  apply (interpolate_point_at_zero
           [mkPoint 5 1 "a"; mkPoint 0 42 "b"; mkPoint 2 (-7) "c"]
           (mkPoint 0 42 "b")).
  - simpl. repeat constructor; simpl; intuition lia.
  - simpl. auto.
  - reflexivity.
Defined.

(** *** No point, one point *)

(** X15. The empty array gives 0 and a single point gives its own ordinate;
    neither can throw. *)
Theorem interpolate_degenerate p :
  interpolateAtZero [] = Ok 0 /\ interpolateAtZero [Some p] = Ok (y p).
Proof.
  split; [reflexivity|].
  apply (interpolate_iff [p] (y p)).
  - simpl. repeat constructor. intros [].
  - unfold interpolant, lagrangeQ, basisQ, yq. simpl. ring.
Qed.

(** *** An undefined entry *)

Lemma basis_loop_undefined_kind points i xi u js :
  In u js -> u <> i -> at_index points u = Throw TypeError ->
  forall li, exists e, basis_loop points i xi js li = Throw e /\
                       (e = TypeError \/ e = ZeroDenominator).
Proof.
  intros Hin Hne Hu. induction js as [|j js IH]; intros li; [destruct Hin|].
  cbn [basis_loop]. destruct (Nat.eqb_spec i j) as [->|Hij].
  - destruct Hin as [->|Hin]; [contradiction|]. now apply IH.
  - destruct (at_index points j) as [pj|e] eqn:Aj.
    + cbn [bind]. destruct Hin as [->|Hin]; [congruence|].
      destruct (normalizeFrac _ _) as [f|e] eqn:En; cbn [bind].
      * destruct (mulFrac li f) as [li'|e] eqn:Em; cbn [bind].
        -- now apply IH.
        -- exists e. split; [reflexivity|right]. now apply mulFrac_throws in Em.
      * exists e. split; [reflexivity|right]. now apply normalizeFrac_throws in En.
    + cbn [bind]. exists e. split; [reflexivity|left].
      unfold at_index in Aj. destruct (nth_error points j) as [[?|]|];
        congruence.
Qed.

(** X16. An array with an undefined entry never gives a value: the run
    throws, with a TypeError, or with the zero-denominator exception when
    two equal abscissas are met first. *)
Theorem interpolate_undefined_entry points :
  In None points ->
  interpolateAtZero points = Throw TypeError \/
  interpolateAtZero points = Throw ZeroDenominator.
Proof.
  intros H. apply In_nth_error in H as (u & Hu).
  assert (Hlt : (u < length points)%nat) by (apply nth_error_Some; congruence).
  assert (At : at_index points u = Throw TypeError)
    by (unfold at_index; now rewrite Hu).
  unfold interpolateAtZero.
  destruct (length points) as [|k] eqn:L; [lia|].
  cbn [seq sum_loop].
  destruct (at_index points 0) as [p0|e] eqn:A0.
  - cbn [bind].
    assert (u <> 0%nat) by (intros ->; congruence).
    destruct (basis_loop_undefined_kind points 0 (x p0) u (0%nat :: seq 1 k))
      with (li := ((1, 1) : Frac)) as (e & E & [->| ->]); auto.
    + change (In u (seq 0 (S k))). apply in_seq. lia.
    + rewrite E. now left.
    + rewrite E. now right.
  - cbn [bind]. left. f_equal.
    unfold at_index in A0. destruct (nth_error points 0) as [[?|]|]; congruence.
Qed.

Lemma interpolate_undefined_entry_witness :
  interpolateAtZero [Some (mkPoint 1 4 "a"); None] = Throw TypeError \/
  interpolateAtZero [Some (mkPoint 1 4 "a"); None] = Throw ZeroDenominator.
Proof.
  apply (interpolate_undefined_entry [Some (mkPoint 1 4 "a"); None]).
  simpl. auto.
Defined.

End InterpolatorMore.

(** ** The subset generator: laziness, shape of what is yielded *)

Module EnumeratorMore.
Import Enumerator EnumeratorFacts RobustFacts.
Local Open Scope nat_scope.

(** Resumed [fuel] times along a chain, the generator has yielded the
    next [fuel] members, and has returned when the chain ran out. *)
Lemma resume_prefix n k rest : forall c fuel,
  chain (Z.of_nat n - 1) (c :: rest) ->
  (forall c', In c' (c :: rest) -> length c' = k) ->
  resume fuel n k c = (firstn fuel rest, length rest <? fuel).
Proof.
  induction rest as [|c' rest IH]; intros c [|fuel] Hc L; try reflexivity;
    cbn [resume]; rewrite advance_successor by (apply L; now left);
    cbn [chain] in Hc.
  - now rewrite Hc.
  - destruct Hc as [-> Hc].
    rewrite (IH c' fuel Hc) by (intros d Hd; apply L; now right).
    reflexivity.
Qed.

Lemma combinations_prefix n k fuel :
  k <= n ->
  combinations fuel n k = (firstn (S fuel) (subseqs 0 n k), choose n k <=? fuel).
Proof.
  intros H. unfold combinations.
  destruct (subseqs_head n 0 k H) as (rest & E).
  pose proof (subseqs_chain n 0 k) as C. rewrite E in C.
  pose proof (subseqs_count n 0 k) as Cn. rewrite E in Cn. cbn [length] in Cn.
  rewrite (resume_prefix n k rest (seq 0 k) fuel).
  - rewrite E, <- Cn. reflexivity.
  - replace (Z.of_nat n - 1)%Z with (Z.of_nat 0 + Z.of_nat n - 1)%Z by lia.
    exact C.
  - intros c Hc. rewrite <- E in Hc. eapply subseqs_length; eassumption.
Qed.


(** X17. With [k <= n] the generator is lazy and exhaustive: the arrays it
    can yield are the [C(n,k)] strictly increasing [k]-element index
    sequences over [0..n-1], each once, in lexicographic order; resumed
    [fuel] times it has yielded the first [fuel + 1] of them, and it has
    returned exactly when [fuel] reached [C(n,k)]. *)
Theorem combinations_lazy n k :
  k <= n ->
  exists ys,
    length ys = choose n k /\
    (forall c, In c ys <-> is_combo n k c) /\
    StronglySorted lex_lt ys /\
    forall fuel,
      combinations fuel n k = (firstn (S fuel) ys, choose n k <=? fuel).
Proof.
  intros H. exists (subseqs 0 n k).
  split; [apply subseqs_count|]. split; [intros c; apply in_subseqs|].
  split; [apply subseqs_sorted|].
  intros fuel. now apply combinations_prefix.
Qed.

Lemma combinations_lazy_witness :
  exists ys,
    length ys = choose 4 2 /\
    (forall c, In c ys <-> is_combo 4 2 c) /\
    StronglySorted lex_lt ys /\
    forall fuel,
      combinations fuel 4 2 = (firstn (S fuel) ys, choose 4 2 <=? fuel).
Proof.
  apply (combinations_lazy 4 2). lia.
Defined.


End EnumeratorMore.

(** ** The reconstruction run: length, errors, tally, outliers *)

Module ReconstructorMore.
Import Fraction Interpolator Enumerator Reconstructor Robust.
Import InterpolatorFacts EnumeratorFacts ReconstructorFacts RobustFacts.
Local Open Scope nat_scope.

#[local] Arguments normalizeFrac : simpl never.
#[local] Arguments mulFrac : simpl never.
#[local] Arguments addFrac : simpl never.

(** *** How long the loop runs *)

Lemma tally_loop_decided points m k fuel :
  k <= m ->
  tally_loop fuel points m k (seq 0 k) empty_tally =
  if choose m k <=? fuel then Some (tally_of points (subseqs 0 m k)) else None.
Proof.
  intros H. destruct (Nat.leb_spec (choose m k) fuel) as [Hf|Hf].
  - now apply tally_loop_finite.
  - destruct fuel as [|fuel]; [reflexivity|].
    rewrite tally_loop_combinations, EnumeratorMore.combinations_prefix
      by assumption.
    now replace (choose m k <=? S fuel) with false
      by (symmetry; apply Nat.leb_gt; lia).
Qed.

(** *** The outcome of a finished run *)

Lemma recorded_iff points combos v i :
  In i (members_of (cMembers (tally_of points combos)) v) <->
  exists c, In c combos /\ yields points c v /\ In i c.
Proof.
  unfold tally_of. rewrite members_visit_all.
  cbn [empty_tally cMembers members_of map_get]. simpl. tauto.
Qed.

Lemma outliers_indices ok : forall m (pts : list Point) a,
  m <= length pts ->
  map snd (filter (fun ip => negb (set_has ok (fst ip)))
             (combine (seq a m) pts)) =
  map (fun i => nth (i - a) pts pt0)
      (filter (fun i => negb (set_has ok i)) (seq a m)).
Proof.
  induction m as [|m IH]; intros [|p pts] a L; try reflexivity;
    [simpl in L; lia|].
  cbn [seq combine filter fst].
  assert (T : map snd (filter (fun ip => negb (set_has ok (fst ip)))
                         (combine (seq (S a) m) pts)) =
              map (fun i => nth (i - a) (p :: pts) pt0)
                  (filter (fun i => negb (set_has ok i)) (seq (S a) m))).
  { rewrite IH by (simpl in L; lia). apply map_ext_in. intros i Hi.
    apply filter_In in Hi as [Hi _]. apply in_seq in Hi.
    replace (i - a) with (S (i - S a)) by lia. reflexivity. }
  destruct (negb (set_has ok a)); cbn [map snd]; rewrite T;
    [rewrite Nat.sub_diag|]; reflexivity.
Qed.

Lemma outliers_of_sel points m ok :
  m <= length points ->
  outliers_of points m ok =
  sel points (filter (fun i => negb (set_has ok i)) (seq 0 m)).
Proof.
  intros L. unfold outliers_of, sel. rewrite outliers_indices by assumption.
  apply map_ext. intros i. now rewrite Nat.sub_0_r.
Qed.

(** The indices below [m] that no subset on record for [w] holds. *)
Lemma unrecorded_iff points combos w m i :
  In i (filter
          (fun i => negb (set_has (members_of (cMembers (tally_of points combos)) w) i))
          (seq 0 m)) <->
  i < m /\ forall c, In c combos -> yields points c w -> ~ In i c.
Proof.
  rewrite filter_In, in_seq, negb_true_iff.
  split.
  - intros [Hi Hs]. split; [lia|]. intros c Hc Y Hin.
    assert (R : set_has (members_of (cMembers (tally_of points combos)) w) i = true).
    { apply set_has_in, recorded_iff. exists c. auto. }
    congruence.
  - intros [Hi Hn]. split; [lia|].
    destruct (set_has _ i) eqn:E; [|reflexivity]. exfalso.
    apply set_has_in, recorded_iff in E as (c & Hc & Y & Hin).
    exact (Hn c Hc Y Hin).
Qed.

(** A run over at least [k] points that was given the time to end: either
    every subset failed, or a secret met on the way comes out, with the
    points no subset on its record holds. *)
Lemma run_outcome fuel n k points :
  (2 <= k <= n)%Z ->
  let m := Nat.min (length points) (Z.to_nat n) in
  let combos := subseqs 0 m (Z.to_nat k) in
  Z.to_nat k <= m -> choose m (Z.to_nat k) <= fuel ->
  (Forall (fails points) combos /\
   reconstruct fuel n k points = Some (Throw NoValidSubset)) \/
  (exists w,
     In w (secrets points combos) /\
     reconstruct fuel n k points =
     Some (Ok (w, sel points
                    (filter
                       (fun i => negb (set_has
                          (members_of (cMembers (tally_of points combos)) w) i))
                       (seq 0 m))))).
Proof.
  intros Hk m combos Hm Hf.
  destruct (reconstruct_finite fuel n k points Hk Hm Hf) as (_ & A & B).
  fold m combos in A, B.
  destruct (Forall_dec (fails points)) with (l := combos) as [F|NF].
  - intros c. unfold fails.
    destruct (interpolateAtZero (subset_of points c)) as [v|e];
      [right; intros (e & E); discriminate|left; eauto].
  - left. split; [assumption|]. now apply A.
  - right. destruct (B NF) as (w & W & R). exists w. split.
    + assert (NE : secrets points combos <> []).
      { intros S0. apply NF. apply cFreq_empty_iff.
        unfold tally_of. rewrite cFreq_visit_all, S0. reflexivity. }
      destruct (winner_of_secrets _ NE) as (w' & W' & Hin & _).
      unfold tally_of in W. rewrite cFreq_visit_all in W.
      cbn [empty_tally cFreq] in W. congruence.
    + rewrite R, outliers_of_sel by (subst m; lia). reflexivity.
Qed.

Lemma starved_or_ready (points : list Point) n k :
  let m := Nat.min (length points) (Z.to_nat n) in
  (2 <= k <= n)%Z ->
  (m < Z.to_nat k /\ (Z.of_nat (length points) < k)%Z) \/
  (Z.to_nat k <= m /\ (k <= Z.of_nat (length points))%Z).
Proof. intros m Hk. subst m. lia. Qed.

Lemma reconstruct_pending fuel n k points :
  (2 <= k <= n)%Z -> (k <= Z.of_nat (length points))%Z ->
  fuel < choose (Nat.min (length points) (Z.to_nat n)) (Z.to_nat k) ->
  reconstruct fuel n k points = None.
Proof.
  intros Hk L Hf. unfold reconstruct.
  replace ((k <? 2)%Z || (n <? k)%Z) with false by lia.
  rewrite tally_loop_decided by lia.
  now replace (choose _ _ <=? fuel) with false
    by (symmetry; apply Nat.leb_gt; lia).
Qed.

(** *** Exceptions *)



(** *** Number of subsets visited *)

(** X20. With valid parameters and at least [k] points the loop visits
    exactly [C(m,k)] subsets, [m] being the number of points in use: fewer
    turns do not end the run, and from [C(m,k)] turns on the outcome is
    there and stays the same. *)
Theorem reconstruct_visits_all_subsets fuel n k points :
  (2 <= k <= n)%Z -> (k <= Z.of_nat (length points))%Z ->
  let m := Nat.min (length points) (Z.to_nat n) in
  (reconstruct fuel n k points = None <-> fuel < choose m (Z.to_nat k)) /\
  (choose m (Z.to_nat k) <= fuel ->
   reconstruct fuel n k points =
   reconstruct (choose m (Z.to_nat k)) n k points).
Proof.
  intros Hk L m.
  assert (Hm : Z.to_nat k <= m) by (subst m; lia).
  assert (G : (k <? 2)%Z || (n <? k)%Z = false) by lia.
  unfold reconstruct. rewrite G. fold m.
  rewrite !tally_loop_decided by assumption.
  rewrite Nat.leb_refl.
  destruct (Nat.leb_spec (choose m (Z.to_nat k)) fuel) as [Hf|Hf].
  - split; [|reflexivity]. split; [|lia].
    destruct (_ =? 0); [discriminate|].
    destruct (fst (pick_best _)); discriminate.
  - split; [tauto|lia].
Qed.

Lemma reconstruct_visits_all_subsets_witness :
  (reconstruct 2 3 2 [mkPoint 1 4 "a"; mkPoint 2 7 "b"; mkPoint 3 10 "c"] = None
   <-> 2 < choose 3 2) /\
  (choose 3 2 <= 2 ->
   reconstruct 2 3 2 [mkPoint 1 4 "a"; mkPoint 2 7 "b"; mkPoint 3 10 "c"] =
   reconstruct (choose 3 2) 3 2
     [mkPoint 1 4 "a"; mkPoint 2 7 "b"; mkPoint 3 10 "c"]).
Proof.
  apply (reconstruct_visits_all_subsets 2 3 2
           [mkPoint 1 4 "a"; mkPoint 2 7 "b"; mkPoint 3 10 "c"]);
    simpl; lia.
Defined.

(** *** Points beyond the first [n] *)

Lemma combine_firstn a : forall m (pts : list Point) n',
  m <= n' -> combine (seq a m) (firstn n' pts) = combine (seq a m) pts.
Proof.
  revert a. intros a m. revert a.
  induction m as [|m IH]; intros a pts n' H; [reflexivity|].
  destruct n' as [|n']; [lia|]. destruct pts as [|p pts]; [reflexivity|].
  cbn [seq firstn combine]. rewrite IH by lia. reflexivity.
Qed.

Lemma subset_of_firstn points n' c :
  (forall i, In i c -> i < n') ->
  subset_of (firstn n' points) c = subset_of points c.
Proof.
  intros H. unfold subset_of. apply map_ext_in. intros i Hi.
  rewrite nth_error_firstn.
  now replace (i <? n') with true by (symmetry; apply Nat.ltb_lt; auto).
Qed.

Lemma visit_all_agree points points' combos : forall t,
  (forall c, In c combos -> subset_of points' c = subset_of points c) ->
  visit_all points' combos t = visit_all points combos t.
Proof.
  induction combos as [|c combos IH]; intros t H; [reflexivity|].
  cbn [visit_all fold_left]. unfold visit at 2 4.
  rewrite (H c) by now left.
  apply IH. intros c' Hc'. apply H. now right.
Qed.

(** X21. Points after the first [n] play no part: they are neither
    interpolated nor reported, and the run is the one on the first [n]
    points. *)
Theorem reconstruct_ignores_points_beyond_n fuel n k points :
  reconstruct fuel n k points =
  reconstruct fuel n k (firstn (Z.to_nat n) points).
Proof.
  unfold reconstruct.
  destruct ((k <? 2)%Z || (n <? k)%Z) eqn:G; [reflexivity|].
  rewrite length_firstn.
  replace (Nat.min (Nat.min (Z.to_nat n) (length points)) (Z.to_nat n))
    with (Nat.min (length points) (Z.to_nat n)) by lia.
  set (m := Nat.min (length points) (Z.to_nat n)).
  destruct (le_lt_dec (Z.to_nat k) m) as [Hm|Hm].
  - rewrite !tally_loop_decided by assumption.
    destruct (choose m (Z.to_nat k) <=? fuel); [|reflexivity].
    assert (T : tally_of (firstn (Z.to_nat n) points) (subseqs 0 m (Z.to_nat k))
                = tally_of points (subseqs 0 m (Z.to_nat k))).
    { apply visit_all_agree. intros c Hc. apply subset_of_firstn.
      intros i Hi. apply in_subseqs in Hc as (_ & _ & Hr).
      specialize (Hr i Hi). subst m. lia. }
    rewrite T. unfold outliers_of.
    rewrite combine_firstn by (subst m; lia). reflexivity.
  - rewrite !tally_loop_starved by assumption. reflexivity.
Qed.

(** *** What the tally holds *)

(** X22. After any sequence of subsets the frequency map has one entry for
    each secret that some subset interpolated to, holding the number of
    such subsets, and the member set of a secret holds exactly the indices
    of the subsets that interpolated to it. *)
Theorem tally_invariant points combos :
  NoDup (map fst (cFreq (tally_of points combos))) /\
  (forall v, In v (map fst (cFreq (tally_of points combos))) <->
             exists c, In c combos /\ yields points c v) /\
  (forall v, count_in (cFreq (tally_of points combos)) v =
             count v (secrets points combos)) /\
  (forall v i, In i (members_of (cMembers (tally_of points combos)) v) <->
               exists c, In c combos /\ yields points c v /\ In i c).
Proof.
  assert (E : cFreq (tally_of points combos) =
              fold_left bump (secrets points combos) []).
  { unfold tally_of. now rewrite cFreq_visit_all. }
  destruct (keys_fold (secrets points combos)) as [N M].
  rewrite E. split; [assumption|]. split; [|split].
  - intros v. rewrite M. apply in_secrets.
  - intros v. now rewrite count_in_fold.
  - intros v i. apply recorded_iff.
Qed.

(** *** Secret and outliers of a finished run *)

(** X23. When the run returns a secret [w] and outliers, some [k]-subset
    of the points in use interpolates to [w]; the outliers are the points,
    in index order, that no subset interpolating to [w] holds; and there
    are at most [m - k] of them. *)
Theorem reconstruct_result fuel n k points w outs :
  reconstruct fuel n k points = Some (Ok (w, outs)) ->
  let m := Nat.min (length points) (Z.to_nat n) in
  (exists c, is_combo m (Z.to_nat k) c /\ yields points c w) /\
  exists ixs,
    outs = sel points ixs /\ increasing ixs /\
    (forall i, In i ixs <->
       i < m /\
       forall c, is_combo m (Z.to_nat k) c -> yields points c w -> ~ In i c) /\
    length ixs + Z.to_nat k <= m.
Proof.
  intros R m.
  assert (G : (k <? 2)%Z || (n <? k)%Z = false).
  { destruct ((k <? 2)%Z || (n <? k)%Z) eqn:G; [|reflexivity].
    unfold reconstruct in R. rewrite G in R. discriminate. }
  assert (Hk : (2 <= k <= n)%Z) by lia.
  destruct (starved_or_ready points n k Hk) as [[S L]|[Hm L]];
    [rewrite reconstruct_starved in R by assumption; discriminate|].
  fold m in Hm.
  assert (Hf : choose m (Z.to_nat k) <= fuel).
  { destruct (le_lt_dec (choose m (Z.to_nat k)) fuel) as [|Hf]; [assumption|].
    apply (reconstruct_pending fuel n k points Hk L) in Hf.
    congruence. }
  destruct (run_outcome fuel n k points Hk Hm Hf) as [[_ R']|(w' & Hin & R')];
    [congruence|].
  rewrite R' in R. injection R as -> <-.
  apply in_secrets in Hin as (c0 & Hc0 & Y0).
  assert (C0 : is_combo m (Z.to_nat k) c0) by now apply in_subseqs.
  split; [exists c0; auto|].
  fold m.
  set (ixs := filter _ (seq 0 m)).
  assert (U : forall i, In i ixs <->
                i < m /\
                forall c, is_combo m (Z.to_nat k) c -> yields points c w ->
                          ~ In i c).
  { intros i. unfold ixs. rewrite unrecorded_iff.
    split; intros [Hi H]; (split; [assumption|]); intros c Hc.
    - apply H. now apply in_subseqs.
    - apply H. now apply in_subseqs in Hc. }
  exists ixs. split; [reflexivity|]. split; [|split; [exact U|]].
  - apply increasing_filter, increasing_seq.
  - destruct C0 as (L0 & I0 & R0).
    assert (B : length (c0 ++ ixs) <= length (seq 0 m)).
    { apply NoDup_incl_length.
      - apply NoDup_app.
        + now apply increasing_NoDup.
        + apply NoDup_filter, seq_NoDup.
        + intros i Hi Hi'. apply U in Hi' as [_ H].
          apply (H c0); auto. repeat split; auto.
      - intros i Hi. apply in_seq. apply in_app_or in Hi as [Hi|Hi].
        + specialize (R0 i Hi). lia.
        + apply U in Hi as [Hi _]. lia. }
    rewrite length_app, length_seq in B. lia.
Qed.

Lemma reconstruct_result_witness :
  (exists c, is_combo 4 2 c /\
     yields [mkPoint 1 5 "1"; mkPoint 2 3 "2"; mkPoint 3 4 "3"; mkPoint 4 5 "4"]
            c 1%Z) /\
  exists ixs,
    [mkPoint 1 5 "1"] =
    sel [mkPoint 1 5 "1"; mkPoint 2 3 "2"; mkPoint 3 4 "3"; mkPoint 4 5 "4"] ixs /\
    increasing ixs /\
    (forall i, In i ixs <->
       i < 4 /\
       forall c, is_combo 4 2 c ->
         yields [mkPoint 1 5 "1"; mkPoint 2 3 "2"; mkPoint 3 4 "3"; mkPoint 4 5 "4"]
                c 1%Z -> ~ In i c) /\
    length ixs + 2 <= 4.
Proof.
  apply (reconstruct_result 6 4 2
           [mkPoint 1 5 "1"; mkPoint 2 3 "2"; mkPoint 3 4 "3"; mkPoint 4 5 "4"]
           1%Z [mkPoint 1 5 "1"]).
  vm_compute. reflexivity.
Defined.

(** *** Exactly [k] points *)

Lemma choose_diag n : choose n n = 1.
Proof.
  induction n as [|n IH]; [reflexivity|].
  cbn [choose]. rewrite IH, choose_small by lia. reflexivity.
Qed.

Lemma subseqs_full lo n : subseqs lo n n = [seq lo n].
Proof.
  destruct (subseqs_head n lo n (le_n n)) as (rest & E).
  pose proof (subseqs_count n lo n) as C. rewrite E, choose_diag in C.
  destruct rest; [assumption|discriminate].
Qed.

Lemma subset_of_all points :
  subset_of points (seq 0 (length points)) = map Some points.
Proof.
  unfold subset_of. induction points as [|p points IH]; [reflexivity|].
  cbn [length seq map nth_error]. f_equal.
  rewrite <- seq_shift, map_map. exact IH.
Qed.

Lemma none_unrecorded points combos w m :
  (forall i, i < m -> exists c, In c combos /\ yields points c w /\ In i c) ->
  filter
    (fun i => negb (set_has (members_of (cMembers (tally_of points combos)) w) i))
    (seq 0 m) = [].
Proof.
  intros H.
  destruct (filter _ (seq 0 m)) as [|i l] eqn:E; [reflexivity|exfalso].
  assert (Hi : In i (filter
                 (fun i => negb (set_has
                    (members_of (cMembers (tally_of points combos)) w) i))
                 (seq 0 m))) by (rewrite E; now left).
  apply unrecorded_iff in Hi as [Hm Hn].
  destruct (H i Hm) as (c & Hc & Y & Hin). exact (Hn c Hc Y Hin).
Qed.

(** X24. With exactly [k] points there is one subset, all of them: the run
    returns their interpolation and never an outlier, and when that
    interpolation throws, the no-valid-subset exception. *)
Theorem reconstruct_exactly_k fuel n k points :
  (2 <= k <= n)%Z -> Z.of_nat (length points) = k -> 1 <= fuel ->
  reconstruct fuel n k points =
  Some (match interpolateAtZero (map Some points) with
        | Ok v => Ok (v, [])
        | Throw _ => Throw NoValidSubset
        end).
Proof.
  intros Hk L Hf.
  assert (M : Nat.min (length points) (Z.to_nat n) = length points) by lia.
  assert (K : Z.to_nat k = length points) by lia.
  pose proof (run_outcome fuel n k points Hk) as O. cbv zeta in O.
  rewrite M, K, subseqs_full, choose_diag in O.
  specialize (O (le_n _) Hf). rewrite <- subset_of_all.
  destruct O as [[F R]|(w & Hin & R)]; rewrite R.
  - apply Forall_inv in F. destruct F as (e & ->). reflexivity.
  - apply in_secrets in Hin as (c & [<-|[]] & Y). unfold yields in Y.
    rewrite Y, none_unrecorded; [reflexivity|].
    intros i Hi. exists (seq 0 (length points)).
    split; [now left|]. split; [exact Y|]. apply in_seq. lia.
Qed.

Lemma reconstruct_exactly_k_witness :
  reconstruct 1 5 2 [mkPoint 1 4 "a"; mkPoint 2 7 "b"] =
  Some (match interpolateAtZero
                (map Some [mkPoint 1 4 "a"; mkPoint 2 7 "b"]) with
        | Ok v => Ok (v, [])
        | Throw _ => Throw NoValidSubset
        end).
Proof.
  apply (reconstruct_exactly_k 1 5 2 [mkPoint 1 4 "a"; mkPoint 2 7 "b"]);
    simpl; lia.
Defined.

(** *** Points that all lie on the polynomial *)

Lemma combo_through m k i :
  1 <= k <= m -> i < m -> exists c, is_combo m k c /\ In i c.
Proof.
  intros Hk Hi.
  destruct (le_lt_dec k i) as [G|G].
  - exists (sorted_of m (i :: seq 0 (k - 1))). split.
    + apply sorted_of_combo.
      * constructor; [rewrite in_seq; lia|apply seq_NoDup].
      * intros j [<-|Hj]; [assumption|]. apply in_seq in Hj. lia.
      * cbn [length]. rewrite length_seq. lia.
    + apply in_sorted_of. split; [assumption|now left].
  - exists (sorted_of m (seq 0 k)). split.
    + apply sorted_of_combo.
      * apply seq_NoDup.
      * intros j Hj. apply in_seq in Hj. lia.
      * apply length_seq.
    + apply in_sorted_of. split; [assumption|]. apply in_seq. lia.
Qed.

Lemma clean_subset_yields points coeffs m k c :
  NoDup (map x points) -> Forall (on_poly coeffs) points ->
  m <= length points -> length coeffs <= k -> is_combo m k c ->
  yields points c (peval coeffs 0).
Proof.
  intros N P Hm Hl (L & I & R).
  assert (Rg : forall i, In i c -> i < length points)
    by (intros i Hi; specialize (R i Hi); lia).
  unfold yields. rewrite subset_sel by assumption.
  assert (N' : NoDup (map x (sel points c))).
  { apply sel_xs_NoDup; [assumption|now apply increasing_NoDup|assumption]. }
  apply (interpolate_iff _ _ N').
  rewrite (interpolant_of_poly coeffs (sel points c) N').
  - rewrite <- inj_0. apply qeval_inj.
  - unfold sel. rewrite length_map. lia.
  - apply Forall_forall. intros p Hp. unfold sel in Hp.
    apply in_map_iff in Hp as (i & <- & Hi).
    rewrite Forall_forall in P. apply P, nth_In. auto.
Qed.

(** X25. When all the points have distinct abscissas and lie on one integer
    polynomial of degree below [k], a run over at least [k] of them
    returns the polynomial's constant term and reports no outlier. *)
Theorem reconstruct_clean fuel n k points coeffs :
  (2 <= k <= n)%Z -> (k <= Z.of_nat (length points))%Z ->
  NoDup (map x points) -> length coeffs <= Z.to_nat k ->
  Forall (on_poly coeffs) points ->
  choose (Nat.min (length points) (Z.to_nat n)) (Z.to_nat k) <= fuel ->
  reconstruct fuel n k points = Some (Ok (peval coeffs 0, [])).
Proof.
  intros Hk L N Hl P Hf.
  set (m := Nat.min (length points) (Z.to_nat n)) in *.
  assert (Hm : Z.to_nat k <= m) by (subst m; lia).
  assert (Y : forall c, is_combo m (Z.to_nat k) c ->
                        yields points c (peval coeffs 0)).
  { intros c. apply clean_subset_yields; auto. subst m. lia. }
  destruct (run_outcome fuel n k points Hk Hm Hf) as [[F _]|(w & Hin & R)].
  - exfalso. fold m in F.
    destruct (combo_through m (Z.to_nat k) 0) as (c & C & _); [lia|lia|].
    rewrite Forall_forall in F.
    destruct (F c) as (e & E); [now apply in_subseqs|].
    specialize (Y c C). unfold yields in Y. congruence.
  - fold m in Hin, R. rewrite R.
    apply in_secrets in Hin as (c & Hc & Yw). apply in_subseqs in Hc.
    specialize (Y c Hc) as Ys. unfold yields in Yw, Ys.
    assert (w = peval coeffs 0) by congruence. subst w.
    rewrite none_unrecorded; [reflexivity|].
    intros i Hi.
    destruct (combo_through m (Z.to_nat k) i) as (c' & C' & Hin'); [lia|lia|].
    exists c'. split; [now apply in_subseqs|]. split; [now apply Y|assumption].
Qed.

Lemma reconstruct_clean_witness :
  reconstruct 3 3 2 [mkPoint 1 4 "a"; mkPoint 2 7 "b"; mkPoint 3 10 "c"] =
  Some (Ok (peval [1; 3]%Z 0, [])).
Proof.
  apply (reconstruct_clean 3 3 2
           [mkPoint 1 4 "a"; mkPoint 2 7 "b"; mkPoint 3 10 "c"] [1; 3]%Z).
  - lia.
  - simpl. lia.
  - simpl. repeat constructor; simpl; intuition lia.
  - simpl. lia.
  - repeat constructor.
  - simpl. lia.
Defined.

End ReconstructorMore.
